(** * Cleaning and deduplication pipeline of [scripts/clean_compile.py]

    A shallow embedding of the cleaning core of the Reddit scraper
    (text normaliser, record validator, record processor, deduplicator and
    statistics aggregator) and of the run of [main] over the loaded
    documents, together with the properties stated for them.

    Python strings are modelled as lists of characters.  A character is a
    code point in the range U+0000..U+00FF (the type [ascii] read as
    Latin-1); on that range the classes [\s], [\w], [str.isspace] and the
    mapping [str.lower] below are the ones of CPython 3.  [len] is [length]. *)

From Stdlib Require Import Ascii String List ZArith QArith Lia Bool.
From stdpp Require Import base option list gmap strings.

#[local] Set Warnings "-clear-no-such-hyp".

Local Open Scope nat_scope.
Local Open Scope bool_scope.

Abbreviation str := (list ascii).

(** A string literal of the source, as a list of characters. *)
Definition txt (s : string) : str := list_ascii_of_string s.

(* ===================================================================== *)
(** * The program *)
(* ===================================================================== *)

(** ** Characters *)

Module Char.

Definition code (c : ascii) : N := N_of_ascii c.

Definition between (lo hi : N) (c : ascii) : bool :=
  (lo <=? code c)%N && (code c <=? hi)%N.

Definition at_code (n : N) (c : ascii) : bool := (code c =? n)%N.

Definition LF : ascii := ascii_of_N 10.
Definition TAB : ascii := ascii_of_N 9.
Definition SP : ascii := ascii_of_N 32.

(** [str.isspace] and the regex class [\s]: TAB, LF, VT, FF, CR,
    FS..US, SPACE, NEL and NO-BREAK SPACE. *)
Definition is_space (c : ascii) : bool :=
  between 9 13 c || between 28 31 c || at_code 32 c || at_code 133 c
  || at_code 160 c.

Definition is_digit (c : ascii) : bool := between 48 57 c.
Definition is_upper_az (c : ascii) : bool := between 65 90 c.
Definition is_lower_az (c : ascii) : bool := between 97 122 c.

(** The regex class [\w]: alphanumeric characters and the underscore.
    Above U+007F the alphanumerics are the Latin-1 letters and the
    numeric signs (superscripts, fractions, ordinal indicators, micro). *)
Definition is_word (c : ascii) : bool :=
  is_digit c || is_upper_az c || is_lower_az c || at_code 95 c
  || at_code 170 c || at_code 178 c || at_code 179 c || at_code 181 c
  || at_code 185 c || at_code 186 c
  || between 188 190 c || between 192 214 c || between 216 246 c
  || between 248 255 c.

(** [str.lower] on one character: A..Z and the upper-case Latin-1
    letters (U+00C0..U+00DE without the multiplication sign) move up
    by 32; every other character is unchanged. *)
Definition lower (c : ascii) : ascii :=
  if is_upper_az c || (between 192 222 c && negb (at_code 215 c))
  then ascii_of_N (code c + 32)
  else c.

End Char.

(** [s.lower()] *)
Definition py_lower (s : str) : str := map Char.lower s.

(** [s.strip()]: leading and trailing white space removed. *)
Fixpoint lstrip (s : str) : str :=
  match s with
  | [] => []
  | c :: s' => if Char.is_space c then lstrip s' else s
  end.

Fixpoint rstrip (s : str) : str :=
  match s with
  | [] => []
  | c :: s' =>
      match rstrip s' with
      | [] => if Char.is_space c then [] else [c]
      | r => c :: r
      end
  end.

Definition py_strip (s : str) : str := rstrip (lstrip s).

(** [s.startswith(m)] *)
Fixpoint starts_with (m s : str) : bool :=
  match m, s with
  | [], _ => true
  | _ :: _, [] => false
  | a :: m', b :: s' => Ascii.eqb a b && starts_with m' s'
  end.

(** [m in s] for two strings. *)
Fixpoint contains (m s : str) : bool :=
  starts_with m s ||
  match s with
  | [] => false
  | _ :: s' => contains m s'
  end.

(* ===================================================================== *)
(** ** Regular expressions: the fragment of [re] used by the script *)
(* ===================================================================== *)

Module Re.

(** Patterns: the empty pattern, one character of a class (a literal is
    the class of one character), concatenation, ordered alternation,
    greedy repetition and the capturing group number 1. *)
Inductive regex : Type :=
| Eps
| Chr (p : ascii -> bool)
| Seq (r1 r2 : regex)
| Alt (r1 r2 : regex)
| Star (r : regex)
| Group (r : regex).

Definition Lit (c : ascii) : regex := Chr (Ascii.eqb c).
Definition Plus (r : regex) : regex := Seq r (Star r).
Definition Opt (r : regex) : regex := Alt r Eps.

(** A literal string. *)
Fixpoint Lits (l : str) (r : regex) : regex :=
  match l with
  | [] => r
  | c :: l' => Seq (Lit c) (Lits l' r)
  end.

(** State of a match: the text of group 1 (if it took part), and in the
    result the text that is left after the match. *)
Definition caps : Type := option str.
Definition mres : Type := (caps * str)%type.
Definition cont : Type := caps -> str -> option mres.

(** A greedy repetition of [body]: first one more iteration, which has
    to consume a character, then the continuation.  [n] bounds the
    number of iterations; [length s] is enough for the text [s]. *)
Definition star_loop (body : caps -> str -> cont -> option mres) (k : cont)
  : nat -> caps -> str -> option mres :=
  fix loop (n : nat) (g : caps) (s : str) {struct n} : option mres :=
    match n with
    | O => k g s
    | S n' =>
        match body g s
                (fun g' s' =>
                   if length s' <? length s then loop n' g' s' else None)
        with
        | Some x => Some x
        | None => k g s
        end
    end.

(** The backtracking matcher, in continuation-passing style: [rmatch r g
    s k] matches [r] at the head of [s] and hands the rest to [k]; when
    [k] fails the matcher moves on to its next choice.  Alternatives are
    tried from left to right. *)
Fixpoint rmatch (r : regex) (g : caps) (s : str) (k : cont) {struct r}
  : option mres :=
  match r with
  | Eps => k g s
  | Chr p =>
      match s with
      | c :: s' => if p c then k g s' else None
      | [] => None
      end
  | Seq a b => rmatch a g s (fun g' s' => rmatch b g' s' k)
  | Alt a b =>
      match rmatch a g s k with
      | Some x => Some x
      | None => rmatch b g s k
      end
  | Star a => star_loop (rmatch a) k (length s) g s
  | Group a =>
      rmatch a g s (fun _ s' => k (Some (take (length s - length s') s)) s')
  end.

Definition accept : cont := fun g s => Some (g, s).

(** [pattern.match(s)]: the length of the match at the head of [s] and
    the text of group 1. *)
Definition match_at (r : regex) (s : str) : option (nat * caps) :=
  match rmatch r None s accept with
  | Some (g, s') => Some (length s - length s', g)
  | None => None
  end.

(** Replacement templates: literal text and the back-reference [\1]. *)
Inductive ritem : Type :=
| RLit (l : str)
| RGroup1.

Definition expand (repl : list ritem) (g : caps) : str :=
  flat_map (fun it => match it with
                      | RLit l => l
                      | RGroup1 => default [] g
                      end) repl.

(** [re.sub(r, repl, s)]: scan from the left, replace each match and go
    on behind it; a character that starts no match is copied.  [skip]
    counts the characters of the current match that are still to pass. *)
Fixpoint sub_from (r : regex) (repl : list ritem) (skip : nat) (s : str)
  : str :=
  match s with
  | [] =>
      match skip with
      | O => match match_at r [] with
             | Some (_, g) => expand repl g
             | None => []
             end
      | S _ => []
      end
  | c :: s' =>
      match skip with
      | S n => sub_from r repl n s'
      | O =>
          match match_at r s with
          | Some (O, g) => expand repl g ++ c :: sub_from r repl 0 s'
          | Some (S n, g) => expand repl g ++ sub_from r repl n s'
          | None => c :: sub_from r repl 0 s'
          end
      end
  end.

Definition sub (r : regex) (repl : list ritem) (s : str) : str :=
  sub_from r repl 0 s.

End Re.

Import Re.

(* ===================================================================== *)
(** ** The patterns of [clean_text] and [normalize_title] *)
(* ===================================================================== *)

Module Pat.
Import Char.

Definition one_of (l : str) (c : ascii) : bool :=
  existsb (Ascii.eqb c) l.

Definition hex (c : ascii) : bool :=
  is_digit c || between 97 102 c || between 65 70 c.

(** [(?:[a-zA-Z]|[0-9]|[$-_@.&+]|[!*\\(\\),]|(?:%[0-9a-fA-F][0-9a-fA-F]))+] *)
Definition url_char : regex :=
  Alt (Chr (fun c => is_lower_az c || is_upper_az c))
 (Alt (Chr is_digit)
 (Alt (Chr (fun c => between 36 95 c || one_of (txt "@.&+") c))
 (Alt (Chr (one_of (txt "!*\(\),")))
      (Seq (Lit "%") (Seq (Chr hex) (Chr hex)))))).

(** [http[s]?://(...)+] *)
Definition http_url : regex :=
  Lits (txt "http") (Seq (Opt (Chr (one_of (txt "s"))))
                         (Lits (txt "://") (Plus url_char))).

(** [www\.(...)+] *)
Definition www_url : regex :=
  Lits (txt "www.") (Plus url_char).

Definition not_char (x : ascii) (c : ascii) : bool := negb (Ascii.eqb x c).

(** [\*\*([^*]+)\*\*] *)
Definition bold : regex :=
  Lits (txt "**")
       (Seq (Group (Plus (Chr (not_char "*")))) (Lits (txt "**") Eps)).

(** [\*([^*]+)\*] *)
Definition italic : regex :=
  Lits (txt "*")
       (Seq (Group (Plus (Chr (not_char "*")))) (Lits (txt "*") Eps)).

(** [~~([^~]+)~~] *)
Definition strike : regex :=
  Lits (txt "~~")
       (Seq (Group (Plus (Chr (not_char "~")))) (Lits (txt "~~") Eps)).

(** [\n\s*\n] *)
Definition blank_lines : regex :=
  Seq (Lit LF) (Seq (Star (Chr is_space)) (Lit LF)).

(** [[ \t]+] *)
Definition blanks : regex :=
  Plus (Chr (fun c => Ascii.eqb c SP || Ascii.eqb c TAB)).

(** [[^\w\s]] *)
Definition punct : regex :=
  Chr (fun c => negb (is_word c || is_space c)).

(** [\s+] *)
Definition spaces : regex := Plus (Chr is_space).

End Pat.

(* ===================================================================== *)
(** ** Values read from the JSON documents *)
(* ===================================================================== *)

#[local] Set Warnings "-register-all".

(** What [json.load] yields (numbers with a fraction are left out: no
    operation of the cleaning core looks inside a number). *)
Inductive value : Type :=
| VNone
| VBool (b : bool)
| VInt (z : Z)
| VStr (s : str)
| VList (l : list value)
| VDict (d : list (str * value)).

(** A raw post: a [dict] with string keys. *)
Abbreviation post := (gmap string value).

(** [d.get(k, default)] *)
Definition dict_get (d : post) (k : string) (dflt : value) : value :=
  default dflt (d !! k).

(** Exceptions that the modelled operations can raise. *)
Inductive exn : Type :=
| AttributeError
| TypeError
| ZeroDivisionError.

Inductive res (A : Type) : Type :=
| Ok (a : A)
| Raise (e : exn).
Arguments Ok {A} a.
Arguments Raise {A} e.

#[global] Instance res_ret : MRet res := fun A a => Ok a.
#[global] Instance res_bind : MBind res := fun A B f m =>
  match m with
  | Ok a => f a
  | Raise e => Raise e
  end.

(* ===================================================================== *)
(** ** [clean_text] *)
(* ===================================================================== *)

(** The body of [clean_text] for a non-empty string. *)
Definition clean_str (text : str) : str :=
  let text := Re.sub Pat.http_url [] text in
  let text := Re.sub Pat.www_url [] text in
  let text := Re.sub Pat.bold [RGroup1] text in
  let text := Re.sub Pat.italic [RGroup1] text in
  let text := Re.sub Pat.strike [RGroup1] text in
  let text := Re.sub Pat.blank_lines [RLit [Char.LF]] text in
  let text := Re.sub Pat.blanks [RLit [Char.SP]] text in
  py_strip text.

(** [if not text or not isinstance(text, str): return ""] *)
Definition clean_text (text : value) : str :=
  match text with
  | VStr [] => []
  | VStr s => clean_str s
  | _ => []
  end.

(* ===================================================================== *)
(** ** Configuration *)
(* ===================================================================== *)

Definition MIN_BODY_LEN : Z := 5.

Definition DELETED_MARKERS : list str :=
  [ txt "[deleted]";
    txt "[removed]";
    txt "[removed by reddit]";
    txt "[deleted by user]";
    txt "**removed**";
    txt "**deleted**" ].

(* ===================================================================== *)
(** ** [is_valid_post] *)
(* ===================================================================== *)

(** [v.strip()]: only a string has the method. *)
Definition strip_method (v : value) : res str :=
  match v with
  | VStr s => Ok (py_strip s)
  | _ => Raise AttributeError
  end.

(** [any(marker in body.lower() for marker in DELETED_MARKERS)] *)
Definition has_marker (body : str) : bool :=
  existsb (fun marker => contains marker (py_lower body)) DELETED_MARKERS.

(** [min_length] has the default [MIN_BODY_LEN]. *)
Definition is_valid_post (p : post) (min_length : Z) : res bool :=
  body ← strip_method (dict_get p "body" (VStr []));
  title ← strip_method (dict_get p "title" (VStr []));
  if has_marker body then Ok false
  else if (Z.of_nat (length body) <? min_length)%Z then Ok false
  else if bool_decide (title = []) then Ok false
  else Ok true.

(* ===================================================================== *)
(** ** [normalize_title] *)
(* ===================================================================== *)

Definition normalize_title (title : str) : str :=
  let normalized := py_lower title in
  let normalized := Re.sub Pat.punct [] normalized in
  let normalized := Re.sub Pat.spaces [RLit [Char.SP]] normalized in
  py_strip normalized.

(* ===================================================================== *)
(** ** [process_post] *)
(* ===================================================================== *)

(** The dictionary that [process_post] builds: exactly the keys
    [subreddit], [title] and [body], the last two holding strings. *)
Record cleaned_post : Type := CleanedPost {
  subreddit : value;
  title : str;
  body : str
}.

(** The dictionary itself, as [is_valid_post] receives it. *)
Definition as_dict (c : cleaned_post) : post :=
  {[ "subreddit" := subreddit c;
     "title" := VStr (title c);
     "body" := VStr (body c) ]}.

(** The result is [Ok None] for a rejected post. *)
Definition process_post (p : post) : res (option cleaned_post) :=
  let cleaned_post :=
    {| subreddit := dict_get p "subreddit" (VStr (txt "unknown"));
       title := clean_text (dict_get p "title" (VStr []));
       body := clean_text (dict_get p "body" (VStr [])) |} in
  let temp_post := as_dict cleaned_post in
  valid ← is_valid_post temp_post MIN_BODY_LEN;
  if negb valid then Ok None else Ok (Some cleaned_post).

(* ===================================================================== *)
(** ** [deduplicate_posts] *)
(* ===================================================================== *)

(** The loop of [deduplicate_posts], with its three variables. *)
Fixpoint dedup_loop (posts : list cleaned_post) (seen_titles : gset str)
    (unique_posts : list cleaned_post) (duplicates : nat)
  : list cleaned_post * nat :=
  match posts with
  | [] => (unique_posts, duplicates)
  | p :: rest =>
      let normalized := normalize_title (title p) in
      if bool_decide (normalized ∉ seen_titles)
      then dedup_loop rest ({[normalized]} ∪ seen_titles)
                      (unique_posts ++ [p]) duplicates
      else dedup_loop rest seen_titles unique_posts (duplicates + 1)
  end.

Definition deduplicate_posts (posts : list cleaned_post)
  : list cleaned_post * nat :=
  dedup_loop posts ∅ [] 0.

(* ===================================================================== *)
(** ** [calculate_stats] *)
(* ===================================================================== *)

(** Dictionary keys.  [None], numbers and strings can be hashed, lists and
    dictionaries cannot; [True] and [False] are the keys [1] and [0]. *)
Inductive key : Type :=
| KNone
| KInt (z : Z)
| KStr (s : str).

#[global] Instance key_eq_dec : EqDecision key.
Proof. solve_decision. Defined.

Definition hash_key (v : value) : res key :=
  match v with
  | VNone => Ok KNone
  | VBool b => Ok (KInt (if b then 1 else 0))
  | VInt z => Ok (KInt z)
  | VStr s => Ok (KStr s)
  | VList _ | VDict _ => Raise TypeError
  end.

(** [a / b] on two lengths or counts.  The quotient is kept exact; the
    script holds its rounding to a float. *)
Definition truediv (a b : nat) : res Q :=
  match b with
  | O => Raise ZeroDivisionError
  | S _ => Ok (Qmake (Z.of_nat a) (Pos.of_nat b))
  end.

(** The statistics of one subreddit; [avg_length] is absent until the
    averages are filled in. *)
Record group_stats : Type := GroupStats {
  count : nat;
  total_length : nat;
  avg_length : option Q
}.

(** [defaultdict(lambda: {'count': 0, 'total_length': 0})] *)
Definition default_group : group_stats :=
  {| count := 0; total_length := 0; avg_length := None |}.

(** The dictionary of the groups, in insertion order. *)
Abbreviation groups := (list (key * group_stats)).

(** [d[k] = f(d[k])] on the [defaultdict]: a missing key first gets the
    default entry, at the end. *)
Fixpoint dd_update (f : group_stats -> group_stats) (k : key) (d : groups)
  : groups :=
  match d with
  | [] => [(k, f default_group)]
  | (k', st) :: d' =>
      if decide (k = k') then (k', f st) :: d'
      else (k', st) :: dd_update f k d'
  end.

Definition add_count (n : nat) (st : group_stats) : group_stats :=
  {| count := count st + n;
     total_length := total_length st;
     avg_length := avg_length st |}.

Definition add_length (n : nat) (st : group_stats) : group_stats :=
  {| count := count st;
     total_length := total_length st + n;
     avg_length := avg_length st |}.

(** The loop over the posts. *)
Fixpoint stats_loop (posts : list cleaned_post) (d : groups) : res groups :=
  match posts with
  | [] => Ok d
  | p :: rest =>
      sub ← hash_key (subreddit p);
      let d := dd_update (add_count 1) sub d in
      let d := dd_update (add_length (length (body p))) sub d in
      stats_loop rest d
  end.

(** The loop that fills in the averages. *)
Fixpoint set_averages (d : groups) : res groups :=
  match d with
  | [] => Ok []
  | (k, st) :: d' =>
      q ← truediv (total_length st) (count st);
      d'' ← set_averages d';
      Ok ((k, {| count := count st;
                 total_length := total_length st;
                 avg_length := Some q |}) :: d'')
  end.

Record stats : Type := MkStats {
  total_posts : nat;
  avg_body_length : Q;
  subreddit_stats : groups
}.

(** The returned dictionary: empty, or the three statistics. *)
Inductive stats_result : Type :=
| EmptyStats
| Stats (st : stats).

Definition total_body_length (posts : list cleaned_post) : nat :=
  sum_list (map (fun p => length (body p)) posts).

Definition calculate_stats (posts : list cleaned_post) : res stats_result :=
  match posts with
  | [] => Ok EmptyStats
  | _ :: _ =>
      let total_posts := length posts in
      let total_body_length := total_body_length posts in
      avg_body_length ←
        (if 0 <? total_posts then truediv total_body_length total_posts
         else Ok (Qmake 0 1));
      subreddit_stats ← stats_loop posts [];
      subreddit_stats ← set_averages subreddit_stats;
      Ok (Stats {| total_posts := total_posts;
                   avg_body_length := avg_body_length;
                   subreddit_stats := subreddit_stats |})
  end.

(* ===================================================================== *)
(** * Notions used in the properties *)
(* ===================================================================== *)

(** ** The matcher *)

(** All the characters. *)
Definition all_chars : list ascii := map ascii_of_nat (seq 0 256).

(** The text behind the leading run of characters of the class [p]. *)
Fixpoint drop_run (p : ascii -> bool) (s : str) : str :=
  match s with
  | [] => []
  | c :: s' => if p c then drop_run p s' else s
  end.

(** A greedy repetition of the class [p] followed by [k], with
    backtracking: the longest run that [k] accepts. *)
Fixpoint star_class (p : ascii -> bool) (g : caps) (s : str) (k : cont)
  : option mres :=
  match s with
  | [] => k g s
  | c :: s' =>
      if p c
      then match star_class p g s' k with
           | Some x => Some x
           | None => k g s
           end
      else k g s
  end.

(** A continuation that returns a suffix of the text it receives. *)
Definition suffix_cont (k : cont) : Prop :=
  ∀ g s x, k g s = Some x → x.2 `suffix_of` s.

(** The characters of the class [p], the others removed. *)
Fixpoint keep (p : ascii -> bool) (s : str) : str :=
  match s with
  | [] => []
  | c :: s' => if p c then c :: keep p s' else keep p s'
  end.

(** Every maximal run of characters of the class [p] becomes one space;
    [in_run] tells that the text continues a run already replaced. *)
Fixpoint collapse (p : ascii -> bool) (in_run : bool) (s : str) : str :=
  match s with
  | [] => []
  | c :: s' =>
      if p c
      then (if in_run then collapse p true s'
            else Char.SP :: collapse p true s')
      else c :: collapse p false s'
  end.

(** ** The normal form of [clean_text] *)

(** The characters that the URL patterns repeat: the union of the four
    one-character alternatives. *)
Definition url_class (c : ascii) : bool :=
  Char.is_lower_az c || Char.is_upper_az c || Char.is_digit c
  || Char.between 36 95 c || Pat.one_of (txt "@.&+") c
  || Pat.one_of (txt "!*\(\),") c.

(** The literal heads of the two URL patterns. *)
Definition http_lits : list str := [txt "https://"; txt "http://"].
Definition www_lits : list str := [txt "www."].

(** The literal heads consist of URL characters. *)
Definition lits_ok (lits : list str) : Prop :=
  Forall (Forall (λ c, url_class c = true)) lits.

(** The text behind a URL at the head of [s]: one of the literal heads,
    then the longest run of URL characters, at least one. *)
Fixpoint url_rest (lits : list str) (s : str) : option str :=
  match lits with
  | [] => None
  | l :: lits' =>
      if starts_with l s
      then match drop (length l) s with
           | c :: t => if url_class c then Some (drop_run url_class t)
                       else url_rest lits' s
           | [] => url_rest lits' s
           end
      else url_rest lits' s
  end.

(** A URL starts at the head of [s]. *)
Definition url_head (lits : list str) (s : str) : bool :=
  match url_rest lits s with
  | Some _ => true
  | None => false
  end.

(** No URL starts anywhere in [s]. *)
Fixpoint url_free (lits : list str) (s : str) : bool :=
  match s with
  | [] => true
  | _ :: s' => negb (url_head lits s) && url_free lits s'
  end.

(** The head of [s] is no URL character. *)
Definition head_not_url (s : str) : Prop :=
  match s with
  | [] => True
  | c :: _ => url_class c = false
  end.

(** [o] comes from [s] by copying characters, deleting pieces in front of
    a character that is no URL character, and replacing pieces by one
    space or one line feed. *)
Inductive rewritten : str -> str -> Prop :=
| rw_nil : rewritten [] []
| rw_copy c s o : rewritten s o -> rewritten (c :: s) (c :: o)
| rw_delete m s o :
    rewritten s o -> head_not_url s -> rewritten (m ++ s) o
| rw_replace m p s o :
    rewritten s o -> p = Char.SP \/ p = Char.LF -> rewritten (m ++ s) (p :: o).

(** Neither an asterisk nor a tilde. *)
Definition plain (c : ascii) : bool :=
  negb (Ascii.eqb c "*") && negb (Ascii.eqb c "~").

(** The continuation of [\s*] in the pattern of the blank lines: a line
    feed. *)
Definition then_lf : cont :=
  fun g s =>
    match s with
    | c :: s' => if Ascii.eqb Char.LF c then Some (g, s') else None
    | [] => None
    end.

(** A line feed follows after white space only. *)
Fixpoint nl_ahead (s : str) : bool :=
  match s with
  | [] => false
  | c :: s' =>
      if Ascii.eqb c Char.LF then true
      else if Char.is_space c then nl_ahead s'
      else false
  end.

(** No two line feeds with only white space between them. *)
Fixpoint nl_free (s : str) : bool :=
  match s with
  | [] => true
  | c :: s' => negb (Ascii.eqb c Char.LF && nl_ahead s') && nl_free s'
  end.

(** The class [[ \t]]. *)
Definition blank (c : ascii) : bool :=
  Ascii.eqb c Char.SP || Ascii.eqb c Char.TAB.

(** Every blank is a single space; [prev_blank] tells that a blank stands
    in front of the text. *)
Fixpoint tidy (prev_blank : bool) (s : str) : bool :=
  match s with
  | [] => true
  | c :: s' =>
      if blank c
      then Ascii.eqb c Char.SP && negb prev_blank && tidy true s'
      else tidy false s'
  end.

(** The normal form that [clean_text] produces on plain text. *)
Definition normal (y : str) : Prop :=
  url_free http_lits y = true ∧
  url_free www_lits y = true ∧
  Forall (λ c, plain c = true) y ∧
  nl_free y = true ∧
  tidy false y = true ∧
  py_strip y = y.

(** ** The validator *)

(** A field of a raw post that is absent or holds a string. *)
Definition str_or_absent (p : post) (k : string) : Prop :=
  p !! k = None ∨ ∃ s, p !! k = Some (VStr s).

(** The first character of a marker is no white space. *)
Definition solid_start (m : str) : bool :=
  match m with
  | [] => false
  | a :: _ => negb (Char.is_space a)
  end.

(** The last character of a marker, if there is one, is no white space. *)
Fixpoint solid_end (m : str) : bool :=
  match m with
  | [] => true
  | [z] => negb (Char.is_space z)
  | _ :: m' => solid_end m'
  end.

(** ** The deduplicator *)

(** The deduplication key of a record. *)
Definition fingerprint (p : cleaned_post) : str := normalize_title (title p).

(** The fingerprint in the words of the specification: the title in lower
    case, every character that is neither a word character nor white space
    removed, every run of white space collapsed to one space, trimmed. *)
Definition word_or_space (c : ascii) : bool :=
  Char.is_word c || Char.is_space c.

Definition fingerprint_of_title (t : str) : str :=
  py_strip (collapse Char.is_space false (keep word_or_space (py_lower t))).

(** A title without a word character: punctuation and white space only. *)
Definition wordless (t : str) : Prop :=
  Forall (λ c, Char.is_word c = false) t.

#[global] Instance wordless_dec t : Decision (wordless t).
Proof. unfold wordless. apply _. Defined.

(** The record [p] at position [i] of [posts] is the first one of its
    fingerprint: no earlier position holds a record of that fingerprint. *)
Definition first_occurrence (posts : list cleaned_post) (i : nat)
    (p : cleaned_post) : Prop :=
  fingerprint p ∉ fingerprint <$> take i posts.

(** The records of [rest], which starts at position [start] of [posts],
    that are first occurrences in [posts], in their order. *)
Definition occurrences_from (start : nat) (posts rest : list cleaned_post)
  : list cleaned_post :=
  (filter (λ ip, first_occurrence posts ip.1 ip.2)
          (imap (λ i p, (start + i, p)) rest)).*2.

Definition first_occurrences (posts : list cleaned_post) : list cleaned_post :=
  occurrences_from 0 posts posts.

(** ** The statistics *)

(** A value that can be a dictionary key. *)
Definition hashable (v : value) : Prop := ∃ k, hash_key v = Ok k.

(** The sum of one statistic over the groups. *)
Definition sum_of (f : group_stats -> nat) (d : groups) : nat :=
  sum_list ((λ e, f e.2) <$> d).

(** Every group has been counted at least once. *)
Definition counted (d : groups) : Prop := Forall (λ e, 1 ≤ count e.2) d.

(** ** Runs of a class *)

(** Every character of the class [p] in [s] is a space and stands alone;
    [prev] tells that a character of the class stands in front of [s]. *)
Fixpoint single_runs (p : ascii -> bool) (prev : bool) (s : str) : bool :=
  match s with
  | [] => true
  | c :: s' =>
      if p c
      then Ascii.eqb c Char.SP && negb prev && single_runs p true s'
      else single_runs p false s'
  end.

(** ** Lengths of matches *)

(** A continuation that keeps the text of group 1 and the rest of the text
    together within [N] characters. *)
Definition bounded_cont (N : nat) (k : cont) : Prop :=
  ∀ g s x, length (default [] g) + length s ≤ N → k g s = Some x →
           length (default [] x.1) + length x.2 ≤ N.

(** ** The groups of the statistics *)

#[global] Instance exn_eq_dec : EqDecision exn.
Proof. solve_decision. Defined.

#[global] Instance res_eq_dec `{EqDecision A} : EqDecision (res A).
Proof. solve_decision. Defined.

(** [d.get(k)] on the dictionary of the groups. *)
Fixpoint dd_get (k : key) (d : groups) : option group_stats :=
  match d with
  | [] => None
  | (k', st) :: d' => if decide (k = k') then Some st else dd_get k d'
  end.

(** The records whose subreddit is the key [k]. *)
Definition group_of (k : key) (posts : list cleaned_post) : list cleaned_post :=
  filter (λ p, hash_key (subreddit p) = Ok k) posts.

(** A value that cannot be a dictionary key: a list or a dictionary. *)
Definition unhashable (v : value) : Prop :=
  match v with
  | VList _ | VDict _ => True
  | _ => False
  end.

(* ===================================================================== *)
(** * The pipeline: [load_json_files] and [main] *)
(* ===================================================================== *)

(** ** What the script finds around it *)

(** Whether the input directory exists; for every file [*.json] of it, in
    the order of the listing, the document that [json.load] yields, or
    [None] when opening or parsing the file raised; and whether the output
    file can be written.  Writing to the console is taken to succeed. *)
Record world : Type := World {
  input_dir_exists : bool;
  json_files : list (option value);
  output_writable : bool
}.

(** The loop of [load_json_files]: a file that cannot be read or parsed
    is reported and passed over. *)
Fixpoint load_json_files (files : list (option value)) : list value :=
  match files with
  | [] => []
  | Some data :: rest => data :: load_json_files rest
  | None :: rest => load_json_files rest
  end.

(** ** Operations of [main] on the documents *)

(** The [dict] of a JSON object: a later member replaces an earlier one
    of the same name. *)
Definition dict_of (d : list (str * value)) : post :=
  foldl (λ m kv, <[string_of_list_ascii kv.1 := kv.2]> m) ∅ d.

(** The names of a JSON object, each once, in the order of their first
    members. *)
Fixpoint dict_keys (d : list (str * value)) (seen : list str) : list str :=
  match d with
  | [] => []
  | (k, _) :: d' =>
      if decide (k ∈ seen) then dict_keys d' seen
      else k :: dict_keys d' (k :: seen)
  end.

(** [v.get(k, default)]: only a [dict] has the method. *)
Definition get_method (v : value) (k : string) (dflt : value) : res value :=
  match v with
  | VDict d => Ok (dict_get (dict_of d) k dflt)
  | _ => Raise AttributeError
  end.

(** The elements that [list.extend(v)] appends: those of a list, the keys
    of a [dict], the characters of a string; nothing else can be
    iterated. *)
Definition py_iter (v : value) : res (list value) :=
  match v with
  | VList l => Ok l
  | VDict d => Ok (VStr <$> dict_keys d [])
  | VStr s => Ok ((λ c, VStr [c]) <$> s)
  | VNone | VBool _ | VInt _ => Raise TypeError
  end.

(** [process_post(post)] for an element of [all_posts], whatever it is:
    the first thing that [process_post] does is to call [post.get]. *)
Definition process_value (v : value) : res (option cleaned_post) :=
  match v with
  | VDict d => process_post (dict_of d)
  | _ => Raise AttributeError
  end.

(** The loop that extracts the posts of the documents. *)
Fixpoint extract_posts (json_data : list value) (all_posts : list value)
  : res (list value) :=
  match json_data with
  | [] => Ok all_posts
  | data :: rest =>
      posts ← get_method data "posts" (VList []);
      items ← py_iter posts;
      extract_posts rest (all_posts ++ items)
  end.

(** The loop that cleans and filters the posts. *)
Fixpoint clean_loop (all_posts : list value)
    (cleaned_posts : list cleaned_post) (skipped : nat)
  : res (list cleaned_post * nat) :=
  match all_posts with
  | [] => Ok (cleaned_posts, skipped)
  | post :: rest =>
      cleaned ← process_value post;
      match cleaned with
      | Some c => clean_loop rest (cleaned_posts ++ [c]) skipped
      | None => clean_loop rest cleaned_posts (skipped + 1)
      end
  end.

Definition REMOVE_DUPLICATES : bool := true.

(** ** The report of the statistics *)

(** The exceptions that can leave [main]: those of the functions above and
    the [ValueError] of a format specification. *)
Inductive uncaught : Type :=
| Exn (e : exn)
| ValueError.

Inductive run (A : Type) : Type :=
| Return (a : A)
| Crash (e : uncaught).
Arguments Return {A} a.
Arguments Crash {A} e.

#[global] Instance run_ret : MRet run := fun A a => Return a.
#[global] Instance run_bind : MBind run := fun A B f m =>
  match m with
  | Return a => f a
  | Crash e => Crash e
  end.

Definition lift {A : Type} (m : res A) : run A :=
  match m with
  | Ok a => Return a
  | Raise e => Crash (Exn e)
  end.

(** [sorted(items, key=lambda x: x[1]['count'], reverse=True)]: by
    falling counts, entries of equal counts in their order in the
    dictionary. *)
Fixpoint insert_by_count (e : key * group_stats) (l : groups) : groups :=
  match l with
  | [] => [e]
  | e' :: l' =>
      if count e'.2 <=? count e.2 then e :: l
      else e' :: insert_by_count e l'
  end.

Definition sorted_by_count (d : groups) : groups :=
  foldr insert_by_count [] d.

(** [f"{sub:30s}"], as far as it can raise: the format [s] is one of
    strings only; [None] answers a format specification with a
    [TypeError], a number with a [ValueError]. *)
Definition format_30s (sub : key) : run unit :=
  match sub with
  | KStr _ => Return ()
  | KNone => Crash (Exn TypeError)
  | KInt _ => Crash ValueError
  end.

(** The loop that prints one line for each subreddit. *)
Fixpoint print_groups (l : groups) : run unit :=
  match l with
  | [] => Return ()
  | (sub, _) :: l' => _ ← format_30s sub; print_groups l'
  end.

(** [if stats: ...] *)
Definition print_stats (s : stats_result) : run unit :=
  match s with
  | EmptyStats => Return ()
  | Stats st => print_groups (sorted_by_count (subreddit_stats st))
  end.

(** ** [main] *)

(** The numbers that [main] prints, and the final list of records, of
    which the output file receives one line each. *)
Record report : Type := Report {
  input_files : nat;
  posts_extracted : nat;
  posts_cleaned : nat;
  posts_skipped : nat;
  duplicates_removed : option nat;
  dataset : list cleaned_post
}.

(** How a run ends: without an input directory, without a document, with
    an exception, with the message that the output could not be saved, or
    with the output file written. *)
Inductive outcome : Type :=
| NoInputDir
| NoData
| Crashed (e : uncaught)
| SaveFailed (r : report)
| Complete (r : report).

(** The steps of [main] behind the loading of the documents. *)
Definition process_documents (json_data : list value) (writable : bool)
  : run outcome :=
  all_posts ← lift (extract_posts json_data []);
  cleaned ← lift (clean_loop all_posts [] 0);
  let n_cleaned := length cleaned.1 in
  let deduplicated :=
    if REMOVE_DUPLICATES
    then (let r := deduplicate_posts cleaned.1 in (r.1, Some r.2))
    else (cleaned.1, None) in
  let cleaned_posts := deduplicated.1 in
  stats ← lift (calculate_stats cleaned_posts);
  _ ← print_stats stats;
  let r := {| input_files := length json_data;
              posts_extracted := length all_posts;
              posts_cleaned := n_cleaned;
              posts_skipped := cleaned.2;
              duplicates_removed := deduplicated.2;
              dataset := cleaned_posts |} in
  Return (if writable then Complete r else SaveFailed r).

Definition main (w : world) : outcome :=
  if negb (input_dir_exists w) then NoInputDir
  else
    let json_data := load_json_files (json_files w) in
    match json_data with
    | [] => NoData
    | _ :: _ =>
        match process_documents json_data (output_writable w) with
        | Return o => o
        | Crash e => Crashed e
        end
    end.

(** ** The pipeline in words *)

Definition is_object (v : value) : Prop :=
  match v with
  | VDict _ => True
  | _ => False
  end.

(** What one document contributes to [all_posts]. *)
Definition document_posts (data : value) : res (list value) :=
  posts ← get_method data "posts" (VList []);
  py_iter posts.

Definition posts_of (data : value) : list value :=
  match document_posts data with
  | Ok l => l
  | Raise _ => []
  end.

(** A document as the script can process it: an object whose member
    [posts], if there is one, can be iterated and yields objects only. *)
Definition well_shaped (data : value) : Prop :=
  match document_posts data with
  | Ok l => Forall is_object l
  | Raise _ => False
  end.

(** The record of a post that passes the processor. *)
Definition accepted (v : value) : option cleaned_post :=
  match process_value v with
  | Ok (Some c) => Some c
  | _ => None
  end.

(** The records of the documents: the accepted ones, and among them the
    first of each fingerprint. *)
Definition cleaned_of (json_data : list value) : list cleaned_post :=
  omap accepted (json_data ≫= posts_of).

Definition dataset_of (json_data : list value) : list cleaned_post :=
  (deduplicate_posts (cleaned_of json_data)).1.

(** What [main] reports for documents that it can process to the end. *)
Definition report_of (json_data : list value) : report :=
  {| input_files := length json_data;
     posts_extracted := length (json_data ≫= posts_of);
     posts_cleaned := length (cleaned_of json_data);
     posts_skipped :=
       length (json_data ≫= posts_of) - length (cleaned_of json_data);
     duplicates_removed :=
       Some (length (cleaned_of json_data) - length (dataset_of json_data));
     dataset := dataset_of json_data |}.

Definition finish (writable : bool) (r : report) : outcome :=
  if writable then Complete r else SaveFailed r.

(** A subreddit that is a string. *)
Definition named (c : cleaned_post) : Prop :=
  match subreddit c with
  | VStr _ => True
  | _ => False
  end.

(** A key that is a string. *)
Definition is_name (k : key) : Prop :=
  match k with
  | KStr _ => True
  | _ => False
  end.

#[global] Instance hashable_dec (v : value) : Decision (hashable v).
Proof.
  destruct v; first [left; by eexists | right; by intros [? ?]].
Defined.

#[global] Instance named_dec (c : cleaned_post) : Decision (named c).
Proof. unfold named. destruct (subreddit c); apply _. Defined.

#[global] Instance is_object_dec (v : value) : Decision (is_object v).
Proof. destruct v; apply _. Defined.

#[global] Instance well_shaped_dec (v : value) : Decision (well_shaped v).
Proof. unfold well_shaped. destruct (document_posts v); apply _. Defined.

(** ** The characters of a match *)

(** A continuation that keeps the text of group 1 and the rest of the text
    within the characters of [T]. *)
Definition enclosed_cont (T : str) (k : cont) : Prop :=
  ∀ g s x, default [] g ++ s ⊆ T → k g s = Some x →
           default [] x.1 ++ x.2 ⊆ T.

(** ** Texts on which the normaliser has nothing to do *)

(** The patterns that [clean_text] removes or unwraps, in their order. *)
Definition markup : list regex :=
  [Pat.http_url; Pat.www_url; Pat.bold; Pat.italic; Pat.strike].

(** The pattern [r] matches at no position of [s]. *)
Fixpoint no_match (r : regex) (s : str) : bool :=
  match match_at r s with
  | Some _ => false
  | None =>
      match s with
      | [] => true
      | _ :: s' => no_match r s'
      end
  end.

(** None of the patterns matches anywhere in [y]. *)
Definition settled (y : str) : bool := forallb (λ r, no_match r y) markup.

(* ===================================================================== *)
(** * Characters and the matcher *)
(* ===================================================================== *)

#[local] Arguments Re.sub : simpl never.

(** ** Characters *)

(** A decidable property of characters holds of all of them when it holds
    of each of the 256. *)
Lemma forall_chars (P : ascii → bool) :
  forallb P all_chars = true → ∀ c, P c = true.
Proof.
  intros H c. rewrite forallb_forall in H. apply H.
  unfold all_chars. rewrite <- (ascii_nat_embedding c).
  apply in_map, in_seq. pose proof (nat_ascii_bounded c). lia.
Qed.

Ltac by_chars c :=
  revert c;
  match goal with
  | |- ∀ c : ascii, @?P c =>
      let H := fresh in
      intros c;
      pose proof (forall_chars (λ c, bool_decide (P c))) as H;
      cbv beta in H;
      eapply bool_decide_eq_true_1; apply H; vm_compute; reflexivity
  end.

Lemma lower_not_word c : Char.is_word c = false → Char.lower c = c.
Proof. by_chars c. Qed.

Lemma lower_word c :
  Char.is_word c = true → Char.is_word (Char.lower c) = true.
Proof. by_chars c. Qed.

Lemma word_not_space c : Char.is_word c = true → Char.is_space c = false.
Proof. by_chars c. Qed.

(** ** Matching and substitution *)

Lemma sub_from_skip r repl n : ∀ s,
  n ≤ length s → sub_from r repl n s = sub_from r repl 0 (drop n s).
Proof.
  induction n as [|n IH]; intros s Hn; [done|].
  destruct s as [|c s]; simpl in *; [lia|].
  apply IH. lia.
Qed.

Lemma match_at_le r s n g : match_at r s = Some (n, g) → n ≤ length s.
Proof.
  unfold match_at. destruct (rmatch r None s accept) as [[g' s']|]; [|done].
  intros [= <- _]. lia.
Qed.

(** One step of [re.sub]. *)
Lemma sub_cons r repl c s :
  Re.sub r repl (c :: s) =
    match match_at r (c :: s) with
    | Some (O, g) => expand repl g ++ c :: Re.sub r repl s
    | Some (S n, g) => expand repl g ++ Re.sub r repl (drop n s)
    | None => c :: Re.sub r repl s
    end.
Proof.
  unfold Re.sub. simpl.
  destruct (match_at r (c :: s)) as [[[|n] g]|] eqn:Hm; try done.
  apply match_at_le in Hm. simpl in Hm.
  rewrite sub_from_skip by lia. done.
Qed.

Lemma sub_nil r repl :
  match_at r [] = None → Re.sub r repl [] = [].
Proof. unfold Re.sub. simpl. by intros ->. Qed.

(** A pattern that matches nowhere leaves the text as it is. *)
Lemma sub_no_match r repl s :
  (∀ t, t `suffix_of` s → match_at r t = None) → Re.sub r repl s = s.
Proof.
  induction s as [|c s IH]; intros Hno.
  - apply sub_nil, Hno. done.
  - rewrite sub_cons, (Hno (c :: s)) by done.
    f_equal. apply IH. intros t Ht. apply Hno. by apply suffix_cons_r.
Qed.

Lemma rmatch_Lits l r g : ∀ s k,
  rmatch (Lits l r) g s k =
    if starts_with l s then rmatch r g (drop (length l) s) k else None.
Proof.
  induction l as [|a l IH]; intros s k; simpl; [done|].
  destruct s as [|b s]; [done|]. simpl.
  destruct (Ascii.eqb a b); simpl; [apply IH|done].
Qed.

(** A repetition whose body is a one-character class, before a
    continuation that always succeeds, takes the whole run. *)
Lemma star_loop_total (body : caps → str → cont → option mres)
    (p : ascii → bool) (k : cont) :
  (∀ g s, is_Some (k g s)) →
  (∀ g k', body g [] k' = None) →
  (∀ g c s k', is_Some (k' g s) →
               body g (c :: s) k' = if p c then k' g s else None) →
  ∀ s n g, length s ≤ n → star_loop body k n g s = k g (drop_run p s).
Proof.
  intros Hk Hnil Hcons. induction s as [|c s IH]; intros n g Hn.
  - destruct n; simpl; [done|]. by rewrite Hnil.
  - destruct n as [|n]; simpl in Hn; [lia|]. simpl.
    rewrite Hcons.
    + destruct (p c); [|done].
      assert ((length s <? S (length s)) = true) as -> by (apply Nat.ltb_lt; lia).
      rewrite IH by lia. destruct (Hk g (drop_run p s)) as [x ->]. done.
    + simpl. assert ((length s <? S (length s)) = true) as -> by (apply Nat.ltb_lt; lia).
      rewrite IH by lia. apply Hk.
Qed.

(** A repetition of a one-character class before any continuation. *)
Lemma star_loop_class (p : ascii → bool) (k : cont) : ∀ (s : str) n g,
  length s ≤ n → star_loop (rmatch (Chr p)) k n g s = star_class p g s k.
Proof.
  induction s as [|c s IH]; intros n g Hn.
  - destruct n; done.
  - destruct n as [|n]; simpl in Hn; [lia|]. simpl.
    destruct (p c); [|done].
    assert ((length s <? S (length s)) = true) as -> by (apply Nat.ltb_lt; lia).
    rewrite IH by lia. done.
Qed.

Lemma drop_run_length p s : length (drop_run p s) ≤ length s.
Proof. induction s as [|c s IH]; simpl; [done|]. destruct (p c); simpl; lia. Qed.

Lemma match_at_plus_class (p : ascii → bool) (s : str) :
  match_at (Plus (Chr p)) s =
    match s with
    | c :: s' => if p c then Some (S (length s' - length (drop_run p s')), None)
                 else None
    | [] => None
    end.
Proof.
  unfold match_at, Plus. simpl. destruct s as [|c s]; [done|].
  destruct (p c); [|done].
  rewrite (star_loop_total _ p accept); try done.
  simpl. pose proof (drop_run_length p s). f_equal. f_equal. lia.
Qed.

Lemma match_at_class (p : ascii → bool) (s : str) :
  match_at (Chr p) s =
    match s with
    | c :: _ => if p c then Some (1, None) else None
    | [] => None
    end.
Proof.
  unfold match_at. simpl. destruct s as [|c s]; [done|].
  destruct (p c); [|done]. simpl. f_equal. f_equal. lia.
Qed.

(** Deleting the matches of a one-character class keeps the others. *)
Lemma sub_class_delete (p : ascii → bool) (s : str) :
  Re.sub (Chr p) [] s = keep (λ c, negb (p c)) s.
Proof.
  induction s as [|c s IH].
  - apply sub_nil. apply match_at_class.
  - rewrite sub_cons, match_at_class. simpl.
    destruct (p c); simpl; by rewrite ?drop_0, IH.
Qed.

Lemma sub_from_run (p : ascii → bool) : ∀ s : str,
  sub_from (Plus (Chr p)) [RLit [Char.SP]] 0 s = collapse p false s ∧
  sub_from (Plus (Chr p)) [RLit [Char.SP]] (length s - length (drop_run p s)) s
    = collapse p true s.
Proof.
  induction s as [|c s [IH0 IH1]].
  - done.
  - assert (H0 : sub_from (Plus (Chr p)) [RLit [Char.SP]] 0 (c :: s)
                 = collapse p false (c :: s)).
    { cbn [sub_from]. rewrite match_at_plus_class. cbn [collapse].
      destruct (p c); [|by rewrite IH0]. simpl. by rewrite IH1. }
    split; [done|]. cbn [drop_run collapse]. destruct (p c) eqn:Hp.
    + pose proof (drop_run_length p s).
      replace (length (c :: s) - length (drop_run p s))
        with (S (length s - length (drop_run p s))) by (simpl; lia).
      simpl. done.
    + rewrite Nat.sub_diag. rewrite H0. simpl. by rewrite Hp.
Qed.

(** Replacing the runs of a class by one space. *)
Lemma sub_class_runs (p : ascii → bool) (s : str) :
  Re.sub (Plus (Chr p)) [RLit [Char.SP]] s = collapse p false s.
Proof. apply sub_from_run. Qed.

(** ** The matcher returns a suffix *)

Lemma star_loop_suffix (body : caps → str → cont → option mres) (k : cont) :
  (∀ k', suffix_cont k' → suffix_cont (λ g s, body g s k')) →
  suffix_cont k →
  ∀ n, suffix_cont (star_loop body k n).
Proof.
  intros Hbody Hk. induction n as [|n IH]; intros g s x; simpl; [apply Hk|].
  destruct (body g s _) as [y|] eqn:Hy.
  - intros [= <-]. revert Hy. apply (Hbody (λ g' s', if length s' <? length s
                                                      then star_loop body k n g' s'
                                                      else None)).
    intros g' s' z. destruct (length s' <? length s); [apply IH|done].
  - apply Hk.
Qed.

Lemma rmatch_suffix r :
  ∀ k, suffix_cont k → suffix_cont (λ g s, rmatch r g s k).
Proof.
  induction r as [|p|a IHa b IHb|a IHa b IHb|a IHa|a IHa]; intros k Hk g s x; simpl.
  - apply Hk.
  - destruct s as [|c s]; [done|]. destruct (p c); [|done].
    intros H. apply suffix_cons_r. by apply (Hk g).
  - apply (IHa (λ g' s', rmatch b g' s' k)). by apply IHb.
  - destruct (rmatch a g s k) as [y|] eqn:Hy.
    + intros [= <-]. revert Hy. by apply IHa.
    + by apply IHb.
  - by apply star_loop_suffix.
  - apply (IHa (λ _ s', k (Some (take (length s - length s') s)) s')).
    intros g' s' y. apply Hk.
Qed.

Lemma accept_suffix : suffix_cont accept.
Proof. intros g s x [= <-]. done. Qed.

(** A match at the head of [s]: its length and the text behind it. *)
Lemma match_at_rest r s :
  match_at r s =
    match rmatch r None s accept with
    | Some (g, rest) => Some (length s - length rest, g)
    | None => None
    end ∧
  ∀ g rest, rmatch r None s accept = Some (g, rest) →
            drop (length s - length rest) s = rest ∧ length rest ≤ length s.
Proof.
  split; [done|]. intros g rest H.
  apply (rmatch_suffix r accept accept_suffix) in H as [k ->]. simpl.
  rewrite length_app. replace (length k + length rest - length rest) with (length k) by lia.
  split; [apply drop_app_length|lia].
Qed.

(* ===================================================================== *)
(** * The text normaliser *)
(* ===================================================================== *)

(** ** Trimming, lower case and containment *)

Lemma lower_space c : Char.is_space (Char.lower c) = Char.is_space c.
Proof. by_chars c. Qed.

Lemma py_lower_lstrip (s : str) : py_lower (lstrip s) = lstrip (py_lower s).
Proof.
  unfold py_lower. induction s as [|c s IH]; simpl; [done|].
  rewrite lower_space. by destruct (Char.is_space c).
Qed.

Lemma py_lower_rstrip (s : str) : py_lower (rstrip s) = rstrip (py_lower s).
Proof.
  unfold py_lower. induction s as [|c s IH]; simpl; [done|].
  rewrite <- IH, lower_space.
  destruct (rstrip s); simpl; [by destruct (Char.is_space c)|done].
Qed.

Lemma py_lower_strip (s : str) : py_lower (py_strip s) = py_strip (py_lower s).
Proof. unfold py_strip. by rewrite py_lower_rstrip, py_lower_lstrip. Qed.

Lemma eqb_space_solid a c :
  Char.is_space a = false → Char.is_space c = true → Ascii.eqb a c = false.
Proof.
  intros Ha Hc. destruct (Ascii.eqb a c) eqn:He; [|done].
  apply Ascii.eqb_eq in He. congruence.
Qed.

Lemma contains_lstrip (m s : str) :
  solid_start m = true → contains m (lstrip s) = contains m s.
Proof.
  intros Hm. destruct m as [|a m]; [done|]. simpl in Hm.
  apply negb_true_iff in Hm.
  induction s as [|c s IH]; [done|].
  cbn [lstrip]. destruct (Char.is_space c) eqn:Hc; [|done].
  rewrite IH. cbn [contains starts_with].
  by rewrite (eqb_space_solid a c).
Qed.

Lemma solid_end_tail a (m : str) :
  solid_end (a :: m) = true → solid_end m = true.
Proof. destruct m; done. Qed.

Lemma starts_with_rstrip (s : str) : ∀ m : str,
  solid_end m = true → starts_with m (rstrip s) = starts_with m s.
Proof.
  induction s as [|c s IH]; intros m Hm; [done|].
  destruct m as [|a m]; [by destruct (rstrip (c :: s))|].
  pose proof (IH m (solid_end_tail _ _ Hm)) as IHm.
  cbn [rstrip]. destruct (rstrip s) as [|e r] eqn:Hr.
  - destruct (Char.is_space c) eqn:Hc; cbn [starts_with].
    + destruct m as [|b m].
      * simpl in Hm. apply negb_true_iff in Hm.
        by rewrite (eqb_space_solid a c).
      * rewrite <- IHm. simpl. by rewrite andb_false_r.
    + by rewrite <- IHm.
  - cbn [starts_with]. by rewrite IHm.
Qed.

Lemma contains_rstrip (m s : str) :
  m ≠ [] → solid_end m = true → contains m (rstrip s) = contains m s.
Proof.
  intros Hne Hm. induction s as [|c s IH]; [done|].
  cbn [contains]. rewrite <- (starts_with_rstrip (c :: s)), <- IH by done.
  cbn [rstrip]. destruct (rstrip s) as [|e r] eqn:Hr.
  - destruct m as [|a m]; [done|].
    destruct (Char.is_space c); simpl; by rewrite ?orb_false_r.
  - done.
Qed.

Lemma contains_strip (m s : str) :
  solid_start m = true → solid_end m = true →
  contains m (py_strip s) = contains m s.
Proof.
  intros H1 H2. unfold py_strip.
  rewrite contains_rstrip, contains_lstrip; try done.
  by destruct m.
Qed.

(** The markers begin and end with a character that is no white space, so
    trimming the body does not change which markers it contains. *)
Lemma has_marker_strip (b : str) : has_marker (py_strip b) = has_marker b.
Proof.
  unfold has_marker.
  assert (Hok : Forall (λ m, solid_start m = true ∧ solid_end m = true)
                       DELETED_MARKERS) by (repeat constructor).
  induction Hok as [|m ms [H1 H2] _ IH]; simpl; [done|].
  by rewrite IH, py_lower_strip, contains_strip.
Qed.

(** ** The URL patterns *)

Lemma starts_with_prefix (l s : str) : starts_with l s = true ↔ l `prefix_of` s.
Proof.
  revert s. induction l as [|a l IH]; intros s; simpl.
  - split; [intros _; apply prefix_nil|done].
  - destruct s as [|b s]; simpl.
    + split; [done|]. intros [k Hk]. done.
    + rewrite andb_true_iff, Ascii.eqb_eq, IH. split.
      * intros [-> H]. by apply prefix_cons.
      * intros [k [= -> ->]]. split; [done|]. by exists k.
Qed.

Lemma starts_with_app (a b s : str) :
  starts_with (a ++ b) s = starts_with a s && starts_with b (drop (length a) s).
Proof.
  revert s. induction a as [|x a IH]; intros s; simpl; [done|].
  destruct s as [|y s]; simpl; [done|].
  rewrite IH. by rewrite andb_assoc.
Qed.

Lemma url_class_percent c : Ascii.eqb "%" c = true → url_class c = true.
Proof. by_chars c. Qed.

(** Under a continuation that succeeds, the alternative of the URL
    patterns is the class [url_class]. *)
Lemma rmatch_url_char g c s (k : cont) :
  is_Some (k g s) →
  rmatch Pat.url_char g (c :: s) k = if url_class c then k g s else None.
Proof.
  intros [x Hx]. unfold Pat.url_char, url_class. cbn [rmatch Lit].
  pose proof (url_class_percent c) as Hpc. unfold url_class in Hpc.
  revert Hpc. rewrite Hx.
  generalize (Char.is_lower_az c) (Char.is_upper_az c) (Char.is_digit c)
    (Char.between 36 95 c) (Pat.one_of (txt "@.&+") c)
    (Pat.one_of (txt "!*\(\),") c) (Ascii.eqb "%" c).
  intros [] [] [] [] [] [] []; simpl; intros Hpc; try done.
  by specialize (Hpc eq_refl).
Qed.

Lemma drop_run_head (s : str) : head_not_url (drop_run url_class s).
Proof.
  induction s as [|c s IH]; simpl; [done|].
  destruct (url_class c) eqn:Hc; [done|]. simpl. done.
Qed.

Lemma rmatch_url_tail g (s : str) :
  rmatch (Plus Pat.url_char) g s accept =
    match s with
    | c :: t => if url_class c then Some (g, drop_run url_class t) else None
    | [] => None
    end.
Proof.
  unfold Plus. cbn [rmatch]. destruct s as [|c t]; [done|].
  assert (Hstar : ∀ g' s', star_loop (rmatch Pat.url_char) accept (length s') g' s'
                           = Some (g', drop_run url_class s')).
  { intros g' s'. rewrite (star_loop_total _ url_class accept);
      [done| |done| |done].
    - intros. unfold accept. eauto.
    - intros. by apply rmatch_url_char. }
  rewrite rmatch_url_char by (rewrite Hstar; eauto).
  by rewrite Hstar.
Qed.
Lemma rmatch_lits_tail (l : str) g (s : str) :
  rmatch (Lits l (Plus Pat.url_char)) g s accept =
    if starts_with l s
    then match drop (length l) s with
         | c :: t => if url_class c then Some (g, drop_run url_class t) else None
         | [] => None
         end
    else None.
Proof. by rewrite rmatch_Lits, rmatch_url_tail. Qed.

Lemma rmatch_www (s : str) :
  rmatch Pat.www_url None s accept =
    (λ rest, (None, rest)) <$> url_rest www_lits s.
Proof.
  unfold Pat.www_url, www_lits. rewrite rmatch_lits_tail.
  cbn [url_rest]. destruct (starts_with (txt "www.") s); [|done].
  destruct (drop (length (txt "www.")) s) as [|c t]; [done|].
  by destruct (url_class c).
Qed.

Lemma rmatch_http (s : str) :
  rmatch Pat.http_url None s accept =
    (λ rest, (None, rest)) <$> url_rest http_lits s.
Proof.
  unfold Pat.http_url, http_lits. rewrite rmatch_Lits. cbn [url_rest].
  change (txt "https://") with (txt "http" ++ txt "s://").
  change (txt "http://") with (txt "http" ++ txt "://").
  rewrite !starts_with_app, !length_app, <- !drop_drop.
  destruct (starts_with (txt "http") s); [|done].
  generalize (drop (length (txt "http")) s). clear s. intros t.
  cbn [andb Opt rmatch].
  destruct t as [|c t]; [reflexivity|].
  rewrite !rmatch_lits_tail.
  change (txt "s://") with ("s"%char :: txt "://").
  change (starts_with ("s"%char :: txt "://") (c :: t))
    with (Ascii.eqb "s" c && starts_with (txt "://") t).
  change (drop (length ("s"%char :: txt "://")) (c :: t))
    with (drop (length (txt "://")) t).
  change (Pat.one_of (txt "s") c) with (Ascii.eqb c "s" || false).
  rewrite orb_false_r, (Ascii.eqb_sym c "s").
  destruct (Ascii.eqb "s" c) eqn:Hs.
  - apply Ascii.eqb_eq in Hs. subst c.
    change (starts_with (txt "://") ("s"%char :: t)) with false.
    cbn [andb].
    destruct (starts_with (txt "://") t); [|done].
    destruct (drop (length (txt "://")) t) as [|d u]; [done|].
    by destruct (url_class d).
  - cbn [andb]. destruct (starts_with (txt "://") (c :: t)); [|done].
    destruct (drop (length (txt "://")) (c :: t)) as [|d u]; [done|].
    by destruct (url_class d).
Qed.
Lemma url_rest_shorter lits (s rest : str) :
  url_rest lits s = Some rest → length rest < length s ∧ head_not_url rest.
Proof.
  induction lits as [|l lits IH]; simpl; [done|].
  destruct (starts_with l s); [|done].
  destruct (drop (length l) s) as [|c t] eqn:Hd; [done|].
  destruct (url_class c); [|done].
  intros [= <-]. split; [|apply drop_run_head].
  pose proof (drop_run_length url_class t).
  assert (length (drop (length l) s) = S (length t)) as Hlen by by rewrite Hd.
  rewrite length_drop in Hlen. lia.
Qed.

Lemma url_head_iff lits (s : str) :
  url_head lits s = true ↔
  ∃ l c z, l ∈ lits ∧ url_class c = true ∧ s = l ++ c :: z.
Proof.
  unfold url_head. induction lits as [|l lits IH]; simpl.
  - split; [done|]. intros (l & c & z & Hl & _). by apply elem_of_nil in Hl.
  - assert (Hrest : (∃ l0 c z, l0 ∈ lits ∧ url_class c = true ∧ s = l0 ++ c :: z) →
                    ∃ l0 c z, l0 ∈ l :: lits ∧ url_class c = true ∧ s = l0 ++ c :: z).
    { intros (l0 & c & z & H0 & Hc & ->). exists l0, c, z.
      split; [by apply list_elem_of_further|done]. }
    assert (Hback : (∃ l0 c z, l0 ∈ l :: lits ∧ url_class c = true ∧ s = l0 ++ c :: z) →
                    (∃ c z, url_class c = true ∧ s = l ++ c :: z) ∨
                    (∃ l0 c z, l0 ∈ lits ∧ url_class c = true ∧ s = l0 ++ c :: z)).
    { intros (l0 & c & z & H0 & Hc & ->).
      apply elem_of_cons in H0 as [-> | H0]; [left|right]; eauto 10. }
    destruct (starts_with l s) eqn:Hl.
    + apply starts_with_prefix in Hl as [k ->]. rewrite drop_app_length.
      destruct k as [|c t].
      * rewrite IH. split; [done|]. intros [(c & z & _ & Heq)|H]%Hback; [|done].
        apply (f_equal length) in Heq. rewrite !length_app in Heq. simpl in Heq. lia.
      * destruct (url_class c) eqn:Hc.
        -- split; [|done]. intros _. exists l, c, t.
           split; [apply list_elem_of_here|done].
        -- rewrite IH. split; [done|].
           intros [(c' & z & Hc' & Heq)|H]%Hback; [|done].
           apply app_inv_head in Heq. congruence.
    + rewrite IH. split; [done|]. intros [(c & z & _ & ->)|H]%Hback; [|done].
      assert (starts_with l (l ++ c :: z) = true) as Hp
        by (apply starts_with_prefix; by eexists).
      congruence.
Qed.

Lemma rewritten_head (s o : str) :
  rewritten s o → ∀ c o', o = c :: o' → url_class c = true →
  ∃ s', s = c :: s' ∧ rewritten s' o'.
Proof.
  induction 1 as [|d s o H IH|m s o H IH Hh|m p s o H IH Hp]; intros c o' Ho Hc.
  - done.
  - injection Ho as -> ->. eauto.
  - destruct (IH c o' Ho Hc) as (s' & -> & Hs'). simpl in Hh. congruence.
  - injection Ho as -> ->. exfalso. destruct Hp as [-> | ->]; by vm_compute in Hc.
Qed.

Lemma rewritten_prefix (w : str) : ∀ s o z,
  rewritten s o → Forall (λ c, url_class c = true) w → o = w ++ z →
  ∃ z', s = w ++ z'.
Proof.
  induction w as [|c w IH]; intros s o z Hrw Hw Ho; [by exists s|].
  apply Forall_cons in Hw as [Hc Hw]. simpl in Ho.
  destruct (rewritten_head s o Hrw c (w ++ z) Ho Hc) as (s' & -> & Hs').
  destruct (IH s' (w ++ z) z Hs' Hw eq_refl) as [z' ->]. by exists z'.
Qed.

Lemma rewritten_url_head lits (s o : str) :
  lits_ok lits → rewritten s o →
  url_head lits o = true → url_head lits s = true.
Proof.
  intros Hok Hrw. rewrite !url_head_iff. intros (l & c & z & Hl & Hc & Ho).
  destruct (rewritten_prefix (l ++ [c]) s o z Hrw) as [z' Hz'].
  - apply Forall_app. split; [|by repeat constructor].
    unfold lits_ok in Hok. rewrite Forall_forall in Hok. by apply Hok.
  - by rewrite <- (assoc_L (++)).
  - exists l, c, z'. rewrite <- (assoc_L (++)) in Hz'. done.
Qed.

Lemma url_free_app lits (m s : str) :
  url_free lits (m ++ s) = true → url_free lits s = true.
Proof.
  induction m as [|c m IH]; simpl; [done|].
  intros [_ H]%andb_true_iff. by apply IH.
Qed.

Lemma url_head_nil lits : url_head lits [] = false.
Proof.
  destruct (url_head lits []) eqn:H; [|done].
  apply url_head_iff in H as (l & c & z & _ & _ & Heq).
  by destruct l.
Qed.

Lemma rewritten_url_free lits (s o : str) :
  lits_ok lits → rewritten s o →
  url_free lits s = true → url_free lits o = true.
Proof.
  intros Hok. induction 1 as [|d s o H IH|m s o H IH Hh|m p s o H IH Hp]; intros Hs.
  - done.
  - simpl in *. apply andb_true_iff in Hs as [Hd Hs].
    apply andb_true_iff. split; [|by apply IH].
    apply negb_true_iff. apply negb_true_iff in Hd.
    destruct (url_head lits (d :: o)) eqn:Ho; [|done].
    rewrite (rewritten_url_head lits (d :: s) (d :: o)) in Hd; try done.
    by constructor.
  - apply IH. by apply url_free_app in Hs.
  - simpl. apply andb_true_iff. split; [|by apply IH, (url_free_app _ m)].
    apply negb_true_iff. destruct (url_head lits (p :: o)) eqn:Ho; [|done].
    apply url_head_iff in Ho as (l & c & z & Hl & Hc & Heq).
    unfold lits_ok in Hok. rewrite Forall_forall in Hok.
    specialize (Hok l Hl).
    assert (url_class p = true) as Hpu.
    { destruct l as [|a l]; injection Heq as -> _; [done|].
      by apply Forall_cons in Hok as [? _]. }
    destruct Hp as [-> | ->]; by vm_compute in Hpu.
Qed.

Lemma rewritten_plain (s o : str) :
  rewritten s o →
  Forall (λ c, plain c = true) s → Forall (λ c, plain c = true) o.
Proof.
  induction 1 as [|d s o H IH|m s o H IH Hh|m p s o H IH Hp]; intros Hs.
  - done.
  - apply Forall_cons in Hs as [? ?]. constructor; auto.
  - apply Forall_app in Hs as [_ ?]. auto.
  - apply Forall_app in Hs as [_ ?]. constructor; [|auto].
    by destruct Hp as [-> | ->].
Qed.

(** ** Substitutions as rewritings *)

(** A substitution whose matches are not empty and are either deleted in
    front of a character that is no URL character, or replaced by one
    space or line feed, rewrites the text. *)
Lemma sub_rewritten r repl :
  match_at r [] = None →
  (∀ t n g, match_at r t = Some (n, g) →
            n ≠ 0 ∧
            ((expand repl g = [] ∧ head_not_url (drop n t)) ∨
             (∃ p, expand repl g = [p] ∧ (p = Char.SP ∨ p = Char.LF)))) →
  ∀ s, rewritten s (Re.sub r repl s).
Proof.
  intros Hnil Hm s.
  induction s as [s IH] using (induction_ltof1 _ (@length ascii)).
  unfold ltof in IH. destruct s as [|c s].
  - rewrite sub_nil by done. constructor.
  - rewrite sub_cons. destruct (match_at r (c :: s)) as [[n g]|] eqn:Hmatch.
    + destruct (Hm _ _ _ Hmatch) as [Hn Hcase].
      destruct n as [|n]; [done|].
      assert (Hsplit : c :: s = (c :: take n s) ++ drop n s)
        by (simpl; by rewrite take_drop).
      assert (Hlen : length (drop n s) < length (c :: s))
        by (rewrite length_drop; simpl; lia).
      rewrite Hsplit at 1.
      destruct Hcase as [[-> Hhead]|(p & -> & Hp)]; simpl.
      * apply (rw_delete (c :: take n s)); [by apply IH|done].
      * apply (rw_replace (c :: take n s)); [by apply IH|done].
    + constructor. apply IH. simpl. lia.
Qed.

Lemma url_rest_nil lits : url_rest lits [] = None.
Proof.
  pose proof (url_head_nil lits) as H. unfold url_head in H.
  by destruct (url_rest lits []).
Qed.

(** The two URL patterns share their shape: a pattern [r] that matches
    one of the literal heads [lits] and then a run of URL characters. *)
Section UrlPattern.

Variables (r : regex) (lits : list str).

Hypothesis lits_url : lits_ok lits.

Hypothesis r_spec :
  ∀ s, rmatch r None s accept = (λ rest, (None, rest)) <$> url_rest lits s.

Lemma match_at_url (s : str) :
  match_at r s = (λ rest, (length s - length rest, None)) <$> url_rest lits s.
Proof. unfold match_at. rewrite r_spec. by destruct (url_rest lits s). Qed.

Lemma sub_url_rewritten (s : str) : rewritten s (Re.sub r [] s).
Proof.
  apply sub_rewritten.
  - by rewrite match_at_url, url_rest_nil.
  - intros t n g Hm.
    pose proof (proj2 (match_at_rest r t)) as Hrest.
    rewrite match_at_url in Hm. rewrite r_spec in Hrest.
    destruct (url_rest lits t) as [rest|] eqn:Hu; [|done].
    injection Hm as <- <-.
    destruct (url_rest_shorter _ _ _ Hu) as [Hlt Hhead].
    destruct (Hrest None rest eq_refl) as [-> _].
    split; [lia|]. by left.
Qed.

(** After the substitution no URL of the pattern is left. *)
Lemma sub_url_free (s : str) : url_free lits (Re.sub r [] s) = true.
Proof.
  induction s as [s IH] using (induction_ltof1 _ (@length ascii)).
  unfold ltof in IH. destruct s as [|c s].
  - rewrite sub_nil; [done|]. by rewrite match_at_url, url_rest_nil.
  - rewrite sub_cons, match_at_url.
    destruct (url_rest lits (c :: s)) as [rest|] eqn:Hu; simpl.
    + destruct (url_rest_shorter _ _ _ Hu) as [Hlt _]. simpl in Hlt.
      destruct (S (length s) - length rest) as [|n] eqn:Hn; [lia|].
      apply IH. rewrite length_drop. simpl. lia.
    + rewrite IH by (simpl; lia). rewrite andb_true_r.
      apply negb_true_iff.
      destruct (url_head lits (c :: Re.sub r [] s)) eqn:Hh; [|done].
      apply (rewritten_url_head lits (c :: s)) in Hh; [|done|].
      * unfold url_head in Hh. by rewrite Hu in Hh.
      * constructor. apply sub_url_rewritten.
Qed.

(** A URL-free text has no match of the pattern. *)
Lemma url_free_no_match (s t : str) :
  url_free lits s = true → t `suffix_of` s → match_at r t = None.
Proof.
  intros Hs [k ->]. apply url_free_app in Hs.
  rewrite match_at_url.
  destruct t as [|c t]; [by rewrite url_rest_nil|].
  simpl in Hs. apply andb_true_iff in Hs as [Hh _].
  apply negb_true_iff in Hh. unfold url_head in Hh.
  by destruct (url_rest lits (c :: t)).
Qed.

End UrlPattern.

Lemma http_lits_ok : lits_ok http_lits.
Proof. repeat constructor. Qed.

Lemma www_lits_ok : lits_ok www_lits.
Proof. repeat constructor. Qed.

(** ** The emphasis patterns on plain text *)

Lemma match_at_lits_other a (l : str) r (s : str) :
  match s with [] => True | c :: _ => Ascii.eqb a c = false end →
  match_at (Lits (a :: l) r) s = None.
Proof.
  intros H. unfold match_at. rewrite rmatch_Lits.
  destruct s as [|c s]; [done|]. simpl. by rewrite H.
Qed.

(** A pattern that begins with a character which the text does not
    contain leaves the text as it is. *)
Lemma sub_lits_absent a (l : str) r repl (s : str) :
  Forall (λ c, Ascii.eqb a c = false) s →
  Re.sub (Lits (a :: l) r) repl s = s.
Proof.
  intros Hs. apply sub_no_match. intros t [k ->].
  apply Forall_app in Hs as [_ Ht].
  apply match_at_lits_other. destruct Ht; done.
Qed.

Lemma plain_no_star (s : str) :
  Forall (λ c, plain c = true) s → Forall (λ c, Ascii.eqb "*" c = false) s.
Proof.
  intros H. eapply Forall_impl; [exact H|]. intros c. unfold plain.
  rewrite (Ascii.eqb_sym c "*"). by destruct (Ascii.eqb "*" c).
Qed.

Lemma plain_no_tilde (s : str) :
  Forall (λ c, plain c = true) s → Forall (λ c, Ascii.eqb "~" c = false) s.
Proof.
  intros H. eapply Forall_impl; [exact H|]. intros c. unfold plain.
  rewrite (Ascii.eqb_sym c "~"). destruct (Ascii.eqb "~" c); [|done].
  by rewrite andb_false_r.
Qed.

(** ** The pattern of the blank lines *)

Lemma rmatch_blank_lines (s : str) :
  rmatch Pat.blank_lines None s accept =
    match s with
    | c :: t => if Ascii.eqb Char.LF c
                then star_class Char.is_space None t then_lf
                else None
    | [] => None
    end.
Proof.
  unfold Pat.blank_lines. cbn [rmatch Lit]. destruct s as [|c t]; [done|].
  destruct (Ascii.eqb Char.LF c); [|done].
  exact (star_loop_class Char.is_space then_lf t (length t) None (le_n _)).
Qed.

Lemma nl_ahead_cons c (s : str) :
  nl_ahead (c :: s) =
    Ascii.eqb Char.LF c || (Char.is_space c && nl_ahead s).
Proof.
  cbn [nl_ahead]. rewrite (Ascii.eqb_sym c Char.LF).
  destruct (Ascii.eqb Char.LF c); [done|]. by destruct (Char.is_space c).
Qed.

Lemma lf_is_space c : Ascii.eqb Char.LF c = true → Char.is_space c = true.
Proof. by_chars c. Qed.

Lemma star_lf_none g (s : str) :
  star_class Char.is_space g s then_lf = None ↔ nl_ahead s = false.
Proof.
  induction s as [|c s IH]; [done|].
  rewrite nl_ahead_cons. cbn [star_class then_lf].
  pose proof (lf_is_space c) as Hlf.
  destruct (Char.is_space c).
  - destruct (star_class Char.is_space g s then_lf) as [x|].
    + destruct (nl_ahead s); [|by destruct IH as [_ IH]; discriminate IH].
      by rewrite orb_true_r.
    + destruct IH as [IH _]. rewrite IH by done. rewrite orb_false_r.
      by destruct (Ascii.eqb Char.LF c).
  - destruct (Ascii.eqb Char.LF c); [by specialize (Hlf eq_refl)|done].
Qed.

Lemma star_lf_some g (s : str) g' (rest : str) :
  star_class Char.is_space g s then_lf = Some (g', rest) →
  nl_ahead rest = false ∧ length rest < length s.
Proof.
  induction s as [|c s IH]; [done|].
  cbn [star_class then_lf].
  assert (Hhere : (if Ascii.eqb Char.LF c then Some (g, s) else None)
                  = Some (g', rest) →
                  star_class Char.is_space g s then_lf = None →
                  nl_ahead rest = false ∧ length rest < length (c :: s)).
  { destruct (Ascii.eqb Char.LF c); [|done]. intros [= <- <-] Hnone.
    split; [by apply (star_lf_none g)|simpl; lia]. }
  destruct (Char.is_space c) eqn:Hsp.
  - destruct (star_class Char.is_space g s then_lf) as [x|] eqn:Hx.
    + intros [= ->]. destruct (IH eq_refl). split; [done|simpl; lia].
    + intros H. by apply Hhere.
  - pose proof (lf_is_space c) as Hlf.
    destruct (Ascii.eqb Char.LF c); [|done].
    specialize (Hlf eq_refl). congruence.
Qed.
Lemma match_at_blank_lines_none c (t : str) :
  match_at Pat.blank_lines (c :: t) = None ↔
  Ascii.eqb Char.LF c && nl_ahead t = false.
Proof.
  unfold match_at. rewrite rmatch_blank_lines.
  destruct (Ascii.eqb Char.LF c); simpl; [|done].
  rewrite <- (star_lf_none None).
  by destruct (star_class Char.is_space None t then_lf) as [[g rest]|].
Qed.

Lemma match_at_blank_lines_some (s : str) n g :
  match_at Pat.blank_lines s = Some (n, g) →
  ∃ c t n', s = c :: t ∧ n = S n' ∧ Ascii.eqb Char.LF c = true ∧
            nl_ahead (drop n' t) = false.
Proof.
  intros Hm. pose proof (proj2 (match_at_rest Pat.blank_lines s)) as Hrest.
  unfold match_at in Hm. rewrite rmatch_blank_lines in Hm, Hrest.
  destruct s as [|c t]; [done|]. exists c, t.
  destruct (Ascii.eqb Char.LF c); [|done].
  destruct (star_class Char.is_space None t then_lf) as [[g' rest]|] eqn:Hs;
    [|done].
  injection Hm as <- <-.
  destruct (star_lf_some _ _ _ _ Hs) as [Hnl Hlt].
  destruct (Hrest g' rest eq_refl) as [Hdrop _].
  exists (length t - length rest).
  replace (length (c :: t) - length rest) with (S (length t - length rest))
    in * by (simpl; lia).
  simpl in Hdrop. rewrite Hdrop. repeat split; [lia|done].
Qed.

Lemma sub_blank_lines_cons c (t : str) :
  Re.sub Pat.blank_lines [RLit [Char.LF]] (c :: t) =
    match match_at Pat.blank_lines (c :: t) with
    | Some (S n, _) => Char.LF :: Re.sub Pat.blank_lines [RLit [Char.LF]] (drop n t)
    | _ => c :: Re.sub Pat.blank_lines [RLit [Char.LF]] t
    end.
Proof.
  rewrite sub_cons.
  destruct (match_at Pat.blank_lines (c :: t)) as [[[|n] g]|] eqn:Hm; try done.
  by apply match_at_blank_lines_some in Hm as (? & ? & ? & _ & ? & _).
Qed.

(** The substitution does not change whether a line feed is ahead. *)
Lemma nl_ahead_sub (s : str) :
  nl_ahead (Re.sub Pat.blank_lines [RLit [Char.LF]] s) = nl_ahead s.
Proof.
  induction s as [s IH] using (induction_ltof1 _ (@length ascii)).
  unfold ltof in IH. destruct s as [|c t]; [done|].
  rewrite sub_blank_lines_cons.
  destruct (match_at Pat.blank_lines (c :: t)) as [[[|n] g]|] eqn:Hm.
  - rewrite !nl_ahead_cons, IH by (simpl; lia). done.
  - apply match_at_blank_lines_some in Hm as (c' & t' & n' & [= <- <-] & _ & Hc & _).
    rewrite !nl_ahead_cons, Hc. done.
  - rewrite !nl_ahead_cons, IH by (simpl; lia). done.
Qed.

(** After the substitution no two line feeds are separated by white space
    only. *)
Lemma nl_free_sub (s : str) :
  nl_free (Re.sub Pat.blank_lines [RLit [Char.LF]] s) = true.
Proof.
  induction s as [s IH] using (induction_ltof1 _ (@length ascii)).
  unfold ltof in IH. destruct s as [|c t]; [done|].
  rewrite sub_blank_lines_cons.
  destruct (match_at Pat.blank_lines (c :: t)) as [[[|n] g]|] eqn:Hm.
  - by apply match_at_blank_lines_some in Hm as (? & ? & ? & _ & ? & _).
  - apply match_at_blank_lines_some in Hm
      as (c' & t' & n' & [= <- <-] & [= <-] & Hc & Hnl).
    cbn [nl_free]. rewrite nl_ahead_sub, Hnl, andb_false_r. simpl.
    apply IH. rewrite length_drop. simpl. lia.
  - apply match_at_blank_lines_none in Hm.
    cbn [nl_free]. rewrite nl_ahead_sub, (Ascii.eqb_sym c Char.LF), Hm. simpl.
    apply IH. simpl. lia.
Qed.

Lemma nl_free_app (k t : str) : nl_free (k ++ t) = true → nl_free t = true.
Proof.
  induction k as [|c k IH]; [done|]. cbn [app nl_free].
  intros [_ H]%andb_true_iff. by apply IH.
Qed.

Lemma nl_free_no_match (s t : str) :
  nl_free s = true → t `suffix_of` s → match_at Pat.blank_lines t = None.
Proof.
  intros Hs [k ->]. apply nl_free_app in Hs.
  destruct t as [|c t]; [done|].
  apply match_at_blank_lines_none.
  cbn [nl_free] in Hs. apply andb_true_iff in Hs as [Hs _].
  apply negb_true_iff in Hs. by rewrite (Ascii.eqb_sym Char.LF c).
Qed.

Lemma sub_blank_lines_rewritten (s : str) :
  rewritten s (Re.sub Pat.blank_lines [RLit [Char.LF]] s).
Proof.
  apply sub_rewritten; [done|].
  intros t n g Hm.
  apply match_at_blank_lines_some in Hm as (c & t' & n' & -> & -> & _).
  split; [done|]. right. exists Char.LF. split; [done|by right].
Qed.

(** ** The pattern of the blanks *)

Lemma sub_blanks (s : str) :
  Re.sub Pat.blanks [RLit [Char.SP]] s = collapse blank false s.
Proof. apply (sub_class_runs blank). Qed.

Lemma sub_blanks_rewritten (s : str) :
  rewritten s (Re.sub Pat.blanks [RLit [Char.SP]] s).
Proof.
  apply sub_rewritten; [done|].
  intros t n g Hm. unfold Pat.blanks in Hm. rewrite match_at_plus_class in Hm.
  destruct t as [|c t]; [done|].
  destruct (_ || _); [|done]. injection Hm as <- <-.
  split; [done|]. right. exists Char.SP. split; [done|by left].
Qed.

Lemma blank_space c :
  blank c = true → Char.is_space c = true ∧ Ascii.eqb Char.LF c = false.
Proof. by_chars c. Qed.

Lemma tidy_collapse b (s : str) : tidy b (collapse blank b s) = true.
Proof.
  revert b. induction s as [|c s IH]; intros b; [done|]. cbn [collapse].
  destruct (blank c) eqn:Hc.
  - destruct b; [apply IH|]. cbn [tidy]. rewrite IH. done.
  - cbn [tidy]. rewrite Hc. apply IH.
Qed.

Lemma collapse_tidy b (s : str) : tidy b s = true → collapse blank b s = s.
Proof.
  revert b. induction s as [|c s IH]; intros b; [done|]. cbn [tidy collapse].
  destruct (blank c) eqn:Hc.
  - intros [[Hsp Hb]%andb_true_iff Ht]%andb_true_iff.
    apply negb_true_iff in Hb. subst b. apply Ascii.eqb_eq in Hsp. subst c.
    by rewrite IH.
  - intros Ht. by rewrite IH.
Qed.

Lemma nl_ahead_collapse b (s : str) :
  nl_ahead (collapse blank b s) = nl_ahead s.
Proof.
  revert b. induction s as [|c s IH]; intros b; [done|]. cbn [collapse].
  destruct (blank c) eqn:Hc.
  - destruct (blank_space c Hc) as [Hs Hl].
    rewrite (nl_ahead_cons c), Hs, Hl. simpl.
    destruct b; [apply IH|]. rewrite nl_ahead_cons, IH. done.
  - by rewrite !nl_ahead_cons, IH.
Qed.

Lemma nl_free_collapse b (s : str) :
  nl_free s = true → nl_free (collapse blank b s) = true.
Proof.
  revert b. induction s as [|c s IH]; intros b; [done|]. cbn [collapse nl_free].
  intros [Hc Hs]%andb_true_iff.
  destruct (blank c) eqn:Hb.
  - destruct b; [by apply IH|]. cbn [nl_free]. by rewrite IH.
  - cbn [nl_free]. by rewrite nl_ahead_collapse, Hc, IH.
Qed.

(** ** Trimming and the normal form *)

Lemma lstrip_suffix (s : str) : ∃ k, s = k ++ lstrip s.
Proof.
  induction s as [|c s [k IH]]; [by exists []|]. simpl.
  destruct (Char.is_space c); [|by exists []].
  exists (c :: k). simpl. by rewrite <- IH.
Qed.

Lemma rstrip_prefix (s : str) : ∃ k, s = rstrip s ++ k.
Proof.
  induction s as [|c s [k IH]]; [by exists []|]. simpl.
  destruct (rstrip s) as [|e r].
  - destruct (Char.is_space c); [by exists (c :: s)|].
    exists k. simpl. by rewrite IH at 1.
  - exists k. simpl. by rewrite IH at 1.
Qed.

Lemma lstrip_solid (s : str) :
  match s with [] => True | c :: _ => Char.is_space c = false end →
  lstrip s = s.
Proof. destruct s as [|c s]; [done|]. simpl. by intros ->. Qed.

Lemma lstrip_head (s : str) :
  match lstrip s with [] => True | c :: _ => Char.is_space c = false end.
Proof.
  induction s as [|c s IH]; [done|]. simpl.
  by destruct (Char.is_space c) eqn:Hc; [|simpl].
Qed.

Lemma rstrip_head (s : str) :
  match s with [] => True | c :: _ => Char.is_space c = false end →
  match rstrip s with [] => True | c :: _ => Char.is_space c = false end.
Proof.
  destruct s as [|c s]; [done|]. simpl. intros Hc.
  destruct (rstrip s); by rewrite ?Hc.
Qed.

Lemma rstrip_idem (s : str) : rstrip (rstrip s) = rstrip s.
Proof.
  induction s as [|c s IH]; [done|]. simpl.
  destruct (rstrip s) as [|e r] eqn:Hr.
  - destruct (Char.is_space c) eqn:Hc; [done|]. simpl. by rewrite Hc.
  - cbn [rstrip]. cbn [rstrip] in IH. by rewrite IH.
Qed.

Lemma py_strip_idem (s : str) : py_strip (py_strip s) = py_strip s.
Proof.
  unfold py_strip.
  rewrite (lstrip_solid (rstrip (lstrip s))); [apply rstrip_idem|].
  apply rstrip_head, lstrip_head.
Qed.

Lemma url_head_app lits (a k : str) :
  url_head lits a = true → url_head lits (a ++ k) = true.
Proof.
  rewrite !url_head_iff. intros (l & c & z & Hl & Hc & ->).
  exists l, c, (z ++ k). by rewrite <- (assoc_L (++)).
Qed.

Lemma url_free_prefix lits (s k : str) :
  url_free lits (s ++ k) = true → url_free lits s = true.
Proof.
  induction s as [|c s IH]; [done|]. cbn [app url_free].
  intros [Hh Hs]%andb_true_iff. rewrite IH by done. rewrite andb_true_r.
  apply negb_true_iff. apply negb_true_iff in Hh.
  destruct (url_head lits (c :: s)) eqn:H; [|done].
  pose proof (url_head_app lits (c :: s) k H) as H'. simpl in H'. congruence.
Qed.

Lemma nl_ahead_app (s k : str) :
  nl_ahead s = true → nl_ahead (s ++ k) = true.
Proof.
  induction s as [|c s IH]; [done|]. cbn [app]. rewrite !nl_ahead_cons.
  destruct (Ascii.eqb Char.LF c); [done|]. destruct (Char.is_space c); [|done].
  simpl. apply IH.
Qed.

Lemma nl_free_prefix (s k : str) :
  nl_free (s ++ k) = true → nl_free s = true.
Proof.
  induction s as [|c s IH]; [done|]. cbn [app nl_free].
  intros [Hh Hs]%andb_true_iff. rewrite IH by done. rewrite andb_true_r.
  apply negb_true_iff. apply negb_true_iff in Hh.
  destruct (Ascii.eqb c Char.LF); [|done]. simpl in *.
  destruct (nl_ahead s) eqn:H; [|done]. by rewrite nl_ahead_app in Hh.
Qed.

Lemma tidy_prefix b (s k : str) : tidy b (s ++ k) = true → tidy b s = true.
Proof.
  revert b. induction s as [|c s IH]; intros b; [done|]. cbn [app tidy].
  destruct (blank c).
  - intros [H Hs]%andb_true_iff. by rewrite H, (IH true).
  - apply IH.
Qed.

Lemma tidy_weaken (s : str) : tidy true s = true → tidy false s = true.
Proof.
  destruct s as [|c s]; [done|]. cbn [tidy]. destruct (blank c); [|done].
  by rewrite andb_false_r.
Qed.

Lemma tidy_lstrip (s : str) :
  tidy false s = true → tidy false (lstrip s) = true.
Proof.
  induction s as [|c s IH]; [done|]. cbn [lstrip].
  destruct (Char.is_space c); [|done]. cbn [tidy].
  destruct (blank c).
  - intros [_ H]%andb_true_iff. by apply IH, tidy_weaken.
  - apply IH.
Qed.

(** ** Idempotence of [clean_text] *)

Lemma sub_bold_plain (s : str) :
  Forall (λ c, plain c = true) s → Re.sub Pat.bold [RGroup1] s = s.
Proof. intros H. by apply (sub_lits_absent "*" (txt "*")), plain_no_star. Qed.

Lemma sub_italic_plain (s : str) :
  Forall (λ c, plain c = true) s → Re.sub Pat.italic [RGroup1] s = s.
Proof. intros H. by apply (sub_lits_absent "*" []), plain_no_star. Qed.

Lemma sub_strike_plain (s : str) :
  Forall (λ c, plain c = true) s → Re.sub Pat.strike [RGroup1] s = s.
Proof. intros H. by apply (sub_lits_absent "~" (txt "~")), plain_no_tilde. Qed.

(** On a text without asterisks and tildes [clean_text] ends in the normal
    form. *)
Lemma clean_str_normal (s : str) :
  Forall (λ c, plain c = true) s → normal (clean_str s).
Proof.
  intros Hs. unfold clean_str.
  set (s1 := Re.sub Pat.http_url [] s).
  set (s2 := Re.sub Pat.www_url [] s1).
  assert (R1 : rewritten s s1) by apply (sub_url_rewritten _ _ rmatch_http).
  assert (R2 : rewritten s1 s2) by apply (sub_url_rewritten _ _ rmatch_www).
  assert (P2 : Forall (λ c, plain c = true) s2)
    by (eapply rewritten_plain; [exact R2|]; by eapply rewritten_plain).
  rewrite (sub_bold_plain s2), (sub_italic_plain s2), (sub_strike_plain s2)
    by done.
  set (s3 := Re.sub Pat.blank_lines [RLit [Char.LF]] s2).
  set (s4 := Re.sub Pat.blanks [RLit [Char.SP]] s3).
  assert (R3 : rewritten s2 s3) by apply sub_blank_lines_rewritten.
  assert (R4 : rewritten s3 s4) by apply sub_blanks_rewritten.
  assert (H4 : url_free http_lits s4 = true).
  { apply (rewritten_url_free _ s3), (rewritten_url_free _ s2),
      (rewritten_url_free _ s1); try done; try apply http_lits_ok.
    apply (sub_url_free _ _ http_lits_ok rmatch_http). }
  assert (W4 : url_free www_lits s4 = true).
  { apply (rewritten_url_free _ s3), (rewritten_url_free _ s2);
      try done; try apply www_lits_ok.
    apply (sub_url_free _ _ www_lits_ok rmatch_www). }
  assert (P4 : Forall (λ c, plain c = true) s4)
    by (eapply rewritten_plain; [exact R4|]; by eapply rewritten_plain).
  assert (N4 : nl_free s4 = true).
  { unfold s4. rewrite sub_blanks. apply nl_free_collapse, nl_free_sub. }
  assert (T4 : tidy false s4 = true).
  { unfold s4. rewrite sub_blanks. apply tidy_collapse. }
  clearbody s4. clear -H4 W4 P4 N4 T4.
  destruct (lstrip_suffix s4) as [k Hk].
  destruct (rstrip_prefix (lstrip s4)) as [k' Hk'].
  unfold normal, py_strip.
  repeat split.
  - rewrite Hk in H4. apply url_free_app in H4. rewrite Hk' in H4.
    by apply url_free_prefix in H4.
  - rewrite Hk in W4. apply url_free_app in W4. rewrite Hk' in W4.
    by apply url_free_prefix in W4.
  - rewrite Hk in P4. apply Forall_app in P4 as [_ P4]. rewrite Hk' in P4.
    by apply Forall_app in P4 as [P4 _].
  - rewrite Hk in N4. apply nl_free_app in N4. rewrite Hk' in N4.
    by apply nl_free_prefix in N4.
  - apply tidy_lstrip in T4. rewrite Hk' in T4. by apply tidy_prefix in T4.
  - apply py_strip_idem.
Qed.

(** [clean_text] leaves a text in normal form as it is. *)
Lemma clean_str_fixed (y : str) : normal y → clean_str y = y.
Proof.
  intros (Hh & Hw & Hp & Hn & Ht & Hs). unfold clean_str.
  rewrite (sub_no_match Pat.http_url [] y)
    by (intros t; by apply (url_free_no_match _ _ rmatch_http y)).
  rewrite (sub_no_match Pat.www_url [] y)
    by (intros t; by apply (url_free_no_match _ _ rmatch_www y)).
  rewrite (sub_bold_plain y), (sub_italic_plain y), (sub_strike_plain y) by done.
  rewrite (sub_no_match Pat.blank_lines _ y)
    by (intros t; by apply nl_free_no_match).
  rewrite sub_blanks, collapse_tidy by done. done.
Qed.

(** C2, as stated, fails: the text "****a****" is normalised to "*a*",
    which is normalised to "a"; and "ht*t*p://b" is normalised to the URL
    "http://b", which a second run removes. *)
Lemma clean_text_not_idempotent :
  clean_text (VStr (txt "****a****")) = txt "*a*" ∧
  clean_text (VStr (txt "*a*")) = txt "a" ∧
  clean_text (VStr (txt "ht*t*p://b")) = txt "http://b" ∧
  clean_text (VStr (txt "http://b")) = [] ∧
  ¬ (∀ s : str, clean_text (VStr (clean_text (VStr s))) = clean_text (VStr s)).
Proof.
  assert (H1 : clean_text (VStr (txt "****a****")) = txt "*a*") by by vm_compute.
  assert (H2 : clean_text (VStr (txt "*a*")) = txt "a") by by vm_compute.
  repeat split; try done; try by vm_compute.
  intros H. specialize (H (txt "****a****")). rewrite H1, H2 in H. done.
Qed.

(* ===================================================================== *)
(** * The validator and the processor *)
(* ===================================================================== *)

(** ** The validator *)

(** The validator on a record whose two fields are strings (or absent). *)
Lemma is_valid_post_strings (p : post) (min_length : Z) (b t : str) :
  dict_get p "body" (VStr []) = VStr b →
  dict_get p "title" (VStr []) = VStr t →
  is_valid_post p min_length =
    Ok (negb (has_marker b)
        && (min_length <=? Z.of_nat (length (py_strip b)))%Z
        && negb (bool_decide (py_strip t = []))).
Proof.
  intros Hb Ht. unfold is_valid_post. rewrite Hb, Ht. simpl.
  rewrite has_marker_strip. destruct (has_marker b); [done|]. simpl.
  rewrite (Z.leb_antisym _ min_length).
  destruct (Z.of_nat (length (py_strip b)) <? min_length)%Z; [done|]. simpl.
  by destruct (bool_decide (py_strip t = [])).
Qed.

(** C5: with the default minimum of 5 the validator accepts a record
    exactly when its lower-cased body contains no placeholder marker, its
    trimmed body has at least 5 characters and its trimmed title is not
    empty; the bound is inclusive: the body "hello" passes the length
    check, the body "hi" is rejected. *)
Theorem is_valid_post_default_iff (p : post) (b t : str) :
  dict_get p "body" (VStr []) = VStr b →
  dict_get p "title" (VStr []) = VStr t →
  (∃ v, is_valid_post p MIN_BODY_LEN = Ok v) ∧
  (is_valid_post p MIN_BODY_LEN = Ok true ↔
     existsb (λ marker, contains marker (py_lower b)) DELETED_MARKERS = false ∧
     5 ≤ length (py_strip b) ∧
     py_strip t ≠ []) ∧
  (b = txt "hello" → py_strip t ≠ [] → is_valid_post p MIN_BODY_LEN = Ok true) ∧
  (b = txt "hi" → is_valid_post p MIN_BODY_LEN = Ok false).
Proof.
  intros Hb Ht. rewrite (is_valid_post_strings p _ b t Hb Ht).
  fold (has_marker b). unfold MIN_BODY_LEN.
  split; [eauto|]. split; [|split].
  - split.
    + intros [= H]. apply andb_true_iff in H as [H H3].
      apply andb_true_iff in H as [H1 H2].
      apply negb_true_iff in H1, H3. apply Z.leb_le in H2.
      apply bool_decide_eq_false in H3. repeat split; [done|lia|done].
    + intros (H1 & H2 & H3). f_equal.
      rewrite H1, bool_decide_eq_false_2 by done. simpl.
      rewrite andb_true_r. apply Z.leb_le. lia.
  - intros -> H3. by rewrite bool_decide_eq_false_2.
  - by intros ->.
Qed.

Lemma is_valid_post_default_iff_witness :
  is_valid_post {[ "body" := VStr (txt "hello"); "title" := VStr (txt "Post") ]}
                MIN_BODY_LEN = Ok true ∧
  is_valid_post {[ "body" := VStr (txt "hi"); "title" := VStr (txt "Post") ]}
                MIN_BODY_LEN = Ok false.
Proof.
  split.
  - apply (is_valid_post_default_iff
             {[ "body" := VStr (txt "hello"); "title" := VStr (txt "Post") ]}
             (txt "hello") (txt "Post")); [reflexivity|reflexivity| |].
    + reflexivity.
    + vm_compute. discriminate.
  - apply (is_valid_post_default_iff
             {[ "body" := VStr (txt "hi"); "title" := VStr (txt "Post") ]}
             (txt "hi") (txt "Post")); reflexivity.
Defined.

(** C7, as stated, fails: the record with the title "Post" and the body
    "hi" is rejected on its length alone; with the longer body
    "[deleted] text", and nothing else changed, it is still rejected, now by
    the marker check.  So a longer body alone does not make a record
    valid. *)
Lemma longer_body_with_marker_rejected :
  is_valid_post {[ "body" := VStr (txt "hi"); "title" := VStr (txt "Post") ]}
                MIN_BODY_LEN = Ok false ∧
  has_marker (txt "hi") = false ∧
  py_strip (txt "Post") ≠ [] ∧
  (Z.of_nat (length (py_strip (txt "hi"))) < MIN_BODY_LEN)%Z ∧
  (MIN_BODY_LEN <= Z.of_nat (length (py_strip (txt "[deleted] text"))))%Z ∧
  is_valid_post
    (<[ "body" := VStr (txt "[deleted] text") ]>
       ({[ "body" := VStr (txt "hi"); "title" := VStr (txt "Post") ]} : post))
    MIN_BODY_LEN = Ok false ∧
  ¬ (∀ (p : post) (min_length : Z) (b t b' : str),
       dict_get p "body" (VStr []) = VStr b →
       dict_get p "title" (VStr []) = VStr t →
       has_marker b = false →
       py_strip t ≠ [] →
       is_valid_post p min_length = Ok false →
       (min_length <= Z.of_nat (length (py_strip b')))%Z →
       is_valid_post (<[ "body" := VStr b' ]> p) min_length = Ok true).
Proof.
  assert (Hlast :
    is_valid_post
      (<[ "body" := VStr (txt "[deleted] text") ]>
         ({[ "body" := VStr (txt "hi"); "title" := VStr (txt "Post") ]} : post))
      MIN_BODY_LEN = Ok false) by reflexivity.
  repeat split; try reflexivity; try (vm_compute; discriminate).
  intros H.
  specialize (H {[ "body" := VStr (txt "hi"); "title" := VStr (txt "Post") ]}
                MIN_BODY_LEN (txt "hi") (txt "Post") (txt "[deleted] text")).
  rewrite Hlast in H. discriminate H; try reflexivity; vm_compute; discriminate.
Qed.

(** C7 (amended): a record that is rejected on its body length alone (no
    marker in its body, a title that is not empty) is accepted once its
    body, every other field unchanged, is replaced by one whose trimmed
    length reaches the minimum and which still contains no placeholder
    marker. *)
Theorem is_valid_post_longer_body (p : post) (min_length : Z) (b t b' : str) :
  dict_get p "body" (VStr []) = VStr b →
  dict_get p "title" (VStr []) = VStr t →
  has_marker b = false →
  py_strip t ≠ [] →
  is_valid_post p min_length = Ok false →
  (min_length <= Z.of_nat (length (py_strip b')))%Z →
  has_marker b' = false →
  (Z.of_nat (length (py_strip b)) < min_length)%Z ∧
  is_valid_post (<[ "body" := VStr b' ]> p) min_length = Ok true.
Proof.
  intros Hb Ht Hm Htitle Hfail Hlen Hm'.
  rewrite (is_valid_post_strings p _ b t Hb Ht) in Hfail.
  rewrite Hm, bool_decide_eq_false_2 in Hfail by done.
  simpl in Hfail. rewrite andb_true_r in Hfail.
  injection Hfail as Hfail. apply Z.leb_gt in Hfail.
  split; [done|].
  rewrite (is_valid_post_strings _ _ b' t).
  - rewrite Hm', bool_decide_eq_false_2 by done. simpl.
    rewrite andb_true_r. f_equal. by apply Z.leb_le.
  - unfold dict_get. by rewrite lookup_insert_eq.
  - unfold dict_get in *. by rewrite lookup_insert_ne.
Qed.

Lemma is_valid_post_longer_body_witness :
  is_valid_post
    (<[ "body" := VStr (txt "hello there") ]>
       ({[ "body" := VStr (txt "hi"); "title" := VStr (txt "Post") ]} : post))
    MIN_BODY_LEN = Ok true.
Proof.
  apply (is_valid_post_longer_body
           {[ "body" := VStr (txt "hi"); "title" := VStr (txt "Post") ]}
           MIN_BODY_LEN (txt "hi") (txt "Post") (txt "hello there")).
  - reflexivity.
  - reflexivity.
  - reflexivity.
  - vm_compute. discriminate.
  - reflexivity.
  - vm_compute. discriminate.
  - reflexivity.
Defined.

(** C8, as stated, fails: a body that is [None] (a JSON [null]) has no
    [strip] method, and the validator raises instead of returning a
    boolean. *)
Lemma is_valid_post_raises_on_null_body :
  is_valid_post {[ "body" := VNone; "title" := VStr (txt "Help") ]} MIN_BODY_LEN
    = Raise AttributeError ∧
  ¬ (∀ (p : post) (min_length : Z),
       ∃ v : bool, is_valid_post p min_length = Ok v).
Proof.
  split; [reflexivity|].
  intros H.
  destruct (H {[ "body" := VNone; "title" := VStr (txt "Help") ]} MIN_BODY_LEN)
    as [v Hv].
  discriminate Hv.
Qed.

(** C8 (amended): on every record whose body and title are each absent or
    a string the validator returns a boolean and raises nothing, and an
    absent field counts as the empty string. *)
Theorem is_valid_post_total_on_strings (p : post) (min_length : Z) :
  str_or_absent p "body" → str_or_absent p "title" →
  (∃ v : bool, is_valid_post p min_length = Ok v) ∧
  (p !! "body" = None →
   is_valid_post p min_length
     = is_valid_post (<[ "body" := VStr [] ]> p) min_length) ∧
  (p !! "title" = None →
   is_valid_post p min_length
     = is_valid_post (<[ "title" := VStr [] ]> p) min_length).
Proof.
  intros Hb Ht.
  assert (∃ b, dict_get p "body" (VStr []) = VStr b) as [b Hb'].
  { unfold dict_get. destruct Hb as [-> | [s ->]]; eauto. }
  assert (∃ t, dict_get p "title" (VStr []) = VStr t) as [t Ht'].
  { unfold dict_get. destruct Ht as [-> | [s ->]]; eauto. }
  split; [|split].
  - rewrite (is_valid_post_strings p _ b t Hb' Ht'). eauto.
  - intros Hnone. unfold is_valid_post, dict_get.
    by rewrite lookup_insert_eq, lookup_insert_ne, Hnone.
  - intros Hnone. unfold is_valid_post, dict_get.
    by rewrite lookup_insert_eq, lookup_insert_ne, Hnone.
Qed.

Lemma is_valid_post_total_on_strings_witness :
  ∃ v : bool,
    is_valid_post {[ "title" := VStr (txt "Help") ]} MIN_BODY_LEN = Ok v.
Proof.
  apply (is_valid_post_total_on_strings {[ "title" := VStr (txt "Help") ]}
           MIN_BODY_LEN).
  - left. reflexivity.
  - right. exists (txt "Help"). reflexivity.
Defined.

(** ** The processor *)

(** C1: the record with the body "**removed**" and the title "Help".  The
    body is normalised to "removed"; no marker of the validator occurs in
    it (each marker is bracketed or starred), so the validator accepts the
    record and [process_post] returns the cleaned record, not [None]. *)
Theorem process_post_starred_removed :
  clean_text (VStr (txt "**removed**")) = txt "removed" ∧
  has_marker (txt "removed") = false ∧
  is_valid_post {[ "subreddit" := VStr (txt "unknown");
                   "title" := VStr (txt "Help");
                   "body" := VStr (txt "removed") ]} MIN_BODY_LEN = Ok true ∧
  process_post {[ "body" := VStr (txt "**removed**");
                  "title" := VStr (txt "Help") ]} =
    Ok (Some {| subreddit := VStr (txt "unknown");
                title := txt "Help";
                body := txt "removed" |}) ∧
  process_post {[ "body" := VStr (txt "**removed**");
                  "title" := VStr (txt "Help") ]} ≠ Ok None.
Proof. vm_compute. repeat split; done. Qed.

(* ===================================================================== *)
(** * The deduplicator *)
(* ===================================================================== *)

(** ** The fingerprint *)

Lemma keep_ext (p q : ascii → bool) (s : str) :
  (∀ c, p c = q c) → keep p s = keep q s.
Proof. intros H. induction s as [|c s IH]; simpl; [done|]. by rewrite H, IH. Qed.

(** The two substitutions of [normalize_title] do what the specification
    says in words. *)
Lemma normalize_title_spec (t : str) :
  normalize_title t = fingerprint_of_title t.
Proof.
  unfold normalize_title, fingerprint_of_title, Pat.punct, Pat.spaces.
  rewrite sub_class_delete, sub_class_runs.
  do 2 f_equal. apply keep_ext. intros c. apply negb_involutive.
Qed.

Lemma keep_spaces_of_wordless (s : str) :
  Forall (λ c, Char.is_word c = false) s →
  Forall (λ c, Char.is_space c = true) (keep word_or_space s).
Proof.
  induction 1 as [|c s Hc _ IH]; simpl; [constructor|].
  unfold word_or_space at 1. rewrite Hc. simpl.
  destruct (Char.is_space c) eqn:Hs; [by constructor|done].
Qed.

Lemma collapse_run (p : ascii → bool) (s : str) :
  Forall (λ c, p c = true) s → collapse p true s = [].
Proof. induction 1 as [|c s Hc _ IH]; simpl; [done|]. by rewrite Hc. Qed.

Lemma strip_collapse_spaces (s : str) :
  Forall (λ c, Char.is_space c = true) s →
  py_strip (collapse Char.is_space false s) = [].
Proof.
  intros H. destruct H as [|c s Hc H]; simpl; [done|].
  rewrite Hc, collapse_run by done. done.
Qed.

Lemma py_lower_wordless (t : str) : wordless t → py_lower t = t.
Proof.
  unfold py_lower. induction 1 as [|c t Hc _ IH]; simpl; [done|].
  by rewrite IH, lower_not_word.
Qed.

(** A title without a word character has the empty fingerprint. *)
Lemma fingerprint_wordless (t : str) : wordless t → normalize_title t = [].
Proof.
  intros H. rewrite normalize_title_spec. unfold fingerprint_of_title.
  rewrite py_lower_wordless by done.
  by apply strip_collapse_spaces, keep_spaces_of_wordless.
Qed.

Lemma rstrip_elem (c : ascii) (s : str) :
  c ∈ s → Char.is_space c = false → c ∈ rstrip s.
Proof.
  induction s as [|d s IH]; intros Hin Hc; [by apply elem_of_nil in Hin|].
  apply elem_of_cons in Hin as [-> | Hin]; simpl.
  - destruct (rstrip s); [rewrite Hc|]; apply list_elem_of_here.
  - specialize (IH Hin Hc). destruct (rstrip s) as [|e r] eqn:Hr.
    + by apply elem_of_nil in IH.
    + by apply list_elem_of_further.
Qed.

Lemma lstrip_elem (c : ascii) (s : str) :
  c ∈ s → Char.is_space c = false → c ∈ lstrip s.
Proof.
  induction s as [|d s IH]; intros Hin Hc; [done|]. simpl.
  destruct (Char.is_space d) eqn:Hd; [|done].
  apply elem_of_cons in Hin as [-> | Hin]; [congruence|]. by apply IH.
Qed.

Lemma collapse_elem (p : ascii → bool) (c : ascii) (s : str) b :
  c ∈ s → p c = false → c ∈ collapse p b s.
Proof.
  revert b. induction s as [|d s IH]; intros b Hin Hc; [done|]. simpl.
  apply elem_of_cons in Hin as [-> | Hin].
  - rewrite Hc. apply list_elem_of_here.
  - destruct (p d); [destruct b|]; try apply list_elem_of_further; by apply IH.
Qed.

Lemma keep_elem (p : ascii → bool) (c : ascii) (s : str) :
  c ∈ s → p c = true → c ∈ keep p s.
Proof.
  induction s as [|d s IH]; intros Hin Hc; [done|]. simpl.
  apply elem_of_cons in Hin as [-> | Hin].
  - rewrite Hc. apply list_elem_of_here.
  - destruct (p d); [apply list_elem_of_further|]; by apply IH.
Qed.

(** Only the titles without a word character have the empty fingerprint. *)
Lemma fingerprint_empty_iff (t : str) : normalize_title t = [] ↔ wordless t.
Proof.
  split; [|apply fingerprint_wordless].
  intros Hfp. apply Forall_forall. intros c Hc.
  destruct (Char.is_word c) eqn:Hw; [exfalso|done].
  assert (Char.lower c ∈ normalize_title t) as Hin.
  { rewrite normalize_title_spec. unfold fingerprint_of_title, py_strip.
    pose proof (word_not_space _ (lower_word _ Hw)) as Hs.
    apply rstrip_elem; [|done]. apply lstrip_elem; [|done].
    apply collapse_elem; [|done]. apply keep_elem.
    - unfold py_lower. apply list_elem_of_fmap. eauto.
    - unfold word_or_space. by rewrite lower_word. }
  rewrite Hfp in Hin. by apply elem_of_nil in Hin.
Qed.

(** ** One pass, first occurrences *)

Lemma occurrences_from_length start posts rest :
  length (occurrences_from start posts rest) ≤ length rest.
Proof.
  unfold occurrences_from. rewrite length_fmap.
  etrans; [apply length_filter|]. by rewrite length_imap.
Qed.

Lemma dedup_loop_spec rest : ∀ pre seen u d,
  seen = list_to_set (fingerprint <$> pre) →
  dedup_loop rest seen u d =
    (u ++ occurrences_from (length pre) (pre ++ rest) rest,
     d + (length rest - length (occurrences_from (length pre) (pre ++ rest) rest))).
Proof.
  induction rest as [|p rest IH]; intros pre seen u d Hseen; simpl.
  - unfold occurrences_from. simpl. rewrite app_nil_r. f_equal. lia.
  - assert (Htail : occurrences_from (length pre) (pre ++ p :: rest) (p :: rest) =
                    (if bool_decide (fingerprint p ∉ seen) then [p] else []) ++
                    occurrences_from (length (pre ++ [p])) ((pre ++ [p]) ++ rest) rest).
    { unfold occurrences_from. simpl.
      rewrite <- (assoc_L (++) pre [p] rest). simpl.
      rewrite length_app. simpl.
      assert (Hext : imap ((λ (i : nat) (p0 : cleaned_post), (length pre + i, p0)) ∘ S) rest
                   = imap (λ (i : nat) (p0 : cleaned_post), (length pre + 1 + i, p0)) rest).
      { apply imap_ext. intros. simpl. f_equal. lia. }
      rewrite Hext. rewrite filter_cons.
      assert (Hiff : first_occurrence (pre ++ p :: rest) (length pre + 0, p).1 (length pre + 0, p).2
                     ↔ fingerprint p ∉ seen).
      { unfold first_occurrence. simpl.
        rewrite Nat.add_0_r, (take_app_length pre (p :: rest)). subst seen.
        by rewrite elem_of_list_to_set. }
      case_decide as Hd; case_bool_decide as Hb; simpl; try done.
      - apply Hiff in Hd. naive_solver.
      - apply Hiff in Hb. naive_solver. }
    rewrite Htail. fold (fingerprint p).
    pose proof (occurrences_from_length (length (pre ++ [p])) ((pre ++ [p]) ++ rest) rest) as Hlen.
    case_bool_decide.
    + rewrite (IH (pre ++ [p])).
      * rewrite <- (assoc_L (++) u). simpl. f_equal; try done; simpl; lia.
      * rewrite fmap_app, list_to_set_app_L. simpl. subst seen. set_solver.
    + rewrite (IH (pre ++ [p])).
      * simpl. f_equal; simpl; lia.
      * rewrite fmap_app, list_to_set_app_L. simpl. subst seen.
        set_solver.
Qed.

(** C3: one pass from the left keeps exactly the first record of every
    fingerprint, in the original order, drops every later record of a
    fingerprint already seen, and the number of records kept plus the
    number reported as removed is the number of records received. *)
Theorem deduplicate_posts_first_occurrences (posts : list cleaned_post) :
  (deduplicate_posts posts).1 = first_occurrences posts ∧
  (deduplicate_posts posts).2
    = length posts - length (first_occurrences posts) ∧
  length (deduplicate_posts posts).1 + (deduplicate_posts posts).2
    = length posts.
Proof.
  unfold deduplicate_posts.
  rewrite (dedup_loop_spec posts [] ∅ [] 0) by done. simpl.
  fold (first_occurrences posts).
  pose proof (occurrences_from_length 0 posts posts) as Hlen.
  fold (first_occurrences posts) in Hlen.
  repeat split; lia.
Qed.

(** ** Duplicates by fingerprint *)

(** The lists and counters that the loop starts from are only extended. *)
Lemma dedup_loop_acc l : ∀ seen u d,
  dedup_loop l seen u d =
    (u ++ (dedup_loop l seen [] 0).1, d + (dedup_loop l seen [] 0).2).
Proof.
  induction l as [|p l IH]; intros seen u d; simpl.
  - by rewrite app_nil_r, Nat.add_0_r.
  - case_bool_decide.
    + rewrite IH, (IH _ [p] 0). simpl. by rewrite <- (assoc_L (++)).
    + rewrite IH, (IH _ [] 1). simpl. f_equal. lia.
Qed.

Lemma dedup_loop_app a : ∀ b seen u d,
  dedup_loop (a ++ b) seen u d =
    dedup_loop b (list_to_set (fingerprint <$> a) ∪ seen)
               (dedup_loop a seen u d).1 (dedup_loop a seen u d).2.
Proof.
  induction a as [|p a IH]; intros b seen u d; simpl.
  - f_equal. set_solver.
  - fold (fingerprint p). case_bool_decide as Hp; rewrite IH; f_equal.
    + set_solver.
    + set_solver.
Qed.

(** Of the records of one fingerprint the output holds the first, unless
    the fingerprint had been seen before. *)
Lemma dedup_loop_filter (f : str) (P : cleaned_post → Prop)
    `{!∀ r, Decision (P r)} l :
  (∀ r, P r ↔ fingerprint r = f) →
  ∀ seen,
  filter P (dedup_loop l seen [] 0).1 =
    if decide (f ∈ seen) then [] else take 1 (filter P l).
Proof.
  intros HP. induction l as [|p l IH]; intros seen; simpl.
  - by case_decide.
  - fold (fingerprint p). rewrite filter_cons.
    pose proof (HP p) as HPp.
    case_bool_decide as Hp; rewrite dedup_loop_acc; simpl.
    + rewrite filter_cons, IH.
      repeat case_decide; simpl; try done; set_solver.
    + rewrite IH.
      repeat case_decide; simpl; try done; set_solver.
Qed.

(** C4: two records are duplicates exactly when their titles agree after
    lowercasing, removing the characters that are neither word characters
    nor white space, collapsing the runs of white space and trimming; the
    titles "My Day!" and "my day" both have the fingerprint "my day", the
    second of two such records is dropped and one removal is counted. *)
Theorem duplicates_by_fingerprint :
  (∀ t : str, normalize_title t = fingerprint_of_title t) ∧
  (∀ a b : cleaned_post,
     deduplicate_posts [a; b] =
       if decide (fingerprint_of_title (title a)
                  = fingerprint_of_title (title b))
       then ([a], 1) else ([a; b], 0)) ∧
  (∀ (g1 g2 : value) (b1 b2 : str),
     normalize_title (txt "My Day!") = txt "my day" ∧
     normalize_title (txt "my day") = txt "my day" ∧
     deduplicate_posts [CleanedPost g1 (txt "My Day!") b1;
                        CleanedPost g2 (txt "my day") b2]
       = ([CleanedPost g1 (txt "My Day!") b1], 1)).
Proof.
  assert (Hpair : ∀ a b : cleaned_post,
     deduplicate_posts [a; b] =
       if decide (normalize_title (title a) = normalize_title (title b))
       then ([a], 1) else ([a; b], 0)).
  { intros a b. unfold deduplicate_posts. simpl.
    rewrite bool_decide_eq_true_2 by set_solver.
    case_bool_decide as Hb; case_decide as Hd; try done; set_solver. }
  split; [apply normalize_title_spec|]. split.
  - intros a b. rewrite Hpair, !normalize_title_spec. done.
  - intros g1 g2 b1 b2.
    assert (H1 : normalize_title (txt "My Day!") = txt "my day") by (by vm_compute).
    assert (H2 : normalize_title (txt "my day") = txt "my day") by (by vm_compute).
    split; [done|]. split; [done|].
    rewrite Hpair. cbn [title]. rewrite H1, H2. done.
Qed.

(** C10: a title of punctuation and white space only has the empty
    fingerprint; so of the records with such titles in a list the
    deduplicator keeps the first one only, and each later one is dropped
    and counted as a duplicate. *)
Theorem wordless_titles_collide (l1 l2 l3 : list cleaned_post)
    (p q : cleaned_post) :
  wordless (title p) → wordless (title q) →
  let posts := l1 ++ p :: l2 ++ q :: l3 in
  let without_q := l1 ++ p :: l2 ++ l3 in
  fingerprint p = [] ∧ fingerprint q = [] ∧
  filter (λ r, wordless (title r)) (deduplicate_posts posts).1
    = take 1 (filter (λ r, wordless (title r)) posts) ∧
  (deduplicate_posts posts).1 = (deduplicate_posts without_q).1 ∧
  (deduplicate_posts posts).2 = S (deduplicate_posts without_q).2.
Proof.
  intros Hp Hq posts without_q.
  assert (Hfp : fingerprint p = []) by by apply fingerprint_wordless.
  assert (Hfq : fingerprint q = []) by by apply fingerprint_wordless.
  split; [done|]. split; [done|]. split.
  - unfold deduplicate_posts. rewrite (dedup_loop_filter []).
    + by case_decide.
    + intros r. symmetry. apply fingerprint_empty_iff.
  - unfold posts, without_q, deduplicate_posts.
    replace (l1 ++ p :: l2 ++ q :: l3) with ((l1 ++ p :: l2) ++ q :: l3)
      by (by rewrite <- app_assoc).
    replace (l1 ++ p :: l2 ++ l3) with ((l1 ++ p :: l2) ++ l3)
      by (by rewrite <- app_assoc).
    rewrite !(dedup_loop_app (l1 ++ p :: l2)).
    set (S0 := list_to_set _ ∪ ∅).
    assert (Hin : fingerprint q ∈ S0).
    { unfold S0. rewrite Hfq, <- Hfp, fmap_app, fmap_cons. set_solver. }
    simpl. fold (fingerprint q).
    rewrite bool_decide_eq_false_2 by (intros Hn; by apply Hn).
    rewrite dedup_loop_acc, (dedup_loop_acc l3 S0 _ (_.2)). simpl.
    split; [done|lia].
Qed.

Lemma wordless_titles_collide_witness :
  deduplicate_posts [CleanedPost (VStr (txt "r")) (txt "!!!") (txt "first");
                     CleanedPost (VStr (txt "r")) (txt "???") (txt "second")]
    = ([CleanedPost (VStr (txt "r")) (txt "!!!") (txt "first")], 1).
Proof.
  assert (H1 : wordless (txt "!!!")) by (repeat constructor).
  assert (H2 : wordless (txt "???")) by (repeat constructor).
  pose proof (wordless_titles_collide [] [] []
                (CleanedPost (VStr (txt "r")) (txt "!!!") (txt "first"))
                (CleanedPost (VStr (txt "r")) (txt "???") (txt "second"))
                H1 H2) as (_ & _ & _ & Ha & Hb).
  simpl in Ha, Hb.
  destruct (deduplicate_posts _) as [out n]. simpl in *.
  rewrite Ha, Hb. reflexivity.
Defined.

(* ===================================================================== *)
(** * The statistics *)
(* ===================================================================== *)

(** ** Totals of the groups *)

Lemma sum_of_dd_update (f : group_stats → nat) (u : group_stats → group_stats)
    (n : nat) (k : key) (d : groups) :
  f default_group = 0 → (∀ st, f (u st) = f st + n) →
  sum_of f (dd_update u k d) = sum_of f d + n.
Proof.
  intros Hdef Hu. unfold sum_of.
  induction d as [|[k' st] d IH]; csimpl.
  - rewrite Hu, Hdef. lia.
  - case_decide; csimpl; [rewrite Hu|rewrite IH]; lia.
Qed.

Lemma dd_update_keys (u : group_stats → group_stats) (k : key) (d : groups) :
  (dd_update u k d).*1 = if decide (k ∈ d.*1) then d.*1 else d.*1 ++ [k].
Proof.
  induction d as [|[k' st] d IH]; csimpl.
  - done.
  - destruct (decide (k = k')) as [->|Hk]; csimpl.
    + rewrite decide_True; [done|]. apply list_elem_of_here.
    + rewrite IH. destruct (decide (k ∈ d.*1)) as [Hin|Hin].
      * rewrite decide_True; [done|]. by apply list_elem_of_further.
      * rewrite decide_False; [done|].
        intros [?|?]%elem_of_cons; done.
Qed.

Lemma dd_update_NoDup (u : group_stats → group_stats) (k : key) (d : groups) :
  NoDup d.*1 → NoDup (dd_update u k d).*1.
Proof.
  intros H. rewrite dd_update_keys. case_decide; [done|].
  apply NoDup_app. split; [done|]. split; [|apply NoDup_singleton].
  intros x Hx Hx'. apply list_elem_of_singleton in Hx'. by subst.
Qed.

Lemma counted_step (n : nat) (k : key) (d : groups) :
  counted d →
  counted (dd_update (add_length n) k (dd_update (add_count 1) k d)).
Proof.
  unfold counted. induction 1 as [|[k' st] d Hst Hd IH]; simpl.
  - rewrite decide_True by done. repeat constructor.
  - case_decide as Hk; simpl.
    + rewrite decide_True by done. constructor; [simpl in *; lia|done].
    + rewrite decide_False by done. by constructor.
Qed.

(** The loop over the posts: it can only raise [TypeError] (a subreddit
    that cannot be hashed); when it ends, the counts have grown by the
    number of posts and the lengths by the lengths of their bodies. *)
Lemma stats_loop_spec posts : ∀ d : groups,
  match stats_loop posts d with
  | Ok d' =>
      sum_of count d' = sum_of count d + length posts ∧
      sum_of total_length d' = sum_of total_length d + total_body_length posts ∧
      (counted d → counted d') ∧
      (NoDup d.*1 → NoDup d'.*1)
  | Raise e => e = TypeError ∧ ¬ Forall (λ p, hashable (subreddit p)) posts
  end.
Proof.
  induction posts as [|p posts IH]; intros d; simpl.
  - unfold total_body_length. simpl. repeat split; (lia || done).
  - destruct (hash_key (subreddit p)) as [k|e] eqn:Hk; simpl.
    + specialize (IH (dd_update (add_length (length (body p))) k
                                (dd_update (add_count 1) k d))).
      destruct (stats_loop posts _) as [d'|e].
      * destruct IH as (Hc & Hl & Hcounted & Hnd).
        rewrite !(sum_of_dd_update count _ 0), (sum_of_dd_update count _ 1) in Hc
          by done.
        rewrite (sum_of_dd_update total_length _ (length (body p))),
          (sum_of_dd_update total_length _ 0) in Hl by done.
        unfold total_body_length in *. simpl.
        repeat split; [lia|lia| |].
        -- intros H. by apply Hcounted, counted_step.
        -- intros H. by apply Hnd, dd_update_NoDup, dd_update_NoDup.
      * destruct IH as [-> Hn]. split; [done|].
        intros H. apply Hn. by inversion H.
    + split.
      * destruct (subreddit p); simpl in Hk; congruence.
      * intros H. inversion H as [|? ? [k' Hk'] _]. congruence.
Qed.

(** Filling in the averages divides by counts that are at least 1. *)
Lemma set_averages_spec (d : groups) :
  counted d →
  ∃ d', set_averages d = Ok d' ∧
        d'.*1 = d.*1 ∧
        sum_of count d' = sum_of count d ∧
        sum_of total_length d' = sum_of total_length d ∧
        counted d'.
Proof.
  unfold counted, sum_of. induction 1 as [|[k st] d Hst _ IH]; csimpl.
  - eexists. repeat split; done || constructor.
  - destruct IH as (d' & -> & Hk & Hc & Hl & Hcd). simpl in Hst.
    destruct (count st) as [|n] eqn:Hn; [lia|]. csimpl.
    eexists. split; [done|]. csimpl. rewrite Hk, Hc, Hl, ?Hn.
    repeat split; try done. constructor; [simpl; lia|done].
Qed.

(** C9: for the empty list the result is the empty dictionary, and no
    division by zero is ever attempted: whatever the list, no
    [ZeroDivisionError] is raised, and a result with statistics comes from
    a list that is not empty, each group holding at least one record. *)
Theorem calculate_stats_empty_and_safe :
  calculate_stats [] = Ok EmptyStats ∧
  (∀ posts, calculate_stats posts ≠ Raise ZeroDivisionError) ∧
  (∀ posts st, calculate_stats posts = Ok (Stats st) →
               posts ≠ [] ∧ 1 ≤ total_posts st ∧ counted (subreddit_stats st)).
Proof.
  split; [done|].
  assert (Hmain : ∀ posts,
    match calculate_stats posts with
    | Ok EmptyStats => posts = []
    | Ok (Stats st) =>
        posts ≠ [] ∧ 1 ≤ total_posts st ∧ counted (subreddit_stats st)
    | Raise e => e = TypeError
    end).
  { intros [|p posts]; [done|]. unfold calculate_stats.
    set (all := p :: posts).
    assert (length all = S (length posts)) as Hlen by done.
    rewrite Hlen. change (0 <? S (length posts)) with true.
    cbn [truediv mbind res_bind].
    pose proof (stats_loop_spec all []) as Hloop.
    destruct (stats_loop all []) as [d|e]; [|by destruct Hloop as [-> _]].
    destruct Hloop as (_ & _ & Hcounted & _).
    destruct (set_averages_spec d) as (d' & Hd' & _ & _ & _ & Hcd).
    { apply Hcounted. constructor. }
    cbn [mbind res_bind]. rewrite Hd'.
    simpl. repeat split; [done|lia|done]. }
  split.
  - intros posts H. specialize (Hmain posts). rewrite H in Hmain. done.
  - intros posts st H. specialize (Hmain posts). by rewrite H in Hmain.
Qed.

(** C6: for every list that is not empty the statistics that
    [calculate_stats] returns are consistent: the counts of the groups add
    up to [total_posts], the number of records, and their [total_length]s
    add up to the sum of all body lengths, of which [avg_body_length] is
    the quotient by [total_posts].  The statistics are returned whenever
    every subreddit can be a dictionary key, as every string can. *)
Theorem calculate_stats_totals (posts : list cleaned_post) :
  posts ≠ [] →
  (Forall (λ p, hashable (subreddit p)) posts →
   ∃ st, calculate_stats posts = Ok (Stats st)) ∧
  (∀ r, calculate_stats posts = Ok r →
   ∃ st, r = Stats st ∧
         total_posts st = length posts ∧
         sum_of count (subreddit_stats st) = total_posts st ∧
         sum_of total_length (subreddit_stats st) = total_body_length posts ∧
         avg_body_length st =
           Qmake (Z.of_nat (total_body_length posts))
                 (Pos.of_nat (total_posts st)) ∧
         NoDup (subreddit_stats st).*1).
Proof.
  intros Hne. destruct posts as [|p posts]; [done|].
  unfold calculate_stats. set (all := p :: posts) in *.
  assert (length all = S (length posts)) as Hlen by done.
  rewrite Hlen. change (0 <? S (length posts)) with true.
  cbn [truediv mbind res_bind].
  pose proof (stats_loop_spec all []) as Hloop.
  destruct (stats_loop all []) as [d|e].
  - destruct Hloop as (Hc & Hl & Hcounted & Hnd).
    destruct (set_averages_spec d) as (d' & Hd' & Hk & Hc' & Hl' & _).
    { apply Hcounted. constructor. }
    cbn [mbind res_bind]. rewrite Hd'. split; [eauto|].
    intros r [= <-]. eexists. split; [done|]. simpl.
    rewrite Hc', Hl', Hc, Hl, Hk, Hlen.
    repeat split; try done. apply Hnd. constructor.
  - destruct Hloop as [_ Hn]. split; [done|]. intros r Hr. discriminate Hr.
Qed.

(** The statistics of three posts of two subreddits. *)
Lemma calculate_stats_totals_witness :
  ∃ st,
    calculate_stats
      [ CleanedPost (VStr (txt "anxiety")) (txt "First") (txt "hello");
        CleanedPost (VStr (txt "sleep")) (txt "Second") (txt "good night");
        CleanedPost (VStr (txt "anxiety")) (txt "Third") (txt "thanks") ]
      = Ok (Stats st) ∧
    total_posts st = 3 ∧
    sum_of count (subreddit_stats st) = 3 ∧
    sum_of total_length (subreddit_stats st) = 21.
Proof.
  destruct (calculate_stats_totals
      [ CleanedPost (VStr (txt "anxiety")) (txt "First") (txt "hello");
        CleanedPost (VStr (txt "sleep")) (txt "Second") (txt "good night");
        CleanedPost (VStr (txt "anxiety")) (txt "Third") (txt "thanks") ])
    as [Hret Hsum].
  - discriminate.
  - destruct Hret as [st Hst].
    + repeat constructor; eexists; reflexivity.
    + destruct (Hsum _ Hst) as (st' & [= <-] & H1 & H2 & H3 & _).
      exists st. rewrite H2, H1, H3. repeat split; try reflexivity. exact Hst.
Defined.

(* ===================================================================== *)
(** * Further properties *)
(* ===================================================================== *)

(** ** The deduplicator *)

(** The fingerprints of the output of the loop: those of the input that
    had not been seen, each once. *)
Lemma dedup_loop_fingerprints l : ∀ seen,
  NoDup (fingerprint <$> (dedup_loop l seen [] 0).1) ∧
  ∀ f, f ∈ fingerprint <$> (dedup_loop l seen [] 0).1 ↔
       f ∈ fingerprint <$> l ∧ f ∉ seen.
Proof.
  induction l as [|p l IH]; intros seen; simpl.
  - split; [constructor|]. intros f. rewrite elem_of_nil. tauto.
  - fold (fingerprint p).
    destruct (IH ({[fingerprint p]} ∪ seen)) as [Hnd1 Hin1].
    destruct (IH seen) as [Hnd2 Hin2].
    case_bool_decide as Hp; rewrite dedup_loop_acc; csimpl.
    + split.
      * constructor; [|done]. rewrite Hin1. set_solver.
      * intros f. rewrite !elem_of_cons, Hin1.
        destruct (decide (f = fingerprint p)) as [->|Hne]; set_solver.
    + split; [done|]. intros f. rewrite elem_of_cons, Hin2.
      split; [tauto|]. intros [[->|?] ?]; done.
Qed.

Lemma dedup_loop_sublist l : ∀ seen,
  (dedup_loop l seen [] 0).1 `sublist_of` l.
Proof.
  induction l as [|p l IH]; intros seen; simpl; [done|].
  case_bool_decide; rewrite dedup_loop_acc; simpl.
  - by apply sublist_skip.
  - by apply sublist_cons.
Qed.

(** A list of records with distinct fingerprints, none of them seen,
    passes the loop unchanged. *)
Lemma dedup_loop_distinct l : ∀ seen,
  (dedup_loop l seen [] 0 = (l, 0)) ↔
  (NoDup (fingerprint <$> l) ∧ ∀ f, f ∈ fingerprint <$> l → f ∉ seen).
Proof.
  induction l as [|p l IH]; intros seen; csimpl.
  - split; [|done]. intros _. split; [constructor|]. by intros f ?%elem_of_nil.
  - fold (fingerprint p). rewrite NoDup_cons.
    case_bool_decide as Hp; rewrite dedup_loop_acc; csimpl.
    + specialize (IH ({[fingerprint p]} ∪ seen)).
      destruct (dedup_loop l _ [] 0) as [out n] eqn:Hloop. simpl. split.
      * intros [= -> ->]. destruct IH as [[Hnd Hin] _]; [done|].
        split; [split; [|done]|].
        -- intros Hf. apply Hin in Hf. set_solver.
        -- intros f [->|Hf]%elem_of_cons; [done|]. apply Hin in Hf. set_solver.
      * intros [[Hnp Hnd] Hin].
        assert ((out, n) = (l, 0)) as [= -> ->]; [|done].
        apply IH. split; [done|]. intros f Hf. specialize (Hin f).
        rewrite elem_of_cons in Hin. set_solver.
    + split.
      * intros [= Hout Hn]; lia.
      * intros [_ Hin]. exfalso. apply (Hin (fingerprint p)); [|done].
        apply list_elem_of_here.
Qed.

Lemma dedup_loop_none_removed l : ∀ seen,
  (dedup_loop l seen [] 0).2 = 0 → (dedup_loop l seen [] 0).1 = l.
Proof.
  induction l as [|p l IH]; intros seen; simpl; [done|].
  case_bool_decide; rewrite dedup_loop_acc; simpl.
  - intros H0. f_equal. by apply IH.
  - lia.
Qed.

(** X1: the output of the deduplicator is a subsequence of its input, its
    fingerprints are pairwise distinct, and every fingerprint of the input
    is the fingerprint of a record of the output. *)
Theorem deduplicate_posts_distinct_cover (posts : list cleaned_post) :
  (deduplicate_posts posts).1 `sublist_of` posts ∧
  NoDup (fingerprint <$> (deduplicate_posts posts).1) ∧
  ∀ f, f ∈ fingerprint <$> (deduplicate_posts posts).1 ↔
       f ∈ fingerprint <$> posts.
Proof.
  unfold deduplicate_posts.
  destruct (dedup_loop_fingerprints posts ∅) as [Hnd Hin].
  split; [apply dedup_loop_sublist|]. split; [done|].
  intros f. rewrite Hin. set_solver.
Qed.

(** X2: deduplicating a second time removes nothing: the output of the
    deduplicator passes through it unchanged, with a count of zero. *)
Theorem deduplicate_posts_idempotent (posts : list cleaned_post) :
  deduplicate_posts (deduplicate_posts posts).1
    = ((deduplicate_posts posts).1, 0).
Proof.
  unfold deduplicate_posts. apply dedup_loop_distinct.
  split; [apply dedup_loop_fingerprints|]. set_solver.
Qed.

(** X3: the deduplicator reports zero removals exactly when the
    fingerprints of the input are pairwise distinct, and then it returns
    the input as it is. *)
Theorem deduplicate_posts_nothing_removed (posts : list cleaned_post) :
  ((deduplicate_posts posts).2 = 0 ↔ NoDup (fingerprint <$> posts)) ∧
  ((deduplicate_posts posts).2 = 0 → (deduplicate_posts posts).1 = posts).
Proof.
  unfold deduplicate_posts.
  pose proof (dedup_loop_distinct posts ∅) as Hd.
  pose proof (dedup_loop_none_removed posts ∅) as Hn.
  split; [|done]. split.
  - intros H0.
    assert (dedup_loop posts ∅ [] 0 = (posts, 0)) as He.
    { specialize (Hn H0).
      destruct (dedup_loop posts ∅ [] 0) as [out n]. simpl in *. congruence. }
    by apply Hd in He as [? _].
  - intros Hnd. destruct Hd as [_ Hd]. rewrite Hd; [done|].
    split; [done|]. set_solver.
Qed.

(** ** Runs of a class and trimming *)

Lemma single_runs_collapse (p : ascii → bool) b (s : str) :
  p Char.SP = true → single_runs p b (collapse p b s) = true.
Proof.
  intros Hsp. revert b. induction s as [|c s IH]; intros b; [done|].
  cbn [collapse]. destruct (p c) eqn:Hc.
  - destruct b; [apply IH|]. cbn [single_runs]. rewrite Hsp, IH. done.
  - cbn [single_runs]. rewrite Hc. apply IH.
Qed.

Lemma collapse_single_runs (p : ascii → bool) b (s : str) :
  single_runs p b s = true → collapse p b s = s.
Proof.
  revert b. induction s as [|c s IH]; intros b; [done|].
  cbn [single_runs collapse]. destruct (p c) eqn:Hc.
  - intros [[Hsp Hb]%andb_true_iff Ht]%andb_true_iff.
    apply negb_true_iff in Hb. subst b. apply Ascii.eqb_eq in Hsp. subst c.
    by rewrite IH.
  - intros Ht. by rewrite IH.
Qed.

Lemma single_runs_prefix (p : ascii → bool) b (s k : str) :
  single_runs p b (s ++ k) = true → single_runs p b s = true.
Proof.
  revert b. induction s as [|c s IH]; intros b; [done|].
  cbn [app single_runs]. destruct (p c).
  - intros [H Hs]%andb_true_iff. by rewrite H, (IH true).
  - apply IH.
Qed.

Lemma single_runs_weaken (p : ascii → bool) (s : str) :
  single_runs p true s = true → single_runs p false s = true.
Proof.
  destruct s as [|c s]; [done|]. cbn [single_runs]. destruct (p c); [|done].
  by rewrite andb_false_r.
Qed.

Lemma single_runs_suffix (p : ascii → bool) (k s : str) b :
  single_runs p b (k ++ s) = true → single_runs p false s = true.
Proof.
  revert b. induction k as [|c k IH]; intros b.
  - destruct b; [apply single_runs_weaken|done].
  - cbn [app single_runs]. destruct (p c).
    + intros [_ H]%andb_true_iff. by apply (IH true).
    + apply IH.
Qed.

Lemma single_runs_strip (p : ascii → bool) (s : str) :
  single_runs p false s = true → single_runs p false (py_strip s) = true.
Proof.
  intros H. unfold py_strip.
  destruct (lstrip_suffix s) as [k Hk].
  destruct (rstrip_prefix (lstrip s)) as [k' Hk'].
  rewrite Hk in H. apply single_runs_suffix in H. rewrite Hk' in H.
  by apply single_runs_prefix in H.
Qed.

(** In a text with single runs a character of the class is a space, and no
    two spaces are neighbours. *)
Lemma single_runs_spec (p : ascii → bool) (s : str) b :
  p Char.SP = true → single_runs p b s = true →
  (∀ c, c ∈ s → p c = true → c = Char.SP) ∧
  (∀ a z, s ≠ a ++ Char.SP :: Char.SP :: z).
Proof.
  intros Hsp. revert b. induction s as [|c s IH]; intros b H.
  - split; [by intros c ?%elem_of_nil|]. intros [|] z; done.
  - cbn [single_runs] in H. destruct (p c) eqn:Hc.
    + apply andb_true_iff in H as [[Hc' Hb]%andb_true_iff H].
      apply Ascii.eqb_eq in Hc'. subst c.
      destruct (IH true H) as [IH1 IH2]. split.
      * intros d [->|Hd]%elem_of_cons; auto.
      * intros [|x a] z; simpl; intros [= Heq]; [|by eapply IH2].
        subst s. cbn [single_runs] in H. rewrite Hsp in H. by simpl in H.
    + destruct (IH false H) as [IH1 IH2]. split.
      * intros d [->|Hd]%elem_of_cons; [congruence|auto].
      * intros [|x a] z; simpl; intros [= Heq]; [congruence|by eapply IH2].
Qed.

Lemma elem_of_lstrip c (s : str) : c ∈ lstrip s → c ∈ s.
Proof.
  destruct (lstrip_suffix s) as [k Hk]. intros H. rewrite Hk.
  apply elem_of_app. by right.
Qed.

Lemma elem_of_rstrip c (s : str) : c ∈ rstrip s → c ∈ s.
Proof.
  destruct (rstrip_prefix s) as [k Hk]. intros H. rewrite Hk.
  apply elem_of_app. by left.
Qed.

Lemma elem_of_strip c (s : str) : c ∈ py_strip s → c ∈ s.
Proof. intros H. by apply elem_of_lstrip, elem_of_rstrip. Qed.

Lemma elem_of_collapse (p : ascii → bool) c (s : str) b :
  c ∈ collapse p b s → c = Char.SP ∨ (c ∈ s ∧ p c = false).
Proof.
  revert b. induction s as [|d s IH]; intros b; [by intros ?%elem_of_nil|].
  cbn [collapse]. destruct (p d) eqn:Hd.
  - destruct b.
    + intros [?|[? ?]]%IH; [by left|right].
      split; [by apply list_elem_of_further|done].
    + intros [->|[?|[? ?]]%IH]%elem_of_cons; [by left|by left|right].
      split; [by apply list_elem_of_further|done].
  - intros [->|[?|[? ?]]%IH]%elem_of_cons.
    + right. split; [apply list_elem_of_here|done].
    + by left.
    + right. split; [by apply list_elem_of_further|done].
Qed.

Lemma elem_of_keep (p : ascii → bool) c (s : str) :
  c ∈ keep p s → c ∈ s ∧ p c = true.
Proof.
  induction s as [|d s IH]; [by intros ?%elem_of_nil|].
  cbn [keep]. destruct (p d) eqn:Hd.
  - intros [->|[? ?]%IH]%elem_of_cons.
    + split; [apply list_elem_of_here|done].
    + split; [by apply list_elem_of_further|done].
  - intros [? ?]%IH. split; [by apply list_elem_of_further|done].
Qed.

Lemma keep_all (p : ascii → bool) (s : str) :
  Forall (λ c, p c = true) s → keep p s = s.
Proof. induction 1 as [|c s Hc _ IH]; simpl; [done|]. by rewrite Hc, IH. Qed.

(** ** The fingerprint *)

Lemma lower_lower c : Char.lower (Char.lower c) = Char.lower c.
Proof. by_chars c. Qed.

(** The shape of a fingerprint. *)
Lemma normalize_title_shape (t : str) :
  py_strip (normalize_title t) = normalize_title t ∧
  single_runs Char.is_space false (normalize_title t) = true ∧
  Forall (λ c, c = Char.SP ∨ (Char.is_word c = true ∧ Char.lower c = c))
         (normalize_title t).
Proof.
  rewrite normalize_title_spec. unfold fingerprint_of_title.
  split; [apply py_strip_idem|]. split.
  - by apply single_runs_strip, single_runs_collapse.
  - apply Forall_forall. intros c Hc.
    apply elem_of_strip, elem_of_collapse in Hc as [->|[Hc Hs]]; [by left|].
    right. apply elem_of_keep in Hc as [Hc Hw].
    unfold word_or_space in Hw. rewrite Hs, orb_false_r in Hw.
    split; [done|].
    unfold py_lower in Hc. apply list_elem_of_fmap in Hc as (d & -> & _).
    apply lower_lower.
Qed.

(** X4: a fingerprint consists of single spaces and of word characters in
    lower case, it neither begins nor ends with white space and holds no
    two spaces side by side. *)
Theorem normalize_title_form (t : str) :
  py_strip (normalize_title t) = normalize_title t ∧
  (∀ c, c ∈ normalize_title t →
        c = Char.SP ∨ (Char.is_word c = true ∧ Char.lower c = c)) ∧
  (∀ a z, normalize_title t ≠ a ++ Char.SP :: Char.SP :: z).
Proof.
  destruct (normalize_title_shape t) as (Hs & Hr & Hc).
  split; [done|]. split.
  - by apply Forall_forall.
  - exact (proj2 (single_runs_spec Char.is_space _ false eq_refl Hr)).
Qed.

(** X5: the fingerprint of a fingerprint is the fingerprint itself. *)
Theorem normalize_title_idempotent (t : str) :
  normalize_title (normalize_title t) = normalize_title t.
Proof.
  destruct (normalize_title_shape t) as (Hs & Hr & Hc).
  rewrite (normalize_title_spec (normalize_title t)).
  unfold fingerprint_of_title.
  assert (py_lower (normalize_title t) = normalize_title t) as ->.
  { clear Hs Hr. unfold py_lower.
    induction Hc as [|c s Hc _ IH]; [done|]. cbn [map]. rewrite IH. f_equal.
    destruct Hc as [->|[_ Hl]]; [reflexivity|done]. }
  rewrite keep_all.
  - by rewrite collapse_single_runs.
  - eapply Forall_impl; [exact Hc|]. intros c [->|[Hw _]]; [done|].
    unfold word_or_space. by rewrite Hw.
Qed.

(** ** The text normaliser *)

Lemma star_loop_bounded N (body : caps → str → cont → option mres) (k : cont) :
  (∀ k', bounded_cont N k' → bounded_cont N (λ g s, body g s k')) →
  bounded_cont N k →
  ∀ n, bounded_cont N (star_loop body k n).
Proof.
  intros Hb Hk n. induction n as [|n IH]; [exact Hk|].
  intros g s x HJ. simpl.
  destruct (body g s _) as [y|] eqn:E.
  - intros [= <-]. revert E. apply (Hb _); [|done].
    intros g' s' x' HJ'. destruct (length s' <? length s); [|done].
    by apply IH.
  - by apply Hk.
Qed.

(** The matcher keeps the text of group 1 within the text that it has
    passed. *)
Lemma rmatch_bounded N r :
  ∀ k, bounded_cont N k → bounded_cont N (λ g s, rmatch r g s k).
Proof.
  induction r as [|p|a IHa b IHb|a IHa b IHb|a IHa|a IHa]; intros k Hk.
  - exact Hk.
  - intros g [|c s] x HJ; simpl; [done|].
    destruct (p c); [|done]. apply Hk. simpl in HJ. lia.
  - simpl. apply IHa. by apply IHb.
  - intros g s x HJ. simpl.
    destruct (rmatch a g s k) as [y|] eqn:E.
    + intros [= <-]. by apply (IHa k Hk g s).
    + by apply (IHb k Hk g s).
  - intros g s x HJ. simpl. apply star_loop_bounded; [|done..].
    intros k' Hk'. by apply IHa.
  - intros g s x HJ. simpl. apply (IHa _); [|done].
    intros g' s' x' HJ'. apply Hk. simpl.
    rewrite length_take. lia.
Qed.

Lemma match_at_group_le r (s : str) n g :
  match_at r s = Some (n, g) → length (default [] g) ≤ n.
Proof.
  unfold match_at.
  destruct (rmatch r None s accept) as [[g' rest]|] eqn:E; [|done].
  intros [= <- <-].
  assert (bounded_cont (length s) accept) as Ha.
  { intros g0 s0 x HJ [= <-]. done. }
  pose proof (rmatch_bounded (length s) r accept Ha None s _
                (le_n _) E) as H.
  simpl in H. lia.
Qed.

(** A substitution whose replacements are no longer than the matches
    does not lengthen the text. *)
Lemma sub_length r repl :
  (∀ t n g, match_at r t = Some (n, g) → length (expand repl g) ≤ n) →
  ∀ s : str, length (Re.sub r repl s) ≤ length s.
Proof.
  intros Hr s.
  remember (length s) as m eqn:Hm. revert s Hm.
  induction m as [m IH] using lt_wf_ind. intros [|c s] ->.
  - unfold Re.sub. simpl.
    destruct (match_at r []) as [[n g]|] eqn:E; [|done].
    pose proof (Hr _ _ _ E). pose proof (match_at_le _ _ _ _ E) as Hn.
    simpl in *. lia.
  - rewrite sub_cons.
    destruct (match_at r (c :: s)) as [[[|n] g]|] eqn:E.
    + pose proof (Hr _ _ _ E) as He.
      rewrite length_app. simpl.
      pose proof (IH (length s) (Nat.lt_succ_diag_r _) s eq_refl). lia.
    + pose proof (Hr _ _ _ E) as He.
      pose proof (match_at_le _ _ _ _ E) as Hn. simpl in Hn.
      rewrite length_app.
      assert (length (drop n s) < length (c :: s)) as Hlt
        by (rewrite length_drop; simpl; lia).
      pose proof (IH _ Hlt (drop n s) eq_refl) as H.
      rewrite length_drop in H. simpl. lia.
    + simpl.
      pose proof (IH (length s) (Nat.lt_succ_diag_r _) s eq_refl). lia.
Qed.

Lemma lstrip_length (s : str) : length (lstrip s) ≤ length s.
Proof.
  destruct (lstrip_suffix s) as [k Hk]. rewrite Hk at 2.
  rewrite length_app. lia.
Qed.

Lemma rstrip_length (s : str) : length (rstrip s) ≤ length s.
Proof.
  destruct (rstrip_prefix s) as [k Hk]. rewrite Hk at 2.
  rewrite length_app. lia.
Qed.

Lemma clean_str_length (s : str) : length (clean_str s) ≤ length s.
Proof.
  unfold clean_str, py_strip.
  etrans; [apply rstrip_length|]. etrans; [apply lstrip_length|].
  etrans; [apply sub_length|].
  { intros t n g H. unfold Pat.blanks in H. rewrite match_at_plus_class in H.
    destruct t as [|c t]; [done|]. cbv beta in H.
    destruct (Ascii.eqb c Char.SP || Ascii.eqb c Char.TAB); [|done].
    injection H as <- <-. simpl. lia. }
  etrans; [apply sub_length|].
  { intros t n g H. apply match_at_blank_lines_some in H
      as (c & t' & n' & -> & -> & _). simpl. lia. }
  etrans; [apply sub_length|].
  { intros t n g H. apply match_at_group_le in H. simpl.
    by rewrite app_nil_r. }
  etrans; [apply sub_length|].
  { intros t n g H. apply match_at_group_le in H. simpl.
    by rewrite app_nil_r. }
  etrans; [apply sub_length|].
  { intros t n g H. apply match_at_group_le in H. simpl.
    by rewrite app_nil_r. }
  etrans; [apply sub_length|].
  { intros t n g H. simpl. lia. }
  apply sub_length. intros t n g H. simpl. lia.
Qed.

(** X6: the normaliser never lengthens a text: the result has at most as
    many characters as the text given, and none for a value that is not a
    string. *)
Theorem clean_text_never_longer (text : value) :
  length (clean_text text) ≤
    match text with
    | VStr s => length s
    | _ => 0
    end.
Proof.
  destruct text as [| | |[|c s]| |]; try done.
  apply clean_str_length.
Qed.

Lemma tidy_single_runs b (s : str) : tidy b s = single_runs blank b s.
Proof.
  revert b. induction s as [|c s IH]; intros b; [done|]. simpl.
  by rewrite !IH.
Qed.

Lemma nl_ahead_spaces (w z : str) :
  Forall (λ c, Char.is_space c = true) w → nl_ahead (w ++ Char.LF :: z) = true.
Proof.
  induction 1 as [|c w Hc _ IH]; [done|]. simpl.
  destruct (Ascii.eqb c Char.LF); [done|]. by rewrite Hc.
Qed.

(** The white space of every result of [clean_str]. *)
Lemma clean_str_blank (s : str) :
  nl_free (clean_str s) = true ∧
  tidy false (clean_str s) = true ∧
  py_strip (clean_str s) = clean_str s.
Proof.
  unfold clean_str.
  set (s2 := Re.sub Pat.strike _ _).
  set (s3 := Re.sub Pat.blank_lines [RLit [Char.LF]] s2).
  set (s4 := Re.sub Pat.blanks [RLit [Char.SP]] s3).
  assert (N4 : nl_free s4 = true).
  { unfold s4. rewrite sub_blanks. apply nl_free_collapse, nl_free_sub. }
  assert (T4 : tidy false s4 = true).
  { unfold s4. rewrite sub_blanks. apply tidy_collapse. }
  clearbody s4. clear -N4 T4.
  destruct (lstrip_suffix s4) as [k Hk].
  destruct (rstrip_prefix (lstrip s4)) as [k' Hk'].
  unfold py_strip. repeat split.
  - rewrite Hk in N4. apply nl_free_app in N4. rewrite Hk' in N4.
    by apply nl_free_prefix in N4.
  - apply tidy_lstrip in T4. rewrite Hk' in T4. by apply tidy_prefix in T4.
  - apply py_strip_idem.
Qed.

Lemma clean_text_blank (text : value) :
  nl_free (clean_text text) = true ∧
  tidy false (clean_text text) = true ∧
  py_strip (clean_text text) = clean_text text.
Proof.
  destruct text as [| | |[|c s]| |]; try done.
  apply clean_str_blank.
Qed.

(** X7: whatever the value given, the result of the normaliser neither
    begins nor ends with white space, holds no tabulator and no two spaces
    side by side, and no two line feeds with nothing but white space
    between them. *)
Theorem clean_text_white_space (text : value) :
  py_strip (clean_text text) = clean_text text ∧
  (Char.TAB ∉ clean_text text) ∧
  (∀ a z, clean_text text ≠ a ++ Char.SP :: Char.SP :: z) ∧
  (∀ a w z, Forall (λ c, Char.is_space c = true) w →
            clean_text text ≠ a ++ Char.LF :: w ++ Char.LF :: z).
Proof.
  destruct (clean_text_blank text) as (Hn & Ht & Hs).
  rewrite tidy_single_runs in Ht.
  destruct (single_runs_spec blank _ false eq_refl Ht) as [Hc Hr].
  repeat split; [done| |done|].
  - intros Hin. by specialize (Hc _ Hin eq_refl).
  - intros a w z Hw E. rewrite E in Hn.
    apply nl_free_app in Hn. simpl in Hn.
    by rewrite nl_ahead_spaces in Hn.
Qed.

(** X8: on a text without asterisks and tildes the result of the
    normaliser holds no URL: neither of the two URL patterns matches at
    any position of it. *)
Theorem clean_text_no_url (s t : str) :
  Forall (λ c, plain c = true) s →
  t `suffix_of` clean_text (VStr s) →
  match_at Pat.http_url t = None ∧ match_at Pat.www_url t = None.
Proof.
  intros Hs Ht.
  destruct s as [|c s].
  { destruct Ht as [k Hk]. by destruct k, t. }
  cbn [clean_text] in Ht.
  destruct (clean_str_normal (c :: s) Hs) as (Hh & Hw & _).
  split.
  - by apply (url_free_no_match _ _ rmatch_http (clean_str (c :: s))).
  - by apply (url_free_no_match _ _ rmatch_www (clean_str (c :: s))).
Qed.

Lemma clean_text_no_url_witness :
  match_at Pat.http_url (clean_text (VStr (txt "see http://a.b/c now"))) = None ∧
  match_at Pat.www_url (clean_text (VStr (txt "see http://a.b/c now"))) = None.
Proof.
  apply (clean_text_no_url (txt "see http://a.b/c now")).
  - repeat (constructor; [reflexivity|]). constructor.
  - done.
Defined.

(** ** The validator and the processor *)





Lemma as_dict_get (c : cleaned_post) :
  dict_get (as_dict c) "subreddit" (VStr (txt "unknown")) = subreddit c ∧
  dict_get (as_dict c) "title" (VStr []) = VStr (title c) ∧
  dict_get (as_dict c) "body" (VStr []) = VStr (body c).
Proof.
  unfold dict_get, as_dict. by repeat split.
Qed.

(** The processor in one formula: it never raises, and it decides on the
    cleaned fields. *)
Lemma process_post_eq (p : post) :
  let c := {| subreddit := dict_get p "subreddit" (VStr (txt "unknown"));
              title := clean_text (dict_get p "title" (VStr []));
              body := clean_text (dict_get p "body" (VStr [])) |} in
  process_post p =
    Ok (if negb (has_marker (body c)) && (5 <=? length (body c))
           && negb (bool_decide (title c = []))
        then Some c else None).
Proof.
  intros c. unfold process_post. fold c.
  destruct (as_dict_get c) as (_ & Ht & Hb).
  rewrite (is_valid_post_strings _ MIN_BODY_LEN _ _ Hb Ht). cbn [mbind res_bind].
  destruct (clean_text_blank (dict_get p "title" (VStr []))) as (_ & _ & Hst).
  destruct (clean_text_blank (dict_get p "body" (VStr []))) as (_ & _ & Hsb).
  subst c. cbn [title body] in *. rewrite Hst, Hsb.
  assert ((MIN_BODY_LEN <=? Z.of_nat (length (clean_text (dict_get p "body" (VStr [])))))%Z
          = (5 <=? length (clean_text (dict_get p "body" (VStr []))))) as ->.
  { unfold MIN_BODY_LEN. destruct (Nat.leb_spec 5 (length (clean_text (dict_get p "body" (VStr []))))).
    - apply Z.leb_le. lia.
    - apply Z.leb_gt. lia. }
  by destruct (_ && _ && _).
Qed.

(** X10: the processor raises on no post, whatever values its fields
    hold; and a record that it returns has the subreddit of the post (or
    "unknown"), a title that is not empty, a body of at least five
    characters without a marker, and passes the validator. *)
Theorem process_post_never_raises (p : post) :
  ∃ r, process_post p = Ok r ∧
       ∀ c, r = Some c →
            subreddit c = dict_get p "subreddit" (VStr (txt "unknown")) ∧
            title c = clean_text (dict_get p "title" (VStr [])) ∧
            body c = clean_text (dict_get p "body" (VStr [])) ∧
            title c ≠ [] ∧
            5 ≤ length (body c) ∧
            has_marker (body c) = false ∧
            is_valid_post (as_dict c) MIN_BODY_LEN = Ok true.
Proof.
  pose proof (process_post_eq p) as H. cbv zeta in H. cbn [title body] in H.
  destruct (clean_text_blank (dict_get p "title" (VStr []))) as (_ & _ & Hst).
  destruct (clean_text_blank (dict_get p "body" (VStr []))) as (_ & _ & Hsb).
  set (t := clean_text (dict_get p "title" (VStr []))) in *.
  set (b := clean_text (dict_get p "body" (VStr []))) in *.
  destruct (has_marker b) eqn:Hm; [by exists None|].
  destruct (5 <=? length b) eqn:Hl; [|by exists None].
  destruct (bool_decide (t = [])) eqn:Ht; [by exists None|].
  cbn in H. eexists. split; [exact H|].
  intros c [= <-]. cbn [subreddit title body].
  apply bool_decide_eq_false in Ht. apply Nat.leb_le in Hl.
  repeat split; try done.
  set (c := CleanedPost _ _ _).
  destruct (as_dict_get c) as (_ & Ht' & Hb').
  rewrite (is_valid_post_strings _ MIN_BODY_LEN _ _ Hb' Ht').
  subst c. cbn [title body]. rewrite Hst, Hsb, Hm.
  rewrite bool_decide_eq_false_2 by done.
  assert ((MIN_BODY_LEN <=? Z.of_nat (length b))%Z = true) as ->; [|done].
  apply Z.leb_le. unfold MIN_BODY_LEN. lia.
Qed.

(** X11: a record that the processor returns for a post without asterisks
    and tildes in its title and body is returned unchanged when it is
    processed again. *)
Theorem process_post_again (p : post) (c : cleaned_post) :
  (∀ s, dict_get p "title" (VStr []) = VStr s → Forall (λ c, plain c = true) s) →
  (∀ s, dict_get p "body" (VStr []) = VStr s → Forall (λ c, plain c = true) s) →
  process_post p = Ok (Some c) →
  process_post (as_dict c) = Ok (Some c).
Proof.
  intros Hpt Hpb Hp.
  assert (∀ v, (∀ s, v = VStr s → Forall (λ c, plain c = true) s) →
               clean_text (VStr (clean_text v)) = clean_text v) as Hidem.
  { intros v Hv. destruct v as [| | |[|d s]| |]; try done.
    pose proof (clean_str_normal (d :: s) (Hv _ eq_refl)) as Hn.
    cbn [clean_text]. destruct (clean_str (d :: s)) as [|e y] eqn:Hy; [done|].
    cbn [clean_text]. by apply clean_str_fixed. }
  pose proof (process_post_eq p) as H. cbv zeta in H. rewrite Hp in H.
  pose proof (process_post_eq (as_dict c)) as H'. cbv zeta in H'.
  rewrite H'. clear H'.
  destruct (as_dict_get c) as (Hs & Ht & Hb). rewrite Hs, Ht, Hb.
  cbn [title body] in *.
  destruct (_ && _ && _) eqn:E in H; [|done].
  injection H as ->. cbn [title body subreddit] in *.
  rewrite !Hidem by done. by rewrite E.
Qed.

Lemma process_post_again_witness :
  process_post (as_dict (CleanedPost (VStr (txt "unknown")) (txt "Help")
                                     (txt "I can not sleep")))
    = Ok (Some (CleanedPost (VStr (txt "unknown")) (txt "Help")
                            (txt "I can not sleep"))).
Proof.
  apply (process_post_again
           {[ "title" := VStr (txt " Help ");
              "body" := VStr (txt "I can  not sleep") ]}).
  - intros s [= <-]. repeat (constructor; [reflexivity|]). constructor.
  - intros s [= <-]. repeat (constructor; [reflexivity|]). constructor.
  - by vm_compute.
Defined.

(** ** The statistics *)

Lemma dd_get_update (f : group_stats → group_stats) (k k' : key) (d : groups) :
  dd_get k (dd_update f k' d) =
    if decide (k = k') then Some (f (default default_group (dd_get k d)))
    else dd_get k d.
Proof.
  induction d as [|[k'' st] d IH]; simpl.
  - by repeat case_decide.
  - repeat (case_decide; simpl; subst); try done.
    all: rewrite IH; by repeat case_decide.
Qed.

Lemma dd_get_elem (k : key) (g : group_stats) (d : groups) :
  NoDup d.*1 → (k, g) ∈ d ↔ dd_get k d = Some g.
Proof.
  induction d as [|[k' st] d IH]; csimpl; intros Hnd.
  - split; [by intros ?%elem_of_nil|done].
  - apply NoDup_cons in Hnd as [Hk' Hnd]. rewrite elem_of_cons, (IH Hnd).
    case_decide as Hk; subst.
    + split; [|intros [= <-]; by left].
      intros [[= <-]|Hg]; [done|].
      apply IH in Hg; [|done]. destruct Hk'.
      apply list_elem_of_fmap. by exists (k', g).
    + split; [|by right]. intros [[= ? ?]|?]; done.
Qed.

Lemma group_of_cons (k : key) (p : cleaned_post) (posts : list cleaned_post) :
  group_of k (p :: posts) =
    if decide (hash_key (subreddit p) = Ok k) then p :: group_of k posts
    else group_of k posts.
Proof. unfold group_of. by rewrite filter_cons. Qed.

(** The loop over the posts, group by group: the entry of a key grows by
    the number and by the body lengths of the records of that key. *)
Lemma stats_loop_group posts : ∀ (d d' : groups) (k : key),
  stats_loop posts d = Ok d' →
  dd_get k d' =
    if decide (group_of k posts = []) then dd_get k d
    else Some (add_length (total_body_length (group_of k posts))
                 (add_count (length (group_of k posts))
                    (default default_group (dd_get k d)))).
Proof.
  induction posts as [|p posts IH]; intros d d' k; simpl.
  - by intros [= <-].
  - destruct (hash_key (subreddit p)) as [kp|e] eqn:Hk; [|done]. simpl.
    intros H. rewrite (IH _ _ k H), group_of_cons, Hk, !dd_get_update.
    destruct (decide (k = kp)) as [->|Hne].
    + rewrite (decide_True (P := Ok kp = Ok kp)) by done.
      rewrite (decide_False (P := _ :: _ = [])) by done.
      unfold total_body_length. simpl.
      case_decide as He; [rewrite He|]; simpl.
      all: f_equal; unfold add_length, add_count; simpl; f_equal; lia.
    + rewrite (decide_False (P := Ok kp = Ok k)) by congruence. done.
Qed.

Lemma set_averages_get (d d' : groups) (k : key) :
  set_averages d = Ok d' →
  dd_get k d' =
    (λ st, {| count := count st;
              total_length := total_length st;
              avg_length := Some (Qmake (Z.of_nat (total_length st))
                                        (Pos.of_nat (count st))) |})
      <$> dd_get k d.
Proof.
  revert d'. induction d as [|[k' st] d IH]; intros d'; simpl.
  - by intros [= <-].
  - destruct (count st) as [|n] eqn:Hn; [done|]. simpl.
    destruct (set_averages d) as [d''|e]; [|done]. simpl.
    intros [= <-]. simpl. case_decide; [simpl; by rewrite Hn|]. by apply IH.
Qed.

Lemma stats_loop_ok posts : ∀ d d' : groups,
  stats_loop posts d = Ok d' → Forall (λ p, hashable (subreddit p)) posts.
Proof.
  induction posts as [|p posts IH]; intros d d'; simpl; [done|].
  destruct (hash_key (subreddit p)) as [k|e] eqn:Hk; [|done]. simpl.
  intros H. constructor; [by exists k|]. by eapply IH.
Qed.

Lemma hashable_iff (v : value) : hashable v ↔ ¬ unhashable v.
Proof.
  unfold hashable. destruct v; simpl; split; try done; eauto.
  all: intros [k Hk]; done.
Qed.

(** X13: [calculate_stats] fails exactly when the subreddit of some record
    is a list or a dictionary, and then with a [TypeError]; in every
    other case it returns. *)
Theorem calculate_stats_raises_iff (posts : list cleaned_post) :
  (calculate_stats posts = Raise TypeError ↔
   ∃ p, p ∈ posts ∧ unhashable (subreddit p)) ∧
  ((∃ r, calculate_stats posts = Ok r) ↔
   ∀ p, p ∈ posts → ¬ unhashable (subreddit p)) ∧
  (∀ e, calculate_stats posts = Raise e → e = TypeError).
Proof.
  assert (Forall (λ p, hashable (subreddit p)) posts ↔
          ∀ p, p ∈ posts → ¬ unhashable (subreddit p)) as Hall.
  { rewrite Forall_forall. by setoid_rewrite hashable_iff. }
  assert ((∃ p, p ∈ posts ∧ unhashable (subreddit p)) ↔
          ¬ Forall (λ p, hashable (subreddit p)) posts) as Hex.
  { split.
    - intros (p & Hp & Hu) HF. rewrite Forall_forall in HF.
      apply HF, hashable_iff in Hp. done.
    - clear Hall. induction posts as [|p posts IH]; intros HnF.
      + destruct HnF. constructor.
      + destruct (decide (hashable (subreddit p))) as [Hp|Hp].
        * destruct IH as (q & Hq & Hu).
          { intros HF. apply HnF. by constructor. }
          exists q. split; [by apply list_elem_of_further|done].
        * exists p. split; [apply list_elem_of_here|].
          destruct (subreddit p); try done; destruct Hp; by eexists. }
  assert (match calculate_stats posts with
          | Ok _ => Forall (λ p, hashable (subreddit p)) posts
          | Raise e => e = TypeError ∧
                       ¬ Forall (λ p, hashable (subreddit p)) posts
          end) as H.
  { clear Hall Hex. destruct posts as [|p posts]; [simpl; constructor|].
    unfold calculate_stats. set (all := p :: posts) in *.
    assert (length all = S (length posts)) as Hlen by done.
    rewrite Hlen. change (0 <? S (length posts)) with true.
    cbn [truediv mbind res_bind].
    pose proof (stats_loop_spec all []) as Hloop.
    destruct (stats_loop all []) as [d|e] eqn:Hd; [|done].
    destruct Hloop as (_ & _ & Hcounted & _).
    destruct (set_averages_spec d) as (d' & Hd' & _).
    { apply Hcounted. constructor. }
    cbn [mbind res_bind]. rewrite Hd'. cbn [mbind res_bind].
    by eapply stats_loop_ok. }
  rewrite Hex, <-Hall. destruct (calculate_stats posts) as [r|e].
  - repeat split; try done. eauto.
  - destruct H as [-> H]. repeat split; try done.
    + by intros [r ?].
    + by intros ? [= <-].
Qed.

(** ** The pipeline *)

Lemma extract_posts_cons data rest acc :
  extract_posts (data :: rest) acc =
    items ← document_posts data; extract_posts rest (acc ++ items).
Proof.
  unfold document_posts. cbn [extract_posts].
  by destruct (get_method data "posts" (VList [])) as [posts|e].
Qed.

Lemma document_posts_error data e :
  document_posts data = Raise e → e = AttributeError ∨ e = TypeError.
Proof.
  unfold document_posts, get_method.
  destruct data as [| | | | |d]; cbn [mbind res_bind];
    try (intros [= <-]; by left).
  destruct (dict_get _ _ _); simpl; intros [= <-]; by right.
Qed.

(** The loop that extracts the posts: it appends the posts of the
    documents, one document after the other, and fails at the first
    document that is no object or whose posts cannot be iterated. *)
Lemma extract_posts_spec docs : ∀ acc,
  match extract_posts docs acc with
  | Ok all =>
      all = acc ++ (docs ≫= posts_of) ∧
      (Forall well_shaped docs ↔ Forall is_object (docs ≫= posts_of))
  | Raise e =>
      (e = AttributeError ∨ e = TypeError) ∧ ¬ Forall well_shaped docs
  end.
Proof.
  induction docs as [|data rest IH]; intros acc.
  - simpl. split; [by rewrite app_nil_r|]. split; constructor.
  - rewrite extract_posts_cons.
    destruct (document_posts data) as [items|e] eqn:E; cbn [mbind res_bind].
    + assert (posts_of data = items) as Hp
        by (unfold posts_of; by rewrite E).
      assert (well_shaped data ↔ Forall is_object items) as Hw
        by (unfold well_shaped; by rewrite E).
      specialize (IH (acc ++ items)).
      destruct (extract_posts rest (acc ++ items)) as [all|e'].
      * destruct IH as [-> IH].
        rewrite bind_cons, Forall_cons, Forall_app, IH, Hp, Hw.
        split; [by rewrite app_assoc|done].
      * destruct IH as [He Hn]. split; [done|].
        rewrite Forall_cons. by intros [_ ?].
    + split; [by eapply document_posts_error|].
      rewrite Forall_cons. unfold well_shaped at 1. rewrite E. by intros [? _].
Qed.

Lemma process_value_object v : is_object v → ∃ r, process_value v = Ok r.
Proof.
  destruct v as [| | | | |d]; try done. intros _. cbn [process_value].
  pose proof (process_post_eq (dict_of d)) as H. cbv zeta in H.
  rewrite H. eauto.
Qed.

Lemma process_value_raises v e :
  process_value v = Raise e → e = AttributeError ∧ ¬ is_object v.
Proof.
  intros H. destruct (decide (is_object v)) as [Ho|Ho].
  - destruct (process_value_object v Ho) as [r Hr]. congruence.
  - split; [|done]. destruct v; simpl in *; try congruence. by destruct Ho.
Qed.

Lemma process_value_ok v r : process_value v = Ok r → is_object v.
Proof. destruct v; simpl; done. Qed.

(** The loop that cleans the posts: it keeps the accepted records in their
    order, counts the others, and fails at the first element that is no
    object. *)
Lemma clean_loop_spec l : ∀ acc sk,
  match clean_loop l acc sk with
  | Ok r =>
      Forall is_object l ∧
      r.1 = acc ++ omap accepted l ∧
      r.2 + length (omap accepted l) = sk + length l
  | Raise e => e = AttributeError ∧ ¬ Forall is_object l
  end.
Proof.
  induction l as [|v l IH]; intros acc sk.
  - simpl. split; [constructor|]. split; [by rewrite app_nil_r|lia].
  - cbn [clean_loop omap list_omap].
    destruct (process_value v) as [[c|]|e] eqn:E; cbn [mbind res_bind].
    + assert (accepted v = Some c) as -> by (unfold accepted; by rewrite E).
      specialize (IH (acc ++ [c]) sk).
      destruct (clean_loop l (acc ++ [c]) sk) as [r|e'].
      * destruct IH as (Ho & H1 & H2). split.
        { constructor; [by eapply process_value_ok|done]. }
        split; [by rewrite H1, <-app_assoc|]. simpl. lia.
      * destruct IH as [-> Hn]. split; [done|]. intros H. apply Hn.
        by inversion H.
    + assert (accepted v = None) as -> by (unfold accepted; by rewrite E).
      specialize (IH acc (sk + 1)).
      destruct (clean_loop l acc (sk + 1)) as [r|e'].
      * destruct IH as (Ho & H1 & H2). split.
        { constructor; [by eapply process_value_ok|done]. }
        split; [done|]. simpl. lia.
      * destruct IH as [-> Hn]. split; [done|]. intros H. apply Hn.
        by inversion H.
    + apply process_value_raises in E as [-> Hn]. split; [done|].
      intros H. apply Hn. by inversion H.
Qed.

Lemma omap_accepted_length (l : list value) :
  length (omap accepted l) ≤ length l.
Proof.
  induction l as [|v l IH]; [done|]. cbn [omap list_omap].
  destruct (accepted v); simpl; lia.
Qed.

(** An accepted record. *)
Lemma accepted_spec v c :
  accepted v = Some c →
  is_object v ∧ title c ≠ [] ∧ 5 ≤ length (body c) ∧
  has_marker (body c) = false ∧
  py_strip (title c) = title c ∧ py_strip (body c) = body c.
Proof.
  unfold accepted. destruct (process_value v) as [[c'|]|e] eqn:E; try done.
  intros [= ->]. split; [by eapply process_value_ok|].
  destruct v as [| | | | |d]; try done. cbn [process_value] in E.
  pose proof (process_post_eq (dict_of d)) as H. cbv zeta in H.
  rewrite H in E. clear H. cbn [title body] in E.
  destruct (clean_text_blank (dict_get (dict_of d) "title" (VStr [])))
    as (_ & _ & Hst).
  destruct (clean_text_blank (dict_get (dict_of d) "body" (VStr [])))
    as (_ & _ & Hsb).
  destruct (has_marker _) eqn:Hm; [done|].
  destruct (5 <=? _) eqn:Hl; [|done].
  destruct (bool_decide _) eqn:Ht; [done|].
  cbn in E. injection E as <-. cbn [title body].
  apply bool_decide_eq_false in Ht. apply Nat.leb_le in Hl. done.
Qed.

Lemma dedup_loop_length l : ∀ seen u d,
  length (dedup_loop l seen u d).1 + (dedup_loop l seen u d).2
    = length u + d + length l.
Proof.
  induction l as [|p l IH]; intros seen u d; simpl; [lia|].
  case_bool_decide; rewrite IH, ?length_app; simpl; lia.
Qed.

Lemma insert_by_count_perm e (l : groups) : insert_by_count e l ≡ₚ e :: l.
Proof.
  induction l as [|e' l IH]; simpl; [done|].
  destruct (count e'.2 <=? count e.2); [done|].
  rewrite IH. apply Permutation_swap.
Qed.

Lemma sorted_by_count_perm (d : groups) : sorted_by_count d ≡ₚ d.
Proof.
  induction d as [|e d IH]; simpl; [done|].
  rewrite insert_by_count_perm. by f_equiv.
Qed.

(** The lines of the subreddits are printed when every key is a string;
    the first key that is none raises. *)
Lemma print_groups_spec (l : groups) :
  match print_groups l with
  | Return _ => Forall (λ e, is_name e.1) l
  | Crash e =>
      (e = Exn TypeError ∨ e = ValueError) ∧ ¬ Forall (λ e, is_name e.1) l
  end.
Proof.
  induction l as [|[k g] l IH]; simpl; [constructor|].
  destruct k as [|z|s]; simpl.
  - split; [by left|]. intros H. by inversion H.
  - split; [by right|]. intros H. by inversion H.
  - destruct (print_groups l) as [[]|e].
    + by constructor.
    + destruct IH as [He Hn]. split; [done|]. intros H. apply Hn.
      by inversion H.
Qed.

Lemma dd_get_keys (k : key) (d : groups) : k ∈ d.*1 ↔ is_Some (dd_get k d).
Proof.
  induction d as [|[k' st] d IH]; csimpl.
  - split; [by intros ?%elem_of_nil|by intros [? ?]].
  - rewrite elem_of_cons, IH. case_decide as Hk; [subst|].
    + split; eauto.
    + split; [by intros [?|?]|by right].
Qed.

Lemma group_of_nonempty (k : key) (posts : list cleaned_post) :
  group_of k posts ≠ [] ↔ ∃ p, p ∈ posts ∧ hash_key (subreddit p) = Ok k.
Proof.
  unfold group_of. split.
  - intros H. destruct (filter _ posts) as [|p l] eqn:E; [done|].
    assert (p ∈ filter (λ p, hash_key (subreddit p) = Ok k) posts) as Hp
      by (rewrite E; apply list_elem_of_here).
    apply list_elem_of_filter in Hp as [? ?]. eauto.
  - intros (p & Hp & Hk) E.
    assert (p ∈ filter (λ p, hash_key (subreddit p) = Ok k) posts) as Hin
      by by apply list_elem_of_filter.
    rewrite E in Hin. by apply elem_of_nil in Hin.
Qed.

(** The three ways in which [calculate_stats] ends. *)
Lemma calculate_stats_cases (posts : list cleaned_post) :
  match calculate_stats posts with
  | Ok EmptyStats => posts = []
  | Ok (Stats st) =>
      ∃ d, stats_loop posts [] = Ok d ∧
           set_averages d = Ok (subreddit_stats st)
  | Raise e =>
      e = TypeError ∧ ¬ Forall (λ p, hashable (subreddit p)) posts
  end.
Proof.
  destruct posts as [|p posts]; [done|].
  unfold calculate_stats. set (all := p :: posts) in *.
  assert (length all = S (length posts)) as Hlen by done.
  rewrite Hlen. change (0 <? S (length posts)) with true.
  cbn [truediv mbind res_bind].
  pose proof (stats_loop_spec all []) as Hloop.
  destruct (stats_loop all []) as [d|e] eqn:Hd; [|done].
  destruct Hloop as (_ & _ & Hcounted & _).
  destruct (set_averages_spec d) as (d' & Hd' & _).
  { apply Hcounted. constructor. }
  cbn [mbind res_bind]. rewrite Hd'. cbn [mbind res_bind subreddit_stats].
  eauto.
Qed.

(** The keys of the groups are the subreddits of the records. *)
Lemma calculate_stats_keys (posts : list cleaned_post) (st : stats) (k : key) :
  calculate_stats posts = Ok (Stats st) →
  k ∈ (subreddit_stats st).*1 ↔
  ∃ p, p ∈ posts ∧ hash_key (subreddit p) = Ok k.
Proof.
  intros H. pose proof (calculate_stats_cases posts) as Hc. rewrite H in Hc.
  destruct Hc as (d & Hd & Hd').
  rewrite dd_get_keys, (set_averages_get d _ k Hd'),
    (stats_loop_group posts [] d k Hd), <-group_of_nonempty.
  simpl. case_decide as He; simpl.
  - split; [by intros [? ?]|done].
  - split; [done|eauto].
Qed.

Lemma named_key (c : cleaned_post) (k : key) :
  hash_key (subreddit c) = Ok k → named c ↔ is_name k.
Proof. unfold named. destruct (subreddit c); simpl; intros [= <-]; done. Qed.

Lemma named_hashable (c : cleaned_post) : named c → hashable (subreddit c).
Proof. unfold named, hashable. destruct (subreddit c); try done. eauto. Qed.

(** The report of the statistics is printed exactly when the subreddit of
    every record is a string. *)
Lemma print_stats_spec (posts : list cleaned_post) (s : stats_result) :
  calculate_stats posts = Ok s →
  match print_stats s with
  | Return _ => Forall named posts
  | Crash e => (e = Exn TypeError ∨ e = ValueError) ∧ ¬ Forall named posts
  end.
Proof.
  intros H. pose proof (calculate_stats_cases posts) as Hc. rewrite H in Hc.
  destruct s as [|st]; [subst; simpl; constructor|].
  destruct Hc as (d & Hd & _).
  assert (Forall (λ e, is_name e.1) (sorted_by_count (subreddit_stats st))
          ↔ Forall named posts) as Hiff.
  { rewrite sorted_by_count_perm, !Forall_forall. split.
    - intros Hn p Hp.
      pose proof (stats_loop_ok _ _ _ Hd) as Hh.
      rewrite Forall_forall in Hh. destruct (Hh p Hp) as [k Hk].
      apply (named_key p k Hk).
      assert (k ∈ (subreddit_stats st).*1) as Hin
        by (apply (calculate_stats_keys posts st k H); eauto).
      apply list_elem_of_fmap in Hin as ([k' g] & -> & Hin).
      by apply (Hn (k', g)).
    - intros Hn [k g] Hin.
      assert (k ∈ (subreddit_stats st).*1) as Hk
        by (apply list_elem_of_fmap; by exists (k, g)).
      apply (calculate_stats_keys posts st k H) in Hk as (p & Hp & Hk).
      apply (named_key p k Hk). by apply Hn. }
  simpl. pose proof (print_groups_spec (sorted_by_count (subreddit_stats st)))
    as Hp.
  destruct (print_groups _) as [[]|e].
  - by apply Hiff.
  - destruct Hp as [He Hn]. split; [done|]. by rewrite <-Hiff.
Qed.

(** The run behind the loading of the documents: what it reports, and
    when it ends in an exception. *)
Lemma process_documents_spec (docs : list value) (writable : bool) :
  match process_documents docs writable with
  | Return o =>
      Forall well_shaped docs ∧ Forall named (dataset_of docs) ∧
      o = finish writable (report_of docs)
  | Crash e =>
      (¬ Forall well_shaped docs ∧
       (e = Exn AttributeError ∨ e = Exn TypeError)) ∨
      (Forall well_shaped docs ∧ ¬ Forall named (dataset_of docs) ∧
       (e = Exn TypeError ∨ e = ValueError))
  end.
Proof.
  unfold process_documents.
  pose proof (extract_posts_spec docs []) as He.
  destruct (extract_posts docs []) as [all|e]; cbn [lift mbind run_bind].
  2: { left. destruct He as [[-> | ->] Hn]; eauto. }
  destruct He as [-> Hws]. rewrite app_nil_l.
  pose proof (clean_loop_spec (docs ≫= posts_of) [] 0) as Hc.
  destruct (clean_loop (docs ≫= posts_of) [] 0) as [[cl sk]|e];
    cbn [lift mbind run_bind].
  2: { left. destruct Hc as [-> Hn]. rewrite Hws. eauto. }
  destruct Hc as (Hobj & Hcl & Hsk). cbn [fst snd] in *.
  rewrite app_nil_l in Hcl. subst cl. apply Hws in Hobj.
  fold (cleaned_of docs) in *. unfold REMOVE_DUPLICATES. cbn [fst snd].
  fold (dataset_of docs).
  pose proof (calculate_stats_cases (dataset_of docs)) as Hs.
  destruct (calculate_stats (dataset_of docs)) as [s|e] eqn:Es;
    cbn [lift mbind run_bind].
  2: { right. destruct Hs as [-> Hn]. split; [done|]. split; [|by left].
       intros H. apply Hn. eapply Forall_impl; [exact H|].
       intros c. apply named_hashable. }
  pose proof (print_stats_spec _ _ Es) as Hp.
  destruct (print_stats s) as [[]|e]; cbn [mbind run_bind].
  - split; [done|]. split; [done|].
    unfold finish, report_of.
    pose proof (dedup_loop_length (cleaned_of docs) ∅ [] 0) as Hd.
    fold (deduplicate_posts (cleaned_of docs)) in Hd.
    fold (dataset_of docs) in Hd. simpl in Hd.
    assert (sk = length (docs ≫= posts_of) - length (cleaned_of docs)) as ->
      by lia.
    assert ((deduplicate_posts (cleaned_of docs)).2
            = length (cleaned_of docs) - length (dataset_of docs)) as ->
      by lia.
    done.
  - right. by destruct Hp.
Qed.

Lemma main_eq (w : world) :
  input_dir_exists w = true → load_json_files (json_files w) ≠ [] →
  main w =
    match process_documents (load_json_files (json_files w))
                            (output_writable w) with
    | Return o => o
    | Crash e => Crashed e
    end.
Proof.
  intros He Hn. unfold main. rewrite He. simpl.
  by destruct (load_json_files (json_files w)).
Qed.

Lemma load_json_files_length (files : list (option value)) :
  length (load_json_files files) ≤ length files.
Proof.
  induction files as [|[data|] files IH]; simpl; lia.
Qed.

(** X14: for documents that are objects whose posts are lists of objects
    (or nothing that yields an element), [main] does what the pipeline
    says: it reports the numbers of the documents, of their posts, of the
    accepted and of the skipped ones and of the duplicates, and its final
    list holds the accepted records, the first of each fingerprint; the
    output is written when the file can be.  This holds when the subreddit
    of every record of the final list is a string; when one is none, the
    run ends in a [TypeError] or a [ValueError] before the output is
    written. *)
Theorem main_on_well_shaped (w : world) :
  input_dir_exists w = true →
  load_json_files (json_files w) ≠ [] →
  Forall well_shaped (load_json_files (json_files w)) →
  (Forall named (dataset_of (load_json_files (json_files w))) →
   main w = finish (output_writable w)
                   (report_of (load_json_files (json_files w)))) ∧
  (¬ Forall named (dataset_of (load_json_files (json_files w))) →
   main w = Crashed (Exn TypeError) ∨ main w = Crashed ValueError).
Proof.
  intros He Hn Hws. rewrite (main_eq w He Hn).
  pose proof (process_documents_spec (load_json_files (json_files w))
                (output_writable w)) as H.
  destruct (process_documents _ _) as [o|e].
  - destruct H as (_ & Hnamed & ->). split; [done|]. by intros [].
  - destruct H as [[H _]|(_ & Hnamed & H)]; [done|]. split; [done|].
    intros _. destruct H as [-> | ->]; eauto.
Qed.

Lemma main_on_well_shaped_witness :
  main (World true
          [ Some (VDict [(txt "posts",
              VList [ VDict [(txt "title", VStr (txt "Can't sleep"));
                             (txt "body", VStr (txt "Any  advice?"))];
                      VDict [(txt "subreddit", VStr (txt "sleep"));
                             (txt "title", VStr (txt "cant  SLEEP!"));
                             (txt "body", VStr (txt "Same here."))];
                      VDict [(txt "title", VStr (txt "Hi"));
                             (txt "body", VStr (txt "[removed]"))] ])]);
            None ]
          true)
  = Complete {| input_files := 1;
                posts_extracted := 3;
                posts_cleaned := 2;
                posts_skipped := 1;
                duplicates_removed := Some 1;
                dataset := [ CleanedPost (VStr (txt "unknown"))
                                         (txt "Can't sleep")
                                         (txt "Any advice?") ] |}.
Proof.
  refine (proj1 (main_on_well_shaped (World true _ true) eq_refl _ _) _).
  - discriminate.
  - repeat constructor.
  - repeat constructor.
Defined.

(** X15: when [main] gets to the saving of the output, the numbers that it
    has printed add up (every extracted post is cleaned or skipped, every
    cleaned one is kept or a duplicate), at least one document was
    loaded, and every record of the final list has a string as its
    subreddit, a title that is not empty, a body of at least five
    characters without a marker, and a fingerprint of its own. *)
Theorem main_report (w : world) (r : report) :
  main w = Complete r ∨ main w = SaveFailed r →
  input_dir_exists w = true ∧
  1 ≤ input_files r ≤ length (json_files w) ∧
  posts_extracted r = posts_cleaned r + posts_skipped r ∧
  (∃ d, duplicates_removed r = Some d ∧
        posts_cleaned r = length (dataset r) + d) ∧
  NoDup (fingerprint <$> dataset r) ∧
  ∀ c, c ∈ dataset r →
       named c ∧ title c ≠ [] ∧ 5 ≤ length (body c) ∧
       has_marker (body c) = false.
Proof.
  intros Hm.
  destruct (input_dir_exists w) eqn:He.
  2: { unfold main in Hm. rewrite He in Hm. simpl in Hm.
       destruct Hm; discriminate. }
  destruct (load_json_files (json_files w)) as [|data docs] eqn:Hl.
  { unfold main in Hm. rewrite He, Hl in Hm. simpl in Hm.
    destruct Hm; discriminate. }
  rewrite (main_eq w He) in Hm by (by rewrite Hl).
  pose proof (process_documents_spec (load_json_files (json_files w))
                (output_writable w)) as H.
  destruct (process_documents _ _) as [o|e]; [|destruct Hm; discriminate].
  destruct H as (Hws & Hnamed & ->).
  assert (r = report_of (load_json_files (json_files w))) as ->.
  { unfold finish in Hm. destruct (output_writable w), Hm; congruence. }
  clear Hm. set (all := load_json_files (json_files w)) in *.
  pose proof (load_json_files_length (json_files w)) as Hlen. fold all in Hlen.
  pose proof (omap_accepted_length (all ≫= posts_of)) as Hacc.
  fold (cleaned_of all) in Hacc.
  pose proof (dedup_loop_length (cleaned_of all) ∅ [] 0) as Hd.
  fold (deduplicate_posts (cleaned_of all)) in Hd.
  fold (dataset_of all) in Hd. simpl in Hd.
  unfold report_of. cbn [input_files posts_extracted posts_cleaned
                         posts_skipped duplicates_removed dataset].
  split; [done|]. split; [rewrite Hl in *; simpl in *; lia|].
  split; [lia|]. split; [eexists; split; [done|lia]|].
  split; [apply (dedup_loop_fingerprints (cleaned_of all) ∅)|].
  intros c Hc. rewrite Forall_forall in Hnamed. split; [by apply Hnamed|].
  assert (c ∈ cleaned_of all) as Hin.
  { eapply elem_of_sublist; [exact Hc|].
    apply (dedup_loop_sublist (cleaned_of all) ∅). }
  apply list_elem_of_omap in Hin as (v & _ & Hv).
  apply accepted_spec in Hv as (_ & ? & ? & ? & _). done.
Qed.

Lemma main_report_witness :
  main (World true
          [ Some (VDict [(txt "posts",
              VList [ VDict [(txt "subreddit", VStr (txt "sleep"));
                             (txt "title", VStr (txt "Help"));
                             (txt "body", VStr (txt "I can not sleep"))];
                      VDict [(txt "title", VStr (txt "Hi"))] ])]) ]
          false)
    = SaveFailed {| input_files := 1;
                    posts_extracted := 2;
                    posts_cleaned := 1;
                    posts_skipped := 1;
                    duplicates_removed := Some 0;
                    dataset := [ CleanedPost (VStr (txt "sleep")) (txt "Help")
                                             (txt "I can not sleep") ] |} ∧
  NoDup (fingerprint <$> [ CleanedPost (VStr (txt "sleep")) (txt "Help")
                                       (txt "I can not sleep") ]).
Proof.
  split; [reflexivity|].
  destruct (main_report
    (World true
       [ Some (VDict [(txt "posts",
           VList [ VDict [(txt "subreddit", VStr (txt "sleep"));
                          (txt "title", VStr (txt "Help"));
                          (txt "body", VStr (txt "I can not sleep"))];
                   VDict [(txt "title", VStr (txt "Hi"))] ])]) ]
       false)
    {| input_files := 1;
       posts_extracted := 2;
       posts_cleaned := 1;
       posts_skipped := 1;
       duplicates_removed := Some 0;
       dataset := [ CleanedPost (VStr (txt "sleep")) (txt "Help")
                                (txt "I can not sleep") ] |}
    (or_intror eq_refl)) as (_ & _ & _ & _ & Hnd & _).
  exact Hnd.
Defined.

(** X16: when a loaded document is no object, or its posts cannot be
    iterated, or one of them is no object, the run ends in an
    [AttributeError] or a [TypeError]; nothing is written. *)
Theorem main_ill_shaped (w : world) :
  input_dir_exists w = true →
  ¬ Forall well_shaped (load_json_files (json_files w)) →
  main w = Crashed (Exn AttributeError) ∨ main w = Crashed (Exn TypeError).
Proof.
  intros He Hn.
  assert (load_json_files (json_files w) ≠ []) as Hne.
  { intros E. apply Hn. rewrite E. constructor. }
  rewrite (main_eq w He Hne).
  pose proof (process_documents_spec (load_json_files (json_files w))
                (output_writable w)) as H.
  destruct (process_documents _ _) as [o|e].
  - by destruct H as (? & _).
  - destruct H as [[_ [-> | ->]]|(? & _)]; eauto. done.
Qed.

Lemma main_ill_shaped_witness :
  main (World true [ None; Some (VList [VDict []]) ] true)
    = Crashed (Exn AttributeError) ∨
  main (World true [ None; Some (VList [VDict []]) ] true)
    = Crashed (Exn TypeError).
Proof.
  apply (main_ill_shaped (World true [ None; Some (VList [VDict []]) ] true)).
  - reflexivity.
  - intros H. by inversion H.
Defined.

(** ** The characters of the normalised text *)

Lemma star_loop_enclosed T (body : caps → str → cont → option mres)
    (k : cont) :
  (∀ k', enclosed_cont T k' → enclosed_cont T (λ g s, body g s k')) →
  enclosed_cont T k →
  ∀ n, enclosed_cont T (star_loop body k n).
Proof.
  intros Hb Hk n. induction n as [|n IH]; [exact Hk|].
  intros g s x HJ. simpl.
  destruct (body g s _) as [y|] eqn:E.
  - intros [= <-]. revert E. apply (Hb _); [|done].
    intros g' s' x' HJ'. destruct (length s' <? length s); [|done].
    by apply IH.
  - by apply Hk.
Qed.

(** The text of group 1 is made of characters of the text. *)
Lemma rmatch_enclosed T r :
  ∀ k, enclosed_cont T k → enclosed_cont T (λ g s, rmatch r g s k).
Proof.
  induction r as [|p|a IHa b IHb|a IHa b IHb|a IHa|a IHa]; intros k Hk.
  - exact Hk.
  - intros g [|c s] x HJ; simpl; [done|].
    destruct (p c); [|done]. apply Hk.
    intros d Hd. apply HJ. rewrite elem_of_app in *.
    destruct Hd; [by left|right; by apply list_elem_of_further].
  - simpl. apply IHa. by apply IHb.
  - intros g s x HJ. simpl.
    destruct (rmatch a g s k) as [y|] eqn:E.
    + intros [= <-]. by apply (IHa k Hk g s).
    + by apply (IHb k Hk g s).
  - intros g s x HJ. simpl. apply star_loop_enclosed; [|done..].
    intros k' Hk'. by apply IHa.
  - intros g s x HJ. simpl. apply (IHa _); [|done].
    intros g' s' x' HJ'. apply Hk. simpl.
    intros d Hd. apply elem_of_app in Hd as [Hd|Hd].
    + apply HJ, elem_of_app. right. by apply (subseteq_take _ _ _ Hd).
    + apply HJ', elem_of_app. by right.
Qed.

Lemma match_at_group_enclosed r (s : str) n g :
  match_at r s = Some (n, g) → default [] g ⊆ s.
Proof.
  unfold match_at.
  destruct (rmatch r None s accept) as [[g' rest]|] eqn:E; [|done].
  intros [= <- <-].
  assert (enclosed_cont s accept) as Ha.
  { intros g0 s0 x HJ [= <-]. done. }
  pose proof (rmatch_enclosed s r accept Ha None s _ (reflexivity _) E) as H.
  simpl in H. intros d Hd. apply H, elem_of_app. by left.
Qed.

(** A substitution whose replacements are made of characters of the
    matches, or of characters with [P], yields a text of characters of the
    text given, or with [P]. *)
Lemma sub_elem r repl (P : ascii → Prop) :
  (∀ t n g c, match_at r t = Some (n, g) → c ∈ expand repl g → c ∈ t ∨ P c) →
  ∀ (s : str) c, c ∈ Re.sub r repl s → c ∈ s ∨ P c.
Proof.
  intros Hr s.
  remember (length s) as m eqn:Hm. revert s Hm.
  induction m as [m IH] using lt_wf_ind. intros [|d s] -> c.
  - unfold Re.sub. simpl.
    destruct (match_at r []) as [[n g]|] eqn:E; [|intros ?; by left].
    intros Hc. by apply (Hr _ _ _ _ E).
  - rewrite sub_cons.
    destruct (match_at r (d :: s)) as [[[|n] g]|] eqn:E.
    + rewrite elem_of_app, elem_of_cons. intros [Hc|[->|Hc]].
      * by apply (Hr _ _ _ _ E).
      * left. apply list_elem_of_here.
      * destruct (IH (length s) (Nat.lt_succ_diag_r _) s eq_refl c Hc);
          [left; by apply list_elem_of_further|by right].
    + rewrite elem_of_app. intros [Hc|Hc].
      * by apply (Hr _ _ _ _ E).
      * assert (length (drop n s) < length (d :: s)) as Hlt
          by (rewrite length_drop; simpl; lia).
        destruct (IH _ Hlt (drop n s) eq_refl c Hc) as [Hd|Hp]; [|by right].
        left. apply list_elem_of_further. by apply (subseteq_drop n s).
    + rewrite elem_of_cons. intros [->|Hc].
      * left. apply list_elem_of_here.
      * destruct (IH (length s) (Nat.lt_succ_diag_r _) s eq_refl c Hc);
          [left; by apply list_elem_of_further|by right].
Qed.

Lemma sub_group_elem r (s : str) c :
  c ∈ Re.sub r [RGroup1] s → c ∈ s ∨ c = Char.SP.
Proof.
  apply (sub_elem r [RGroup1] (λ c, c = Char.SP)). intros t n g d H Hd. left.
  simpl in Hd. rewrite app_nil_r in Hd.
  by apply (match_at_group_enclosed _ _ _ _ H).
Qed.

Lemma sub_delete_elem r (s : str) c :
  c ∈ Re.sub r [] s → c ∈ s ∨ c = Char.SP.
Proof.
  apply (sub_elem r [] (λ c, c = Char.SP)). intros t n g d H Hd.
  by apply elem_of_nil in Hd.
Qed.

Lemma clean_str_elem (s : str) c : c ∈ clean_str s → c ∈ s ∨ c = Char.SP.
Proof.
  unfold clean_str. intros H.
  apply elem_of_strip in H.
  assert (∀ (f : str → str) (x : str),
            (∀ y d, d ∈ f y → d ∈ y ∨ d = Char.SP) →
            c ∈ f x ∨ c = Char.SP → c ∈ x ∨ c = Char.SP) as step.
  { intros f x Hf [Hc|Hc]; [by apply Hf|by right]. }
  apply (step (Re.sub Pat.http_url [])); [apply sub_delete_elem|].
  apply (step (Re.sub Pat.www_url [])); [apply sub_delete_elem|].
  apply (step (Re.sub Pat.bold [RGroup1])); [apply sub_group_elem|].
  apply (step (Re.sub Pat.italic [RGroup1])); [apply sub_group_elem|].
  apply (step (Re.sub Pat.strike [RGroup1])); [apply sub_group_elem|].
  apply (step (Re.sub Pat.blank_lines [RLit [Char.LF]])).
  { intros y. apply (sub_elem _ _ (λ c, c = Char.SP)).
    intros t n g d Hm Hd. left.
    apply match_at_blank_lines_some in Hm as (c0 & t' & n' & -> & _ & Hc0 & _).
    simpl in Hd. apply list_elem_of_singleton in Hd as ->.
    apply Ascii.eqb_eq in Hc0 as <-. apply list_elem_of_here. }
  apply (step (Re.sub Pat.blanks [RLit [Char.SP]])).
  { intros y. apply (sub_elem _ _ (λ c, c = Char.SP)).
    intros t n g d Hm Hd. right.
    simpl in Hd. by apply list_elem_of_singleton in Hd. }
  by left.
Qed.

(** X17: the normaliser invents nothing: every character of its result
    occurs in the text given, or is a space. *)
Theorem clean_text_no_new_character (s : str) (c : ascii) :
  c ∈ clean_text (VStr s) → c ∈ s ∨ c = Char.SP.
Proof.
  destruct s as [|d s]; [by intros ?%elem_of_nil|].
  cbn [clean_text]. apply clean_str_elem.
Qed.

Lemma clean_text_no_new_character_witness :
  "b"%char ∈ txt "*b*  c" ∨ "b"%char = Char.SP.
Proof.
  apply (clean_text_no_new_character (txt "*b*  c") "b").
  vm_compute. apply list_elem_of_here.
Defined.

(** ** The minimal length *)

(** X18: a post that the validator accepts with one minimal length is
    accepted with every smaller one. *)
Theorem is_valid_post_smaller_min_length (p : post) (m m' : Z) :
  is_valid_post p m = Ok true → (m' <= m)%Z →
  is_valid_post p m' = Ok true.
Proof.
  unfold is_valid_post. intros H Hle.
  destruct (strip_method (dict_get p "body" (VStr []))) as [b|e]; [|done].
  destruct (strip_method (dict_get p "title" (VStr []))) as [t|e]; [|done].
  cbn [mbind res_bind] in *.
  destruct (has_marker b); [done|].
  destruct (Z.ltb_spec (Z.of_nat (length b)) m); [done|].
  destruct (Z.ltb_spec (Z.of_nat (length b)) m'); [lia|]. done.
Qed.

Lemma is_valid_post_smaller_min_length_witness :
  is_valid_post {[ "body" := VStr (txt "hello there");
                   "title" := VStr (txt "Post") ]} 2 = Ok true.
Proof.
  apply (is_valid_post_smaller_min_length _ MIN_BODY_LEN 2).
  - reflexivity.
  - unfold MIN_BODY_LEN. lia.
Defined.

(** ** Deduplication of a longer list *)

Lemma dedup_loop_seen l : ∀ seen1 seen2 : gset str,
  (dedup_loop l (seen1 ∪ seen2) [] 0).1 =
    filter (λ p, fingerprint p ∉ seen1) (dedup_loop l seen2 [] 0).1.
Proof.
  induction l as [|p l IH]; intros seen1 seen2; simpl; [done|].
  fold (fingerprint p).
  destruct (decide (fingerprint p ∈ seen2)) as [H2|H2].
  - rewrite !bool_decide_eq_false_2 by set_solver.
    rewrite (dedup_loop_acc l (seen1 ∪ seen2) [] 1),
      (dedup_loop_acc l seen2 [] 1). cbn [fst]. apply IH.
  - rewrite (bool_decide_eq_true_2 (fingerprint p ∉ seen2)) by done.
    rewrite (dedup_loop_acc l ({[fingerprint p]} ∪ seen2) [p] 0). cbn [fst].
    rewrite filter_app.
    destruct (decide (fingerprint p ∈ seen1)) as [H1|H1].
    + rewrite bool_decide_eq_false_2 by set_solver.
      rewrite (dedup_loop_acc l (seen1 ∪ seen2) [] 1). cbn [fst].
      rewrite filter_cons_False by (intros ?; done). rewrite filter_nil.
      rewrite <-IH.
      assert (seen1 ∪ ({[fingerprint p]} ∪ seen2) = seen1 ∪ seen2) as ->
        by set_solver.
      done.
    + rewrite bool_decide_eq_true_2 by set_solver.
      rewrite (dedup_loop_acc l _ [p] 0). cbn [fst].
      rewrite filter_cons_True by done. rewrite filter_nil.
      rewrite <-IH.
      assert (seen1 ∪ ({[fingerprint p]} ∪ seen2)
              = {[fingerprint p]} ∪ (seen1 ∪ seen2)) as -> by set_solver.
      done.
Qed.

Lemma deduplicate_posts_app_1 (a b : list cleaned_post) :
  (deduplicate_posts (a ++ b)).1 =
    (deduplicate_posts a).1 ++
    filter (λ p, fingerprint p ∉ fingerprint <$> a) (deduplicate_posts b).1.
Proof.
  unfold deduplicate_posts. rewrite dedup_loop_app, dedup_loop_acc. cbn [fst].
  f_equal. rewrite dedup_loop_seen.
  induction (dedup_loop b ∅ [] 0).1 as [|p l IH]; [done|].
  rewrite !filter_cons, IH.
  destruct (decide (fingerprint p ∈ fingerprint <$> a)) as [H|H].
  - rewrite !decide_False; [done|tauto|set_solver].
  - rewrite !decide_True; [done|tauto|set_solver].
Qed.

(** X19: deduplicating a list with more records behind it keeps the same
    records of the list, and of the further ones those that it would keep
    of them alone and whose fingerprint is none of the list. *)
Theorem deduplicate_posts_app (a b : list cleaned_post) :
  (deduplicate_posts (a ++ b)).1 =
    (deduplicate_posts a).1 ++
    filter (λ p, fingerprint p ∉ fingerprint <$> a) (deduplicate_posts b).1 ∧
  (deduplicate_posts a).1 `prefix_of` (deduplicate_posts (a ++ b)).1 ∧
  (deduplicate_posts a).2 ≤ (deduplicate_posts (a ++ b)).2.
Proof.
  pose proof (deduplicate_posts_app_1 a b) as H.
  split; [done|]. split; [rewrite H; by eexists|].
  pose proof (dedup_loop_length (a ++ b) ∅ [] 0) as Hab.
  pose proof (dedup_loop_length a ∅ [] 0) as Ha.
  pose proof (dedup_loop_length b ∅ [] 0) as Hb.
  fold (deduplicate_posts (a ++ b)) in Hab. fold (deduplicate_posts a) in Ha.
  fold (deduplicate_posts b) in Hb.
  rewrite H, !length_app in Hab. simpl in *.
  pose proof (length_filter (λ p, fingerprint p ∉ fingerprint <$> a)
                (deduplicate_posts b).1). lia.
Qed.

(** ** More input files *)

Lemma load_json_files_app (f1 f2 : list (option value)) :
  load_json_files (f1 ++ f2) = load_json_files f1 ++ load_json_files f2.
Proof.
  induction f1 as [|[data|] f1 IH]; simpl; [done|by rewrite IH|done].
Qed.

Lemma main_finished (w : world) (r : report) :
  main w = Complete r ∨ main w = SaveFailed r →
  r = report_of (load_json_files (json_files w)).
Proof.
  intros Hm.
  destruct (input_dir_exists w) eqn:He.
  2: { unfold main in Hm. rewrite He in Hm. simpl in Hm.
       destruct Hm; discriminate. }
  destruct (load_json_files (json_files w)) as [|data docs] eqn:Hl.
  { unfold main in Hm. rewrite He, Hl in Hm. simpl in Hm.
    destruct Hm; discriminate. }
  rewrite (main_eq w He) in Hm by (by rewrite Hl).
  pose proof (process_documents_spec (load_json_files (json_files w))
                (output_writable w)) as H.
  destruct (process_documents _ _) as [o|e]; [|destruct Hm; discriminate].
  destruct H as (_ & _ & ->). rewrite <-Hl.
  unfold finish in Hm. destruct (output_writable w), Hm; congruence.
Qed.

(** X20: with further files behind those of a run that gets to the saving
    of the output, a run that gets as far keeps the records of the first
    run, in their places at the head of its final list: the new files add
    records behind them and remove none. *)
Theorem main_more_files (w : world) (files : list (option value))
    (writable : bool) (r r' : report) :
  main w = Complete r ∨ main w = SaveFailed r →
  main (World true (json_files w ++ files) writable) = Complete r' ∨
  main (World true (json_files w ++ files) writable) = SaveFailed r' →
  dataset r `prefix_of` dataset r' ∧
  input_files r ≤ input_files r' ∧
  posts_extracted r ≤ posts_extracted r'.
Proof.
  intros H H'. apply main_finished in H as ->. apply main_finished in H' as ->.
  cbn [json_files]. rewrite load_json_files_app.
  set (d1 := load_json_files (json_files w)).
  set (d2 := load_json_files files).
  unfold report_of. cbn [dataset input_files posts_extracted].
  unfold dataset_of, cleaned_of. rewrite bind_app, omap_app, !length_app.
  split; [|lia].
  rewrite deduplicate_posts_app_1. by eexists.
Qed.

Lemma main_more_files_witness :
  [ CleanedPost (VStr (txt "sleep")) (txt "Help") (txt "I can not sleep") ]
    `prefix_of`
  [ CleanedPost (VStr (txt "sleep")) (txt "Help") (txt "I can not sleep");
    CleanedPost (VStr (txt "unknown")) (txt "Hello") (txt "Good morning") ].
Proof.
  refine (proj1 (main_more_files
    (World true
       [ Some (VDict [(txt "posts",
           VList [ VDict [(txt "subreddit", VStr (txt "sleep"));
                          (txt "title", VStr (txt "Help"));
                          (txt "body", VStr (txt "I can not sleep"))] ])]) ]
       true)
    [ Some (VDict [(txt "posts",
        VList [ VDict [(txt "title", VStr (txt "help!"));
                       (txt "body", VStr (txt "Me neither"))];
                VDict [(txt "title", VStr (txt "Hello"));
                       (txt "body", VStr (txt "Good morning"))] ])]) ]
    false
    {| input_files := 1; posts_extracted := 1; posts_cleaned := 1;
       posts_skipped := 0; duplicates_removed := Some 0;
       dataset := [ CleanedPost (VStr (txt "sleep")) (txt "Help")
                                (txt "I can not sleep") ] |}
    {| input_files := 2; posts_extracted := 3; posts_cleaned := 3;
       posts_skipped := 0; duplicates_removed := Some 1;
       dataset := [ CleanedPost (VStr (txt "sleep")) (txt "Help")
                                (txt "I can not sleep");
                    CleanedPost (VStr (txt "unknown")) (txt "Hello")
                                (txt "Good morning") ] |}
    (or_introl eq_refl) (or_intror eq_refl))).
Defined.

(** ** Idempotence of [clean_text], exactly *)

Lemma suffix_cons_cases (t : str) c (s : str) :
  t `suffix_of` c :: s → t = c :: s ∨ t `suffix_of` s.
Proof.
  intros [[|d k] E]; [by left|]. right. simplify_eq/=. by eexists.
Qed.

Lemma no_match_spec r (s : str) :
  no_match r s = true ↔ ∀ t, t `suffix_of` s → match_at r t = None.
Proof.
  induction s as [|c s IH]; cbn [no_match].
  - destruct (match_at r []) as [x|] eqn:E.
    + split; [done|]. intros H. by rewrite (H [] (reflexivity _)) in E.
    + split; [|done]. by intros _ t ->%suffix_nil_inv.
  - destruct (match_at r (c :: s)) as [x|] eqn:E.
    + split; [done|]. intros H. by rewrite (H _ (reflexivity _)) in E.
    + rewrite IH. split; intros H t Ht.
      * apply suffix_cons_cases in Ht as [->|Ht]; [done|by apply H].
      * apply H. by apply suffix_cons_r.
Qed.

(** A substitution whose replacements are shorter than the matches keeps
    the length of a text only if the pattern matches nowhere in it. *)
Lemma sub_same_length r repl :
  (∀ t n g, match_at r t = Some (n, g) → length (expand repl g) < n) →
  ∀ s : str, length (Re.sub r repl s) = length s → no_match r s = true.
Proof.
  intros Hr.
  assert (∀ t n g, match_at r t = Some (n, g) → length (expand repl g) ≤ n)
    as Hle by (intros t n g E; apply Nat.lt_le_incl; by eapply Hr).
  intros s Hlen. apply no_match_spec. revert Hlen.
  induction s as [|c s IH]; intros Hlen t Ht.
  - apply suffix_nil_inv in Ht as ->.
    destruct (match_at r []) as [[n g]|] eqn:E; [|done].
    pose proof (Hr _ _ _ E). pose proof (match_at_le _ _ _ _ E) as Hn.
    simpl in *. lia.
  - rewrite sub_cons in Hlen.
    destruct (match_at r (c :: s)) as [[[|n] g]|] eqn:E.
    + pose proof (Hr _ _ _ E). lia.
    + exfalso. pose proof (Hr _ _ _ E) as He.
      pose proof (match_at_le _ _ _ _ E) as Hn. simpl in Hn.
      rewrite length_app in Hlen.
      pose proof (sub_length r repl Hle (drop n s)) as Hd.
      rewrite length_drop in Hd. simpl in Hlen. lia.
    + simpl in Hlen. apply suffix_cons_cases in Ht as [->|Ht]; [done|].
      apply IH; [lia|done].
Qed.

Lemma sub_no_match_fixed r repl (s : str) :
  no_match r s = true → Re.sub r repl s = s.
Proof. intros H. apply sub_no_match. by apply no_match_spec. Qed.

(** The text of group 1 is shorter than a match that begins with a
    literal. *)
Lemma match_at_lits_group_lt a (l : str) r (s : str) n g :
  match_at (Lits (a :: l) r) s = Some (n, g) → length (default [] g) < n.
Proof.
  unfold match_at. destruct s as [|c s]; [done|].
  cbn [Lits]. unfold Lit. cbn [rmatch].
  destruct (Ascii.eqb a c); [|done].
  destruct (rmatch (Lits l r) None s accept) as [[g' rest]|] eqn:E; [|done].
  intros [= <- <-].
  assert (bounded_cont (length s) accept) as Ha.
  { intros g0 s0 x HJ [= <-]. done. }
  pose proof (rmatch_bounded (length s) (Lits l r) accept Ha None s _
                (le_n _) E) as H.
  simpl in *. lia.
Qed.

Lemma url_match_positive r lits (s : str) n g :
  (∀ s, rmatch r None s accept = (λ rest, (None, rest)) <$> url_rest lits s) →
  match_at r s = Some (n, g) → length (expand [] g) < n.
Proof.
  intros Hr. rewrite (match_at_url r lits Hr).
  destruct (url_rest lits s) as [rest|] eqn:E; [|done].
  intros [= <- <-]. apply url_rest_shorter in E as [E _]. simpl. lia.
Qed.

Lemma group_match_shorter a (l : str) r (t : str) n g :
  match_at (Lits (a :: l) r) t = Some (n, g) →
  length (expand [RGroup1] g) < n.
Proof.
  intros H. apply match_at_lits_group_lt in H. simpl. by rewrite app_nil_r.
Qed.

(** Each of the five patterns is replaced by less than it matches. *)
Lemma http_url_shorter (t : str) n g :
  match_at Pat.http_url t = Some (n, g) → length (expand [] g) < n.
Proof. apply (url_match_positive _ http_lits), rmatch_http. Qed.

Lemma www_url_shorter (t : str) n g :
  match_at Pat.www_url t = Some (n, g) → length (expand [] g) < n.
Proof. apply (url_match_positive _ www_lits), rmatch_www. Qed.

Lemma bold_shorter (t : str) n g :
  match_at Pat.bold t = Some (n, g) → length (expand [RGroup1] g) < n.
Proof. apply (group_match_shorter "*" (txt "*")). Qed.

Lemma italic_shorter (t : str) n g :
  match_at Pat.italic t = Some (n, g) → length (expand [RGroup1] g) < n.
Proof. apply (group_match_shorter "*" []). Qed.

Lemma strike_shorter (t : str) n g :
  match_at Pat.strike t = Some (n, g) → length (expand [RGroup1] g) < n.
Proof. apply (group_match_shorter "~" (txt "~")). Qed.

Lemma sub_shorter_length r repl :
  (∀ t n g, match_at r t = Some (n, g) → length (expand repl g) < n) →
  ∀ s : str, length (Re.sub r repl s) ≤ length s.
Proof.
  intros Hr. apply sub_length. intros t n g E. apply Nat.lt_le_incl.
  by eapply Hr.
Qed.

(** Each of the last three steps of [clean_text] does not lengthen. *)
Lemma sub_blank_lines_length (s : str) :
  length (Re.sub Pat.blank_lines [RLit [Char.LF]] s) ≤ length s.
Proof.
  apply sub_length. intros t n g H.
  apply match_at_blank_lines_some in H as (c & t' & n' & -> & -> & _).
  simpl. lia.
Qed.

Lemma sub_blanks_length (s : str) :
  length (Re.sub Pat.blanks [RLit [Char.SP]] s) ≤ length s.
Proof.
  apply sub_length. intros t n g H.
  unfold Pat.blanks in H. rewrite match_at_plus_class in H.
  destruct t as [|c t]; [done|]. cbv beta in H.
  destruct (Ascii.eqb c Char.SP || Ascii.eqb c Char.TAB); [|done].
  injection H as <- <-. simpl. lia.
Qed.

Lemma py_strip_length (s : str) : length (py_strip s) ≤ length s.
Proof.
  unfold py_strip. etrans; [apply rstrip_length|apply lstrip_length].
Qed.

Lemma settled_iff (y : str) :
  settled y = true ↔
  no_match Pat.http_url y = true ∧ no_match Pat.www_url y = true ∧
  no_match Pat.bold y = true ∧ no_match Pat.italic y = true ∧
  no_match Pat.strike y = true.
Proof.
  unfold settled, markup. cbn [forallb]. rewrite !andb_true_iff.
  split; [intros (? & ? & ? & ? & ? & _)|intros (? & ? & ? & ? & ?)]; done.
Qed.

(** A text whose white space is in order is left as it is by [clean_text]
    exactly when none of the five patterns matches in it. *)
Lemma clean_str_fixed_iff (y : str) :
  nl_free y = true → tidy false y = true → py_strip y = y →
  clean_str y = y ↔ settled y = true.
Proof.
  intros Hn Ht Hs. rewrite settled_iff. split.
  - unfold clean_str.
    pose proof (sub_shorter_length _ _ http_url_shorter) as L1.
    pose proof (sub_shorter_length _ _ www_url_shorter) as L2.
    pose proof (sub_shorter_length _ _ bold_shorter) as L3.
    pose proof (sub_shorter_length _ _ italic_shorter) as L4.
    pose proof (sub_shorter_length _ _ strike_shorter) as L5.
    set (y1 := Re.sub Pat.http_url [] y).
    set (y2 := Re.sub Pat.www_url [] y1).
    set (y3 := Re.sub Pat.bold [RGroup1] y2).
    set (y4 := Re.sub Pat.italic [RGroup1] y3).
    set (y5 := Re.sub Pat.strike [RGroup1] y4).
    set (y6 := Re.sub Pat.blank_lines [RLit [Char.LF]] y5).
    set (y7 := Re.sub Pat.blanks [RLit [Char.SP]] y6).
    intros H. apply (f_equal length) in H.
    assert (length (py_strip y7) ≤ length y7) by apply py_strip_length.
    assert (length y7 ≤ length y6) by apply sub_blanks_length.
    assert (length y6 ≤ length y5) by apply sub_blank_lines_length.
    assert (length y5 ≤ length y4) by apply L5.
    assert (length y4 ≤ length y3) by apply L4.
    assert (length y3 ≤ length y2) by apply L3.
    assert (length y2 ≤ length y1) by apply L2.
    assert (length y1 ≤ length y) by apply L1.
    assert (no_match Pat.http_url y = true) as M1.
    { apply (sub_same_length _ [] http_url_shorter). fold y1. lia. }
    assert (y1 = y) as E1 by by apply sub_no_match_fixed.
    assert (no_match Pat.www_url y = true) as M2.
    { apply (sub_same_length _ [] www_url_shorter).
      rewrite <-E1 at 1. fold y2. lia. }
    assert (y2 = y) as E2.
    { unfold y2. rewrite E1. by apply sub_no_match_fixed. }
    assert (no_match Pat.bold y = true) as M3.
    { apply (sub_same_length _ [RGroup1] bold_shorter).
      rewrite <-E2 at 1. fold y3. lia. }
    assert (y3 = y) as E3.
    { unfold y3. rewrite E2. by apply sub_no_match_fixed. }
    assert (no_match Pat.italic y = true) as M4.
    { apply (sub_same_length _ [RGroup1] italic_shorter).
      rewrite <-E3 at 1. fold y4. lia. }
    assert (y4 = y) as E4.
    { unfold y4. rewrite E3. by apply sub_no_match_fixed. }
    assert (no_match Pat.strike y = true) as M5.
    { apply (sub_same_length _ [RGroup1] strike_shorter).
      rewrite <-E4 at 1. fold y5. lia. }
    done.
  - intros (M1 & M2 & M3 & M4 & M5). unfold clean_str.
    rewrite (sub_no_match_fixed Pat.http_url [] y M1),
      (sub_no_match_fixed Pat.www_url [] y M2),
      (sub_no_match_fixed Pat.bold [RGroup1] y M3),
      (sub_no_match_fixed Pat.italic [RGroup1] y M4),
      (sub_no_match_fixed Pat.strike [RGroup1] y M5).
    rewrite (sub_no_match Pat.blank_lines _ y)
      by (intros t; by apply nl_free_no_match).
    rewrite sub_blanks, collapse_tidy by done. done.
Qed.

Lemma clean_text_str (y : str) : clean_text (VStr y) = clean_str y.
Proof. by destruct y. Qed.

(** Without asterisks and tildes the emphasis patterns match nowhere. *)
Lemma no_match_lits_absent a (l : str) r (s : str) :
  Forall (λ c, Ascii.eqb a c = false) s →
  no_match (Lits (a :: l) r) s = true.
Proof.
  intros H. apply no_match_spec. intros t [k ->].
  apply Forall_app in H as [_ H]. apply match_at_lits_other.
  destruct t as [|c t]; [done|]. by inversion H.
Qed.

(** C2 (amended): running the normaliser on its own result changes
    nothing exactly when none of its five patterns (the two URL patterns
    and the patterns of bold, italic and struck text) matches at any
    position of that result.  So it changes nothing when the result holds
    no asterisk, no tilde and no URL, as it is for every text that holds
    no asterisk and no tilde, and for every value that is not a string. *)
Theorem clean_text_idempotent_iff (text : value) :
  (clean_text (VStr (clean_text text)) = clean_text text ↔
   settled (clean_text text) = true) ∧
  (Forall (λ c, c ≠ "*"%char ∧ c ≠ "~"%char) (clean_text text) →
   no_match Pat.http_url (clean_text text) = true →
   no_match Pat.www_url (clean_text text) = true →
   clean_text (VStr (clean_text text)) = clean_text text) ∧
  ((∀ s, text = VStr s → Forall (λ c, c ≠ "*"%char ∧ c ≠ "~"%char) s) →
   clean_text (VStr (clean_text text)) = clean_text text).
Proof.
  destruct (clean_text_blank text) as (Hn & Ht & Hs).
  pose proof (clean_str_fixed_iff (clean_text text) Hn Ht Hs) as Hiff.
  rewrite clean_text_str. split; [done|]. split.
  - intros Hp Hh Hw. apply Hiff, settled_iff.
    assert (Forall (λ c, Ascii.eqb "*" c = false) (clean_text text) ∧
            Forall (λ c, Ascii.eqb "~" c = false) (clean_text text))
      as [Hstar Htilde].
    { split; (eapply Forall_impl; [exact Hp|]); intros c [H1 H2];
        apply Ascii.eqb_neq; congruence. }
    repeat split; try done.
    + by apply (no_match_lits_absent "*" (txt "*")).
    + by apply (no_match_lits_absent "*" []).
    + by apply (no_match_lits_absent "~" (txt "~")).
  - intros Hplain.
    destruct text as [| | |s| |]; try done.
    destruct s as [|c s]; [done|].
    assert (Hnormal : normal (clean_str (c :: s))).
    { apply clean_str_normal. eapply Forall_impl; [by apply Hplain|].
      intros d [H1 H2]. unfold plain.
      apply Ascii.eqb_neq in H1, H2. by rewrite H1, H2. }
    cbn [clean_text]. by apply clean_str_fixed.
Qed.

Lemma clean_text_idempotent_iff_witness :
  clean_text (VStr (clean_text
    (VStr (txt "**bold** text, ~~old~~ *new*  at http://a.b/c"))))
  = clean_text (VStr (txt "**bold** text, ~~old~~ *new*  at http://a.b/c")).
Proof.
  apply (proj1 (proj2 (clean_text_idempotent_iff
    (VStr (txt "**bold** text, ~~old~~ *new*  at http://a.b/c"))))).
  - vm_compute. repeat (constructor; [split; discriminate|]). constructor.
  - reflexivity.
  - reflexivity.
Defined.

(** ** The groups of the statistics *)

(** X12: in the statistics that [calculate_stats] returns the dictionary
    of the groups holds an entry for a key exactly when some record has
    that subreddit; the [count] of the entry is the number of these
    records, its [total_length] the sum of the lengths of their bodies,
    and its [avg_length] is set. *)
Theorem calculate_stats_groups (posts : list cleaned_post) (st : stats)
    (k : key) :
  calculate_stats posts = Ok (Stats st) →
  (k ∈ (subreddit_stats st).*1 ↔ group_of k posts ≠ []) ∧
  ∀ g, (k, g) ∈ subreddit_stats st →
       count g = length (group_of k posts) ∧
       total_length g = total_body_length (group_of k posts) ∧
       is_Some (avg_length g).
Proof.
  intros H. pose proof (calculate_stats_cases posts) as Hc. rewrite H in Hc.
  destruct Hc as (d & Hd & Hd').
  pose proof (stats_loop_spec posts []) as Hloop. rewrite Hd in Hloop.
  destruct Hloop as (_ & _ & Hcounted & Hnd).
  destruct (set_averages_spec d) as (d' & Hd'' & Hk & _).
  { apply Hcounted. constructor. }
  assert (d' = subreddit_stats st) as -> by congruence.
  split.
  - rewrite group_of_nonempty. by apply calculate_stats_keys.
  - intros g Hg. apply dd_get_elem in Hg; [|rewrite Hk; apply Hnd; constructor].
    rewrite (set_averages_get d _ k Hd'), (stats_loop_group posts [] d k Hd)
      in Hg.
    case_decide as He; [done|]. simpl in Hg. injection Hg as <-. simpl.
    repeat split; eauto.
Qed.

Lemma calculate_stats_groups_witness :
  2 = length (group_of (KStr (txt "anxiety"))
        [ CleanedPost (VStr (txt "anxiety")) (txt "First") (txt "hello");
          CleanedPost (VStr (txt "sleep")) (txt "Second") (txt "good night");
          CleanedPost (VStr (txt "anxiety")) (txt "Third") (txt "thanks") ]) ∧
  11 = total_body_length (group_of (KStr (txt "anxiety"))
        [ CleanedPost (VStr (txt "anxiety")) (txt "First") (txt "hello");
          CleanedPost (VStr (txt "sleep")) (txt "Second") (txt "good night");
          CleanedPost (VStr (txt "anxiety")) (txt "Third") (txt "thanks") ]).
Proof.
  destruct (calculate_stats_groups
    [ CleanedPost (VStr (txt "anxiety")) (txt "First") (txt "hello");
      CleanedPost (VStr (txt "sleep")) (txt "Second") (txt "good night");
      CleanedPost (VStr (txt "anxiety")) (txt "Third") (txt "thanks") ]
    {| total_posts := 3; avg_body_length := Qmake 21 3;
       subreddit_stats :=
         [ (KStr (txt "anxiety"),
            {| count := 2; total_length := 11;
               avg_length := Some (Qmake 11 2) |});
           (KStr (txt "sleep"),
            {| count := 1; total_length := 10;
               avg_length := Some (Qmake 10 1) |}) ] |}
    (KStr (txt "anxiety")) eq_refl) as [_ H].
  destruct (H {| count := 2; total_length := 11;
                 avg_length := Some (Qmake 11 2) |}
              (list_elem_of_here _ _)) as (Hc & Hl & _).
  exact (conj Hc Hl).
Defined.
